(** * SRT translator: subtitle codec, batch planner, response parser, retry loop

    A shallow embedding of [tools/session-helper/srt_translator.py].

    Conventions of the embedding.
    - A Python [str] is a sequence of Unicode code points: [list Z].
      ASCII literals are written with [u "..."].
    - A Python [int] is a [Z]; interpreter resource limits (memory, the
      limit on the number of digits [int()] accepts) are outside the model.
    - A call that may raise returns a [res]: [Ok v] or [Raise e].
    - Console output ([print_warning] and the like) is modelled where a
      property speaks of it: the warnings of [parse_srt] and the events of
      the retry loop.  Messages are represented by constructors, not by
      their text. *)

From Stdlib Require Import ZArith Lia String Ascii.
From stdpp Require Import base list.

#[local] Open Scope Z_scope.

(** ** Strings of code points *)

Abbreviation str := (list Z).

Definition u (s : string) : str :=
  (fun a => Z.of_N (N_of_ascii a)) <$> list_ascii_of_string s.

Definition NL : Z := 10.
Definition CR : Z := 13.
Definition BOM : Z := 65279.

(** [str.isspace] on one code point; also the class [\s] of [re] and the
    characters removed by [str.strip()] (Unicode 14, CPython 3.11). *)
Definition Py_UNICODE_ISSPACE (c : Z) : bool :=
  ((9 <=? c) && (c <=? 13)) || ((28 <=? c) && (c <=? 32))
  || (c =? 133) || (c =? 160) || (c =? 5760)
  || ((8192 <=? c) && (c <=? 8202))
  || (c =? 8232) || (c =? 8233) || (c =? 8239) || (c =? 8287)
  || (c =? 12288).

(** Code points of the digit zero of every decimal-digit block (general
    category Nd, Unicode 14); each block is ten consecutive code points. *)
Definition decimal_zeros : list Z :=
  [48; 1632; 1776; 1984; 2406; 2534; 2662; 2790; 2918; 3046; 3174; 3302;
   3430; 3558; 3664; 3792; 3872; 4160; 4240; 6112; 6160; 6470; 6608; 6784;
   6800; 6992; 7088; 7232; 7248; 42528; 43216; 43264; 43472; 43504; 43600;
   44016; 65296; 66720; 68912; 69734; 69872; 69942; 70096; 70384; 70736;
   70864; 71248; 71360; 71472; 71904; 72016; 72784; 73040; 73120; 92768;
   92864; 93008; 120782; 120792; 120802; 120812; 120822; 123200; 123632;
   125264; 130032].

(** [Py_UNICODE_TODECIMAL]: the value of a decimal digit, if it is one. *)
Definition Py_UNICODE_TODECIMAL (c : Z) : option Z :=
  match List.find (fun z => (z <=? c) && (c <? z + 10)) decimal_zeros with
  | Some z => Some (c - z)
  | None => None
  end.

(** The class [\d] of [re] on [str] patterns. *)
Definition is_decimal (c : Z) : bool :=
  match Py_UNICODE_TODECIMAL c with Some _ => true | None => false end.

(** The class [.] of [re] without DOTALL. *)
Definition is_dot (c : Z) : bool := negb (c =? NL).

Fixpoint drop_while (p : Z -> bool) (s : str) : str :=
  match s with
  | c :: s' => if p c then drop_while p s' else s
  | [] => []
  end.

Definition lstrip (s : str) : str := drop_while Py_UNICODE_ISSPACE s.
Definition rstrip (s : str) : str := rev (drop_while Py_UNICODE_ISSPACE (rev s)).

(** [s.strip()] *)
Definition strip (s : str) : str := rstrip (lstrip s).

(** [s.split("\n")] and, in general, the split on one separator character. *)
Fixpoint split_on (sep : Z) (s : str) : list str :=
  match s with
  | [] => [[]]
  | c :: s' =>
      if c =? sep then [] :: split_on sep s'
      else match split_on sep s' with
           | h :: t => (c :: h) :: t
           | [] => [[c]]
           end
  end.

(** [sep.join(parts)] *)
Fixpoint join (sep : str) (parts : list str) : str :=
  match parts with
  | [] => []
  | [p] => p
  | p :: ps => p ++ sep ++ join sep ps
  end.

(** [s.replace(a, b)] for single characters [a] and [b]. *)
Definition replace_char (a b : Z) (s : str) : str :=
  (fun c => if c =? a then b else c) <$> s.

(** [s.replace("\r\n", "\n")] *)
Fixpoint replace_crlf (s : str) : str :=
  match s with
  | [] => []
  | c :: s' =>
      match s' with
      | d :: s'' =>
          if (c =? CR) && (d =? NL) then NL :: replace_crlf s''
          else c :: replace_crlf s'
      | [] => [c]
      end
  end.

(** ** Exceptions *)

Inductive exn := ValueError | IndexError | UnicodeEncodeError.

Inductive res (A : Type) :=
| Ok (a : A)
| Raise (e : exn).
Arguments Ok {A} a.
Arguments Raise {A} e.

#[global] Instance res_ret : MRet res := fun A a => Ok a.

#[global] Instance res_bind : MBind res := fun A B f m =>
  match m with
  | Ok a => f a
  | Raise e => Raise e
  end.

(** ** Integers and their decimal notation *)

(** The digits of [str(n)] for [0 <= n], most significant first. *)
Fixpoint digits_aux (fuel : nat) (n : Z) (acc : str) : str :=
  match fuel with
  | O => acc
  | S f =>
      let acc' := (48 + n mod 10) :: acc in
      if n / 10 =? 0 then acc' else digits_aux f (n / 10) acc'
  end.

Definition digits (n : Z) : str :=
  digits_aux (S (Z.to_nat (Z.log2 n))) n [].

(** [str(n)].  CPython prints at most [int_max_str_digits] digits (the
    limit of [int()] below holds for [str()] as well); the numbers that
    the program prints are positions in a list and fields of a time. *)
Definition py_str (n : Z) : str :=
  if n <? 0 then 45 :: digits (- n) else digits n.

(** [f"{n:0{width}d}"]: sign, then zeros up to the width, then digits. *)
Definition format_0d (width : nat) (n : Z) : str :=
  let sign := if n <? 0 then [45] else [] in
  let ds := digits (Z.abs n) in
  sign ++ replicate (width - length sign - length ds)%nat 48 ++ ds.

(** The digit groups of an [int()] literal: decimal digits, single
    underscores allowed between two digits.  [prev] tells whether the
    previous character was a digit. *)
Fixpoint int_digits (acc : Z) (prev : bool) (s : str) : option Z :=
  match s with
  | [] => if prev then Some acc else None
  | c :: s' =>
      match Py_UNICODE_TODECIMAL c with
      | Some d => int_digits (10 * acc + d) true s'
      | None => if (c =? 95) && prev then int_digits acc false s' else None
      end
  end.

(** [sys.int_info.default_max_str_digits]: the most digits that [int()]
    converts. *)
Definition int_max_str_digits : Z := 4300.

(** The number of digit characters of a string. *)
Fixpoint count_digits (s : str) : Z :=
  match s with
  | [] => 0
  | c :: s' => (if is_decimal c then 1 else 0) + count_digits s'
  end.

(** [int(s)] for a string [s] without surrounding whitespace.  Every call
    in the program is of this kind: the argument is either the result of
    [strip()] or a group matched by [\d+] or [\d{n}].  A literal of more
    than [int_max_str_digits] digits is refused with a [ValueError], as a
    malformed one is. *)
Definition py_int (s : str) : res Z :=
  let body :=
    match s with
    | c :: r =>
        if c =? 43 then int_digits 0 false r
        else if c =? 45 then option_map Z.opp (int_digits 0 false r)
        else int_digits 0 false s
    | [] => None
    end in
  match body with
  | Some v =>
      if int_max_str_digits <? count_digits s then Raise ValueError else Ok v
  | None => Raise ValueError
  end.

(** [len(l)] *)
Definition len {A} (l : list A) : Z := Z.of_nat (length l).

(** An index or slice bound as Python normalises it: counted from the end
    when negative. *)
Definition py_clamp (n i : Z) : Z :=
  if i <? 0 then Z.max (i + n) 0 else Z.min i n.

(** [l[a:b]] *)
Definition py_slice {A} (l : list A) (a b : Z) : list A :=
  let a' := py_clamp (len l) a in
  let b' := py_clamp (len l) b in
  take (Z.to_nat (b' - a')) (drop (Z.to_nat a') l).

(** [l[a:]] *)
Definition py_slice_from {A} (l : list A) (a : Z) : list A :=
  drop (Z.to_nat (py_clamp (len l) a)) l.

(** [l[:b]] *)
Definition py_slice_to {A} (l : list A) (b : Z) : list A :=
  take (Z.to_nat (py_clamp (len l) b)) l.

(** [l[i]] *)
Definition py_getitem {A} (l : list A) (i : Z) : res A :=
  let j := if i <? 0 then i + len l else i in
  if (0 <=? j) && (j <? len l) then
    match l !! Z.to_nat j with
    | Some x => Ok x
    | None => Raise IndexError
    end
  else Raise IndexError.

(** [l[i] = x] *)
Definition py_setitem {A} (l : list A) (i : Z) (x : A) : res (list A) :=
  let j := if i <? 0 then i + len l else i in
  if (0 <=? j) && (j <? len l) then Ok (<[Z.to_nat j := x]> l)
  else Raise IndexError.

(** [list(range(start, stop, step))] *)
Definition py_range (start stop step : Z) : res (list Z) :=
  if step =? 0 then Raise ValueError
  else
    let n := if 0 <? step then (stop - start + step - 1) / step
             else (start - stop - step - 1) / (- step) in
    Ok ((fun k => start + Z.of_nat k * step) <$> seq 0 (Z.to_nat n)).

(** ** Regular expressions

    The patterns of the program are written with backtracking combinators
    in continuation-passing style: a combinator consumes a prefix of the
    subject and hands the matched text and the rest to its continuation;
    when the continuation fails the combinator tries its next alternative,
    in the order of [re]. *)

Section Regex.
Context {R : Type}.

(** [x*], greedy *)
Fixpoint re_star (p : Z -> bool) (s : str)
    (k : str -> str -> option R) : option R :=
  match s with
  | c :: s' =>
      if p c then
        match re_star p s' (fun m r => k (c :: m) r) with
        | Some x => Some x
        | None => k [] s
        end
      else k [] s
  | [] => k [] s
  end.

(** [x+], greedy *)
Definition re_plus (p : Z -> bool) (s : str)
    (k : str -> str -> option R) : option R :=
  match s with
  | c :: s' => if p c then re_star p s' (fun m r => k (c :: m) r) else None
  | [] => None
  end.

(** [x+?], lazy *)
Fixpoint re_plus_lazy (p : Z -> bool) (s : str)
    (k : str -> str -> option R) : option R :=
  match s with
  | c :: s' =>
      if p c then
        match k [c] s' with
        | Some x => Some x
        | None => re_plus_lazy p s' (fun m r => k (c :: m) r)
        end
      else None
  | [] => None
  end.

(** [x{n}] *)
Fixpoint re_count (n : nat) (p : Z -> bool) (s : str)
    (k : str -> str -> option R) : option R :=
  match n with
  | O => k [] s
  | S n' =>
      match s with
      | c :: s' => if p c then re_count n' p s' (fun m r => k (c :: m) r) else None
      | [] => None
      end
  end.

(** a literal string *)
Fixpoint re_lit (lit : str) (s : str) (k : str -> option R) : option R :=
  match lit with
  | [] => k s
  | a :: lit' =>
      match s with
      | c :: s' => if c =? a then re_lit lit' s' k else None
      | [] => None
      end
  end.
End Regex.

(** ** Timestamps *)

(** [re.match(r"(\d{2}):(\d{2}):(\d{2}),(\d{3})", s)]: the four groups. *)
Definition match_timestamp (s : str) : option (str * str * str * str) :=
  re_count 2 is_decimal s (fun g1 s =>
  re_lit [58] s (fun s =>
  re_count 2 is_decimal s (fun g2 s =>
  re_lit [58] s (fun s =>
  re_count 2 is_decimal s (fun g3 s =>
  re_lit [44] s (fun s =>
  re_count 3 is_decimal s (fun g4 _ =>
  Some (g1, g2, g3, g4)))))))).

Definition parse_timestamp (timestamp : str) : res Z :=
  let timestamp := replace_char 46 44 timestamp in
  match match_timestamp (strip timestamp) with
  | None => Raise ValueError
  | Some (g1, g2, g3, g4) =>
      hours ← py_int g1;
      minutes ← py_int g2;
      seconds ← py_int g3;
      millis ← py_int g4;
      Ok ((hours * 3600 + minutes * 60 + seconds) * 1000 + millis)
  end.

Definition format_timestamp (ms : Z) : str :=
  let total_seconds := ms / 1000 in
  let millis := ms mod 1000 in
  let hours := total_seconds / 3600 in
  let minutes := (total_seconds mod 3600) / 60 in
  let seconds := total_seconds mod 60 in
  format_0d 2 hours ++ [58] ++ format_0d 2 minutes ++ [58]
    ++ format_0d 2 seconds ++ [44] ++ format_0d 3 millis.

(** ** Data classes *)

Record Cue := {
  index : Z;
  start_time : Z;           (* milliseconds *)
  end_time : Z;             (* milliseconds *)
  text : str;
  translated_text : option str
}.

(** A batch over elements of type [A]: the planner only slices the list it
    is given.  In a run, [A] is the type of references to [Cue] objects. *)
Record TranslationBatch (A : Type) := {
  cues : list A;
  prev_context : list A;
  next_context : list A;
  start_index : Z;
  end_index : Z
}.
Arguments cues {A} _.
Arguments prev_context {A} _.
Arguments next_context {A} _.
Arguments start_index {A} _.
Arguments end_index {A} _.

(** ** Constants *)

Definition DEFAULT_BATCH_SIZE : Z := 30.
Definition DEFAULT_CONTEXT_SIZE : Z := 2.
Definition MAX_RETRIES : Z := 3.
Definition RETRY_BACKOFF : list Z := [1; 2; 4].
Definition RATE_LIMIT_DELAY : Z := 0.

(** ** SRT parser *)

Inductive warning :=
| BadTimestamp (index : Z)       (* "Skipping invalid cue at index ..." *)
| MalformedBlock (e : exn).      (* "Skipping malformed cue block: ..." *)

(** A match of [\n\s*\n] at the start of [s]: the text after the match. *)
Definition blank_at (s : str) : option str :=
  re_lit [NL] s (fun s =>
  re_star Py_UNICODE_ISSPACE s (fun _ s =>
  re_lit [NL] s (fun s => Some s))).

(** [re.search(r"\n\s*\n", s)]: the text before and after the leftmost
    match. *)
Fixpoint find_blank (s : str) : option (str * str) :=
  match blank_at s with
  | Some r => Some ([], r)
  | None =>
      match s with
      | [] => None
      | c :: s' =>
          match find_blank s' with
          | Some (b, r) => Some (c :: b, r)
          | None => None
          end
      end
  end.

Fixpoint split_blank_fuel (fuel : nat) (s : str) : list str :=
  match fuel with
  | O => [s]
  | S f =>
      match find_blank s with
      | None => [s]
      | Some (b, r) => b :: split_blank_fuel f r
      end
  end.

(** [re.split(r"\n\s*\n", s)]; a match consumes at least two characters,
    so the length of [s] is fuel enough. *)
Definition split_blank (s : str) : list str := split_blank_fuel (length s) s.

(** [re.match(r"(.+?)\s*-->\s*(.+?)(?:\s|$)", s)]: the two groups. *)
Definition match_timing (s : str) : option (str * str) :=
  re_plus_lazy is_dot s (fun g1 s =>
  re_star Py_UNICODE_ISSPACE s (fun _ s =>
  re_lit (u "-->") s (fun s =>
  re_star Py_UNICODE_ISSPACE s (fun _ s =>
  re_plus_lazy is_dot s (fun g2 s =>
  match s with
  | c :: _ => if Py_UNICODE_ISSPACE c then Some (g1, g2) else None
  | [] => Some (g1, g2)
  end))))).

(** What the body of the [try] does with the lines of one block. *)
Inductive block_outcome :=
| Parsed (c : Cue)
| Skipped (w : warning).

Definition parse_block (lines : list str) : res block_outcome :=
  l0 ← py_getitem lines 0;
  index ← py_int (strip l0);
  l1 ← py_getitem lines 1;
  match match_timing (strip l1) with
  | None => Ok (Skipped (BadTimestamp index))
  | Some (g1, g2) =>
      start_time ← parse_timestamp g1;
      end_time ← parse_timestamp g2;
      let text := strip (join [NL] (py_slice_from lines 2)) in
      Ok (Parsed {| index := index; start_time := start_time;
                    end_time := end_time; text := text;
                    translated_text := None |})
  end.

(** One iteration of the loop over the blocks; the state is the list of
    cues built so far and the warnings printed so far. *)
Definition parse_srt_step (st : list Cue * list warning) (block : str)
    : list Cue * list warning :=
  let '(cues, warnings) := st in
  match strip block with
  | [] => st
  | _ =>
      let lines := split_on NL (strip block) in
      if len lines <? 3 then st
      else
        match parse_block lines with
        | Ok (Parsed c) => (cues ++ [c], warnings)
        | Ok (Skipped w) => (cues, warnings ++ [w])
        | Raise e => (cues, warnings ++ [MalformedBlock e])
        end
  end.

(** The blocks of a document: line endings normalised, byte-order mark
    removed, split at blank lines. *)
Definition srt_blocks (content : str) : list str :=
  let content := replace_char CR NL (replace_crlf content) in
  let content :=
    match content with
    | c :: r => if c =? BOM then r else content
    | [] => content
    end in
  split_blank (strip content).

Definition parse_srt_log (content : str) : list Cue * list warning :=
  foldl parse_srt_step ([], []) (srt_blocks content).

(** The value returned by [parse_srt]. *)
Definition parse_srt (content : str) : list Cue := fst (parse_srt_log content).

(** The warnings printed by [parse_srt]. *)
Definition parse_srt_warnings (content : str) : list warning :=
  snd (parse_srt_log content).

(** ** SRT generator *)

(** The truth value of an [Optional[str]]. *)
Definition truthy (o : option str) : bool :=
  match o with
  | Some (_ :: _) => true
  | _ => false
  end.

(** The line [f"{format_timestamp(cue.start_time)} --> {format_timestamp(cue.end_time)}"]. *)
Definition timing_line (cue : Cue) : str :=
  format_timestamp (start_time cue) ++ u " --> " ++ format_timestamp (end_time cue).

Definition cue_lines (use_translated : bool) (i : Z) (cue : Cue) : list str :=
  [ py_str i;
    timing_line cue;
    (if use_translated && truthy (translated_text cue)
     then default [] (translated_text cue) else text cue);
    [] ].

(** The list [lines] after the loop over [enumerate(cues, i)]. *)
Fixpoint generate_lines (use_translated : bool) (i : Z) (cues : list Cue)
    : list str :=
  match cues with
  | [] => []
  | cue :: rest =>
      cue_lines use_translated i cue ++ generate_lines use_translated (i + 1) rest
  end.

Definition generate_srt (cues : list Cue) (use_translated : bool) : str :=
  let content := join [CR; NL] (generate_lines use_translated 1 cues) in
  BOM :: content.

(** ** Context-aware batching *)

(** The batch built by the iteration of the loop at position [i]. *)
Definition batch_at {A} (cues : list A) (batch_size context_size i : Z)
    : TranslationBatch A :=
  let batch_cues := py_slice cues i (i + batch_size) in
  (* Get context cues *)
  let prev_start := Z.max 0 (i - context_size) in
  let prev_context := py_slice cues prev_start i in
  let next_end := Z.min (len cues) (i + batch_size + context_size) in
  let next_context := py_slice cues (i + batch_size) next_end in
  {| cues := batch_cues;
     prev_context := prev_context;
     next_context := next_context;
     start_index := i;
     end_index := i + len batch_cues - 1 |}.

Definition create_batches {A} (cues : list A) (batch_size context_size : Z)
    : res (list (TranslationBatch A)) :=
  starts ← py_range 0 (len cues) batch_size;
  Ok (batch_at cues batch_size context_size <$> (starts : list Z)).

(** ** Prompt *)

Definition DEFAULT_TARGET_LANG : str := u "zh-TW".

Definition lang_names : list (str * str) :=
  [ (u "zh-TW", [32321; 39636; 20013; 25991]);
    (u "zh-CN", [31616; 20307; 20013; 25991]);
    (u "ja", [26085; 26412; 35486]);
    (u "ko", [54620; 44397; 50612]);
    (u "en", u "English");
    (u "es", [69; 115; 112; 97; 241; 111; 108]);
    (u "fr", [70; 114; 97; 110; 231; 97; 105; 115]);
    (u "de", u "Deutsch") ].

(** [d.get(key, default)] on an association list. *)
Definition dict_get (d : list (str * str)) (key default : str) : str :=
  match List.find (fun kv => bool_decide (fst kv = key)) d with
  | Some kv => snd kv
  | None => default
  end.

(** The lines [f"{i}. {text}"] for [enumerate(texts, i)]. *)
Fixpoint numbered_lines (i : Z) (texts : list str) : list str :=
  match texts with
  | [] => []
  | t :: rest => (py_str i ++ u ". " ++ t) :: numbered_lines (i + 1) rest
  end.

(** The prompt is built from the source texts of the batch and of its two
    context windows. *)
Definition build_translation_prompt (batch : TranslationBatch str)
    (target_lang : str) : str :=
  let target_lang_name := dict_get lang_names target_lang target_lang in
  let prompt_parts :=
    [ [20320; 26159; 23560; 26989; 30340; 23383; 24149; 32763; 35695; 21729;
       12290; 35531; 23559; 20197; 19979; 23383; 24149; 32763; 35695; 25104]
        ++ target_lang_name ++ [12290];
      [20445; 25345; 21407; 24847; 65292; 35486; 21477; 36890; 38918; 33258;
       28982; 65292; 36969; 21512; 23383; 24149; 38321; 35712; 12290];
      [] ] in
  let prompt_parts :=
    match prev_context batch with
    | [] => prompt_parts
    | _ =>
        prompt_parts
          ++ [[12304; 21069; 25991; 21443; 32771; 65288; 19981; 38656; 32763;
               35695; 65289; 12305]]
          ++ ((fun t => u "- " ++ t) <$> prev_context batch)
          ++ [[]]
    end in
  let prompt_parts :=
    prompt_parts
      ++ [[12304; 38656; 35201; 32763; 35695; 30340; 20839; 23481; 12305]]
      ++ numbered_lines 1 (cues batch)
      ++ [[]] in
  let prompt_parts :=
    match next_context batch with
    | [] => prompt_parts
    | _ =>
        prompt_parts
          ++ [[12304; 24460; 25991; 21443; 32771; 65288; 19981; 38656; 32763;
               35695; 65289; 12305]]
          ++ ((fun t => u "- " ++ t) <$> next_context batch)
          ++ [[]]
    end in
  let prompt_parts :=
    prompt_parts
      ++ [ [12304; 36664; 20986; 26684; 24335; 12305];
           [35531; 21482; 36664; 20986; 32763; 35695; 32080; 26524; 65292;
            27599; 34892; 19968; 21477; 65292; 26684; 24335; 22914; 19979;
            65306];
           [49; 46; 32; 91; 32763; 35695; 32080; 26524; 49; 93];
           [50; 46; 32; 91; 32763; 35695; 32080; 26524; 50; 93];
           u "..." ] in
  join [NL] prompt_parts.

(** ** Response parser *)

(** [$] without MULTILINE: the end of the subject, or just before a
    newline that ends it. *)
Definition at_end (s : str) : bool :=
  match s with
  | [] => true
  | [c] => c =? NL
  | _ => false
  end.

(** [re.match(r"^\s*(\d+)\s*[.:\)]\s*(.+)$", s)]: the two groups. *)
Definition match_numbered (s : str) : option (str * str) :=
  re_star Py_UNICODE_ISSPACE s (fun _ s =>
  re_plus is_decimal s (fun g1 s =>
  re_star Py_UNICODE_ISSPACE s (fun _ s =>
  match s with
  | c :: s =>
      if (c =? 46) || (c =? 58) || (c =? 41) then
        re_star Py_UNICODE_ISSPACE s (fun _ s =>
        re_plus is_dot s (fun g2 s =>
        if at_end s then Some (g1, g2) else None))
      else None
  | [] => None
  end))).

(** [s.startswith(c)] and [s.endswith(c)] for one character [c]. *)
Definition startswith (c : Z) (s : str) : bool :=
  match s with
  | d :: _ => d =? c
  | [] => false
  end.

Definition endswith (c : Z) (s : str) : bool :=
  match last s with
  | Some d => d =? c
  | None => false
  end.

(** Remove surrounding quotes if present. *)
Definition unquote (text : str) : str :=
  if (startswith 34 text && endswith 34 text)
     || (startswith 39 text && endswith 39 text)
  then py_slice text 1 (-1)
  else text.

(** What a line contributes: its number and its text, when it matches. *)
Definition numbered_entry (line : str) : res (option (Z * str)) :=
  match match_numbered (strip line) with
  | None => Ok None
  | Some (g1, g2) =>
      num ← py_int g1;
      Ok (Some (num, unquote (strip g2)))
  end.

(** The list [translations] after storing [text] under the number [num]:
    placeholders are appended up to position [num - 1], then the text is
    appended or assigned. *)
Definition store (translations : list str) (num : Z) (text : str)
    : res (list str) :=
  let translations :=
    translations ++ replicate (Z.to_nat (num - 1 - len translations)) [] in
  if len translations <? num then Ok (translations ++ [text])
  else py_setitem translations (num - 1) text.

(** The loop over the lines of the response. *)
Fixpoint collect (translations : list str) (lines : list str)
    : res (list str) :=
  match lines with
  | [] => Ok translations
  | line :: rest =>
      entry ← numbered_entry line;
      match entry with
      | Some (num, text) =>
          translations ← store translations num text;
          collect translations rest
      | None => collect translations rest
      end
  end.

Definition parse_translation_response (response : str) (expected_count : Z)
    : res (list str) :=
  translations ← collect [] (split_on NL (strip response));
  (* Pad with empty strings if needed *)
  let translations :=
    translations
      ++ replicate (Z.to_nat (expected_count - len translations)) [] in
  Ok (py_slice_to translations expected_count).

(** ** Translation provider and retry loop *)

Inductive event :=
| Request (prompt : str)                   (* one call of the provider *)
| Sleep (seconds : Z)                      (* [time.sleep] *)
| RetryWarning (wait_time attempt : Z)     (* "Retrying in ...s" *)
| BatchError.                              (* "Failed to translate batch" *)

(** The world outside the program: what the provider answers to its n-th
    request, how many requests were made, and what happened so far. *)
Record world := {
  provider : nat -> str -> option str;
  calls : nat;
  log : list event
}.

Definition emit (e : event) (w : world) : world :=
  {| provider := provider w; calls := calls w; log := log w ++ [e] |}.

(** [translate_with_chatgpt]: the provider's text, or [None]. *)
Definition translate_with_chatgpt (prompt : str) (w : world)
    : option str * world :=
  (provider w (calls w) prompt,
   {| provider := provider w; calls := S (calls w);
      log := log w ++ [Request prompt] |}).

(** The delay before the attempt numbered [attempt] (from 1 on):
    [RETRY_BACKOFF[min(attempt - 1, len(RETRY_BACKOFF) - 1)]]. *)
Definition backoff_wait (attempt : Z) : res Z :=
  py_getitem RETRY_BACKOFF (Z.min (attempt - 1) (len RETRY_BACKOFF - 1)).

(** The iterations [attempt, attempt + 1, ...] of the retry loop, [n] of
    them, and what follows the loop. *)
Fixpoint retry_loop (n : nat) (attempt : Z) (prompt : str)
    (expected_count : Z) (w : world) : res (list str) * world :=
  match n with
  | O =>
      (* All retries failed *)
      (Ok (replicate (Z.to_nat expected_count) []), emit BatchError w)
  | S n' =>
      let waited :=
        if 0 <? attempt then
          wait_time ← backoff_wait attempt;
          Ok (emit (Sleep wait_time)
                (emit (RetryWarning wait_time (attempt + 1)) w))
        else Ok w in
      match waited with
      | Raise e => (Raise e, w)
      | Ok w =>
          let '(response, w) := translate_with_chatgpt prompt w in
          if truthy response then
            (parse_translation_response (default [] response) expected_count, w)
          else retry_loop n' (attempt + 1) prompt expected_count w
      end
  end.

(** ** The run: cue objects, batches over references, merge *)

(** The [Cue] objects live in a heap; the list [cues] of the run and the
    lists inside the batches hold references (positions in the heap) to the
    same objects, so that an assignment through a batch is seen through
    [cues]. *)
Abbreviation heap := (list Cue).

Definition text_at (h : heap) (r : nat) : str :=
  match h !! r with
  | Some c => text c
  | None => []
  end.

Definition texts_of (h : heap) (b : TranslationBatch nat) : TranslationBatch str :=
  {| cues := text_at h <$> cues b;
     prev_context := text_at h <$> prev_context b;
     next_context := text_at h <$> next_context b;
     start_index := start_index b;
     end_index := end_index b |}.

Definition translate_batch_with_retry (h : heap) (batch : TranslationBatch nat)
    (target_lang : str) (w : world) : res (list str) * world :=
  let prompt := build_translation_prompt (texts_of h batch) target_lang in
  let expected_count := len (cues batch) in
  retry_loop (Z.to_nat MAX_RETRIES) 0 prompt expected_count w.

Definition set_translated (v : str) (c : Cue) : Cue :=
  {| index := index c; start_time := start_time c; end_time := end_time c;
     text := text c; translated_text := Some v |}.

(** [cue.translated_text = cue.text] *)
Definition keep_original (c : Cue) : Cue := set_translated (text c) c.

(** The state of the loop over the batches. *)
Record run_state := {
  cue_heap : heap;
  failed_batches : Z;
  outside : world
}.

(** Apply translations to cues: the loop over [enumerate(translations, i)]. *)
Fixpoint apply_translations (batch : TranslationBatch nat) (i : Z)
    (translations : list str) (h : heap) (failed : Z) : res (heap * Z) :=
  match translations with
  | [] => Ok (h, failed)
  | translation :: rest =>
      r ← py_getitem (cues batch) i;
      match translation with
      | _ :: _ =>
          apply_translations batch (i + 1) rest
            (alter (set_translated translation) r h) failed
      | [] =>
          apply_translations batch (i + 1) rest
            (alter keep_original r h) (failed + 1)
      end
  end.

(** One iteration of the loop over the batches. *)
Definition translate_step (target_lang : str) (st : run_state)
    (batch : TranslationBatch nat) : res run_state :=
  let '(translations, w) :=
    translate_batch_with_retry (cue_heap st) batch target_lang (outside st) in
  translations ← translations;
  '(h, failed) ← apply_translations batch 0 translations (cue_heap st)
                    (failed_batches st);
  Ok {| cue_heap := h; failed_batches := failed;
        outside := emit (Sleep RATE_LIMIT_DELAY) w |}.

Fixpoint translate_loop (target_lang : str) (st : run_state)
    (batches : list (TranslationBatch nat)) : res run_state :=
  match batches with
  | [] => Ok st
  | batch :: rest =>
      st ← translate_step target_lang st batch;
      translate_loop target_lang st rest
  end.

(** What a completed run leaves: the output document and the counts of
    the summary. *)
Record outcome := {
  output_content : str;
  total_cues : Z;
  translated_count : Z;
  failed_count : Z;
  final_world : world
}.

Definition is_translated (c : Cue) : bool :=
  truthy (translated_text c)
  && negb (bool_decide (translated_text c = Some (text c))).

(** A code point that UTF-8 encodes: any but a surrogate. *)
Definition utf8_encodable (c : Z) : bool :=
  negb ((55296 <=? c) && (c <=? 57343)).

(** [path.write_text(data, encoding="utf-8")]: the number of characters
    written; the encoder raises on a surrogate. *)
Definition write_text (data : str) : res Z :=
  if forallb utf8_encodable data then Ok (len data)
  else Raise UnicodeEncodeError.

(** [translate], from the parsing of the input to the summary, through the
    writing of the output document.  [None] stands for the exit taken when
    no cue is found. *)
Definition translate (content target_lang : str) (batch_size context_size : Z)
    (w : world) : res (option outcome) :=
  let cues := parse_srt content in
  match cues with
  | [] => Ok None
  | _ =>
      batches ← create_batches (seq 0 (length cues)) batch_size context_size;
      st ← translate_loop target_lang
             {| cue_heap := cues; failed_batches := 0; outside := w |} batches;
      (* Generate output *)
      let output_content := generate_srt (cue_heap st) true in
      _ ← write_text output_content;
      (* Summary *)
      Ok (Some {| output_content := output_content;
                  total_cues := len (cue_heap st);
                  translated_count := len (filter (fun c => is_translated c = true) (cue_heap st));
                  failed_count := failed_batches st;
                  final_world := outside st |})
  end.

(** ** Vocabulary of the properties *)

(** A provider that never returns text: every request yields [None] or
    the empty string. *)
Definition provider_fails (w : world) : Prop :=
  forall n prompt, truthy (provider w n prompt) = false.

(** A string whose first, respectively last, character is not a space. *)
Abbreviation starts_clean s :=
  (exists c s', s = c :: s' /\ Py_UNICODE_ISSPACE c = false).
Abbreviation ends_clean s :=
  (exists s0 e, s = s0 ++ [e] /\ Py_UNICODE_ISSPACE e = false).

(** A cue that the generator writes and the parser reads back unchanged:
    times from 0 to below 100 hours, and a source text that is not empty,
    is its own [strip()], and has neither a carriage return nor a blank
    line (a match of [\n\s*\n]). *)
Definition roundtrip_cue (c : Cue) : Prop :=
  0 <= start_time c <= end_time c /\ end_time c < 360000000
  /\ text c <> [] /\ strip (text c) = text c
  /\ (CR ∉ text c) /\ find_blank (text c) = None.

(** The blocks of the document generated, with source texts, from cues
    numbered from [i] on, as they are once line endings are normalised. *)
Fixpoint generated_blocks (i : Z) (cues : list Cue) : list str :=
  match cues with
  | [] => []
  | c :: rest =>
      join [NL] [py_str i; timing_line c; text c]
        :: generated_blocks (i + 1) rest
  end.

(** The cues as the parser returns them for a generated document:
    numbered from [i] on, with the same times and source text, and no
    translation. *)
Fixpoint renumbered (i : Z) (cues : list Cue) : list Cue :=
  match cues with
  | [] => []
  | c :: rest =>
      {| index := i; start_time := start_time c; end_time := end_time c;
         text := text c; translated_text := None |}
        :: renumbered (i + 1) rest
  end.

(** Two cues that differ at most in their translation. *)
Definition same_source (c c' : Cue) : Prop :=
  index c' = index c /\ start_time c' = start_time c
  /\ end_time c' = end_time c /\ text c' = text c.

(** The cue after the merge of one received translation: the text
    received, or the source text when nothing was received. *)
Definition merged (translation : str) (c : Cue) : Cue :=
  match translation with
  | [] => keep_original c
  | _ :: _ => set_translated translation c
  end.

(** A text that a numbered line carries through the response parser
    unchanged: not empty, its own [strip()], on one line, and not wrapped
    in quotes. *)
Definition plain_text (t : str) : Prop :=
  t <> [] /\ strip t = t /\ (NL ∉ t) /\ unquote t = t.

(** The lines of a response on which the parser raises [IndexError]: the
    first line that matches carries the number 0. *)
Definition first_zero (lines : list str) : Prop :=
  exists pre line rest text,
    lines = pre ++ line :: rest
    /\ Forall (fun l => numbered_entry l = Ok None) pre
    /\ numbered_entry line = Ok (Some (0, text)).

(** A line whose number [int()] refuses: it matches, with more digits than
    the limit. *)
Definition over_limit (line : str) : Prop :=
  exists g1 g2,
    match_numbered (strip line) = Some (g1, g2) /\ int_max_str_digits < len g1.

(** A text without surrogate code points: what reading a file gives, and
    what [write_text] can encode. *)
Definition utf8_text (s : str) : Prop :=
  Forall (fun c => utf8_encodable c = true) s.


(** * Slices *)

Lemma len_nonneg {A} (l : list A) : 0 <= len l.
Proof. unfold len. lia. Qed.

Lemma py_slice_take_drop {A} (l : list A) (a b : Z) :
  0 <= a -> 0 <= b ->
  py_slice l a b = take (Z.to_nat (b - a)) (drop (Z.to_nat a) l).
Proof.
  intros Ha Hb. unfold py_slice, py_clamp, len.
  destruct (Z.ltb_spec a 0); [lia|]. destruct (Z.ltb_spec b 0); [lia|].
  destruct (Z_lt_le_dec a (Z.of_nat (length l))) as [Hlt|Hge].
  - rewrite (Z.min_l a) by lia.
    destruct (Z_le_gt_dec b (Z.of_nat (length l))).
    + rewrite (Z.min_l b) by lia. reflexivity.
    + rewrite (Z.min_r b) by lia.
      rewrite !take_ge; [reflexivity| |]; rewrite length_drop; lia.
  - rewrite (Z.min_r a) by lia.
    rewrite !drop_ge by lia. rewrite !take_nil. reflexivity.
Qed.

Lemma py_range_pos (stop step : Z) :
  0 < step ->
  py_range 0 stop step
  = Ok (map (fun k => Z.of_nat k * step)
          (seq 0 (Z.to_nat ((stop + step - 1) / step)))).
Proof.
  intros Hs. unfold py_range.
  destruct (Z.eqb_spec step 0); [lia|].
  destruct (Z.ltb_spec 0 step); [|lia].
  f_equal. replace (stop - 0 + step - 1) with (stop + step - 1) by lia.
  apply map_ext. intros k. lia.
Qed.

(** The number of batches: the ceiling of [n / b]. *)
Lemma chunk_count_spec (n b : nat) :
  (0 < b)%nat ->
  let m := Z.to_nat ((Z.of_nat n + Z.of_nat b - 1) / Z.of_nat b) in
  (n <= m * b)%nat /\ (forall k, (k < m)%nat -> (k * b < n)%nat).
Proof.
  intros Hb m.
  assert (Hq : 0 <= (Z.of_nat n + Z.of_nat b - 1) / Z.of_nat b).
  { apply Z.div_pos; lia. }
  pose proof (Z.div_mod (Z.of_nat n + Z.of_nat b - 1) (Z.of_nat b) ltac:(lia)) as Hdm.
  pose proof (Z.mod_pos_bound (Z.of_nat n + Z.of_nat b - 1) (Z.of_nat b) ltac:(lia)) as Hmod.
  assert (Hm : Z.of_nat m = (Z.of_nat n + Z.of_nat b - 1) / Z.of_nat b).
  { unfold m. lia. }
  split.
  - nia.
  - intros k Hk. nia.
Qed.

Lemma concat_chunks {A} (b : nat) :
  (0 < b)%nat ->
  forall (m : nat) (l : list A),
    (length l <= m * b)%nat ->
    concat (map (fun k => take b (drop (k * b) l)) (seq 0 m)) = l.
Proof.
  intros Hb m. induction m as [|m IH]; intros l Hl.
  - destruct l; [reflexivity | simpl in Hl; lia].
  - rewrite <- cons_seq, <- fmap_S_seq. simpl.
    transitivity (take b l ++ drop b l); [|apply take_drop].
    f_equal.
    etransitivity; [|apply (IH (drop b l)); rewrite length_drop; lia].
    f_equal. rewrite <- list_fmap_compose. apply list_fmap_ext.
    intros _ k _. simpl. rewrite drop_drop. do 2 f_equal; lia.
Qed.


Section Batches.
Context {A : Type}.
Implicit Types (cs : list A) (b : TranslationBatch A).

(** The planner's result, batch by batch. *)
Lemma create_batches_lookup cs (batch_size context_size : Z) :
  0 < batch_size ->
  exists bl,
    create_batches cs batch_size context_size = Ok bl
    /\ (length cs <= length bl * Z.to_nat batch_size)%nat
    /\ forall (k : nat) b, bl !! k = Some b ->
         b = batch_at cs batch_size context_size (Z.of_nat k * batch_size)
         /\ (k * Z.to_nat batch_size < length cs)%nat.
Proof.
  intros Hbs. unfold create_batches, len.
  rewrite py_range_pos by assumption. simpl.
  eexists. split; [reflexivity|].
  pose proof (chunk_count_spec (length cs) (Z.to_nat batch_size) ltac:(lia))
    as [Hcover Hin].
  rewrite Z2Nat.id in Hcover, Hin by lia.
  rewrite !length_map, length_seq. split; [exact Hcover|].
  intros k b Hk.
  rewrite <- list_fmap_compose in Hk.
  apply list_lookup_fmap_Some in Hk as (j & -> & Hj).
  apply lookup_seq in Hj as [-> Hlt]. simpl.
  split; [reflexivity | apply Hin; exact Hlt].
Qed.

Lemma batch_at_cues cs (batch_size context_size : Z) (k : nat) :
  0 < batch_size ->
  cues (batch_at cs batch_size context_size (Z.of_nat k * batch_size))
  = take (Z.to_nat batch_size) (drop (k * Z.to_nat batch_size) cs).
Proof.
  intros Hbs. simpl. rewrite py_slice_take_drop by nia.
  f_equal; [f_equal; lia | f_equal; nia].
Qed.

Lemma batch_at_prev cs (batch_size context_size : Z) (i : nat) :
  0 <= context_size ->
  prev_context (batch_at cs batch_size context_size (Z.of_nat i))
  = drop (i - Z.to_nat context_size) (take i cs).
Proof.
  intros Hc. simpl. rewrite py_slice_take_drop by lia.
  rewrite take_drop_commute. f_equal; [lia|]. f_equal. lia.
Qed.

Lemma batch_at_next cs (batch_size context_size : Z) (i : nat) :
  0 <= context_size -> 0 < batch_size ->
  next_context (batch_at cs batch_size context_size (Z.of_nat i))
  = take (Z.to_nat context_size) (drop (i + Z.to_nat batch_size) cs).
Proof.
  intros Hc Hb. simpl. pose proof (len_nonneg cs).
  rewrite py_slice_take_drop by lia.
  replace (Z.to_nat (Z.of_nat i + batch_size)) with (i + Z.to_nat batch_size)%nat by lia.
  unfold len.
  destruct (Z_le_gt_dec (Z.of_nat i + batch_size + context_size) (Z.of_nat (length cs))).
  - rewrite Z.min_r by lia. f_equal. lia.
  - rewrite Z.min_l by lia.
    rewrite !take_ge; [reflexivity| |]; rewrite length_drop; lia.
Qed.
End Batches.


Lemma take_take_length {A} (n : nat) (l : list A) :
  take (length (take n l)) l = take n l.
Proof.
  rewrite length_take. destruct (Nat.le_gt_cases n (length l)).
  - rewrite Nat.min_l by assumption. reflexivity.
  - rewrite Nat.min_r by lia. rewrite !take_ge by lia. reflexivity.
Qed.

(** C2: for a positive batch size the planner returns batches whose item
    slices are consecutive, pairwise disjoint ranges of positions of the cue
    list, whose concatenation in batch order is the cue list; a batch has
    between one and [batch_size] items and only the last may have fewer than
    [batch_size]; an empty cue list gives no batch. *)
Theorem create_batches_partition {A} (cs : list A) (batch_size context_size : Z) :
  0 < batch_size ->
  exists bl,
    create_batches cs batch_size context_size = Ok bl
    /\ concat (cues <$> bl) = cs
    /\ (forall (k : nat) b, bl !! k = Some b ->
          start_index b = Z.of_nat k * batch_size
          /\ end_index b = start_index b + len (cues b) - 1
          /\ cues b = py_slice cs (start_index b) (end_index b + 1)
          /\ 0 < len (cues b) <= batch_size
          /\ ((S k < length bl)%nat -> len (cues b) = batch_size))
    /\ (forall (j k : nat) bj bk,
          (j < k)%nat -> bl !! j = Some bj -> bl !! k = Some bk ->
          end_index bj < start_index bk)
    /\ (cs = [] -> bl = []).
Proof.
  intros Hbs.
  destruct (create_batches_lookup cs batch_size context_size Hbs)
    as (bl & Hbl & Hcover & Hat).
  exists bl. split; [exact Hbl|].
  set (b := Z.to_nat batch_size) in *.
  assert (Hcues : forall (k : nat) x, bl !! k = Some x ->
            cues x = take b (drop (k * b) cs) /\ (k * b < length cs)%nat
            /\ start_index x = Z.of_nat k * batch_size
            /\ end_index x = start_index x + len (cues x) - 1).
  { intros k x Hk. destruct (Hat k x Hk) as [-> Hlt].
    split; [apply batch_at_cues; assumption|].
    split; [exact Hlt|]. split; reflexivity. }
  assert (Hlen : forall (k : nat) x, bl !! k = Some x ->
            0 < len (cues x) <= batch_size).
  { intros k x Hk. destruct (Hcues k x Hk) as (-> & Hlt & _).
    unfold len. rewrite length_take, length_drop. lia. }
  split; [|split; [|split]].
  - (* the slices, concatenated, give the cue list back *)
    transitivity (concat ((fun k => take b (drop (k * b) cs)) <$> seq 0 (length bl))).
    + f_equal. apply list_eq. intros k.
      rewrite !list_lookup_fmap.
      destruct (bl !! k) as [x|] eqn:Hk; simpl.
      * rewrite lookup_seq_lt by (eapply lookup_lt_Some; eassumption).
        simpl. f_equal. apply (Hcues k x Hk).
      * rewrite lookup_seq_ge by (apply lookup_ge_None; assumption).
        reflexivity.
    + apply concat_chunks; [lia | assumption].
  - intros k x Hk. destruct (Hcues k x Hk) as (Hc & Hlt & Hs & He).
    pose proof (Hlen k x Hk) as Hl.
    repeat split; try assumption; try lia.
    + rewrite He, Hs. rewrite py_slice_take_drop by lia.
      rewrite Hc at 1. unfold len. rewrite Hc.
      replace (Z.to_nat (Z.of_nat k * batch_size)) with (k * b)%nat by lia.
      symmetry. etransitivity; [|apply take_take_length]. f_equal. lia.
    + intros Hnext.
      destruct (lookup_lt_is_Some_2 bl (S k) Hnext) as [y Hy].
      destruct (Hcues (S k) y Hy) as (_ & Hlt' & _).
      unfold len. rewrite Hc, length_take, length_drop. lia.
  - intros j k bj bk Hjk Hj Hk.
    destruct (Hcues j bj Hj) as (_ & _ & Hsj & Hej).
    destruct (Hcues k bk Hk) as (_ & _ & Hsk & _).
    pose proof (Hlen j bj Hj). nia.
  - intros ->. destruct bl as [|x bl]; [reflexivity|].
    destruct (Hcues 0%nat x eq_refl) as (_ & Hlt & _). simpl in Hlt. lia.
Qed.

Lemma create_batches_partition_witness :
  exists bl, create_batches [1; 2; 3; 4; 5] 2 2 = Ok bl
             /\ concat (cues <$> bl) = [1; 2; 3; 4; 5].
Proof.
  destruct (create_batches_partition [1; 2; 3; 4; 5] 2 2 ltac:(lia))
    as (bl & Hbl & Hcat & _).
  exists bl. split; assumption.
Defined.


Lemma drop_take_length {A} (n : nat) (l : list A) :
  drop (length (take n l)) l = drop n l.
Proof.
  rewrite length_take. destruct (Nat.le_gt_cases n (length l)).
  - rewrite Nat.min_l by assumption. reflexivity.
  - rewrite Nat.min_r by lia. rewrite !drop_ge by lia. reflexivity.
Qed.

(** The context windows of the batch found at position [k] of the plan. *)
Lemma create_batches_windows {A} (cs : list A) (batch_size context_size : Z) bl :
  0 < batch_size -> 0 < context_size ->
  create_batches cs batch_size context_size = Ok bl ->
  forall (k : nat) b, bl !! k = Some b ->
    exists before after,
      cs = before ++ cues b ++ after
      /\ len before = start_index b
      /\ start_index b = Z.of_nat k * batch_size
      /\ prev_context b = drop (length before - Z.to_nat context_size) before
      /\ next_context b = take (Z.to_nat context_size) after.
Proof.
  intros Hbs Hctx Hbl k b Hk.
  destruct (create_batches_lookup cs batch_size context_size Hbs)
    as (bl' & Hbl' & _ & Hat).
  rewrite Hbl in Hbl'. injection Hbl' as <-.
  destruct (Hat k b Hk) as [Hb Hlt].
  set (n := Z.to_nat batch_size) in *.
  assert (Hi : Z.of_nat k * batch_size = Z.of_nat (k * n)) by lia.
  assert (Hc : cues b = take n (drop (k * n) cs)).
  { rewrite Hb. apply batch_at_cues. assumption. }
  exists (take (k * n) cs), (drop n (drop (k * n) cs)).
  split; [|split; [|split; [|split]]].
  - rewrite Hc, take_drop, take_drop. reflexivity.
  - rewrite Hb. simpl. unfold len. rewrite length_take. lia.
  - rewrite Hb. reflexivity.
  - rewrite Hb, Hi, batch_at_prev by lia.
    rewrite length_take. f_equal. lia.
  - rewrite Hb, Hi, batch_at_next by lia.
    rewrite drop_drop. reflexivity.
Qed.

(** C7: with positive sizes, the leading context of a batch is the last
    [context_size] cues (fewer near the start, none for the first batch)
    of the cues before the batch's first item, and the trailing context is
    the first [context_size] cues (fewer near the end) of the cues after the
    batch's last item; neither window holds a cue of the batch itself.  In
    particular for a sequence of five cues and a context size of 2, the
    first batch has no leading context and at most two trailing context
    cues, all taken from the cues after the batch. *)
Theorem create_batches_context {A} (cs : list A) (batch_size context_size : Z) bl :
  0 < batch_size -> 0 < context_size ->
  create_batches cs batch_size context_size = Ok bl ->
  (forall (k : nat) b, bl !! k = Some b ->
     exists before after,
       cs = before ++ cues b ++ after
       /\ len before = start_index b
       /\ prev_context b = drop (length before - Z.to_nat context_size) before
       /\ next_context b = take (Z.to_nat context_size) after
       /\ len (prev_context b) <= context_size
       /\ len (next_context b) <= context_size
       /\ (k = 0%nat -> prev_context b = [])
       /\ (NoDup cs ->
           forall x, x ∈ prev_context b ++ next_context b -> x ∉ cues b))
  /\ (length cs = 5%nat -> context_size = 2 ->
      forall b, bl !! 0%nat = Some b ->
        prev_context b = []
        /\ len (next_context b) <= 2
        /\ exists after, cs = cues b ++ after /\ next_context b = take 2 after).
Proof.
  intros Hbs Hctx Hbl.
  assert (Hgen : forall (k : nat) b, bl !! k = Some b ->
     exists before after,
       cs = before ++ cues b ++ after
       /\ len before = start_index b
       /\ prev_context b = drop (length before - Z.to_nat context_size) before
       /\ next_context b = take (Z.to_nat context_size) after
       /\ len (prev_context b) <= context_size
       /\ len (next_context b) <= context_size
       /\ (k = 0%nat -> prev_context b = [])
       /\ (NoDup cs ->
           forall x, x ∈ prev_context b ++ next_context b -> x ∉ cues b)).
  { intros k b Hk.
    destruct (create_batches_windows cs batch_size context_size bl Hbs Hctx Hbl k b Hk)
      as (before & after & Hcs & Hlen & Hstart & Hprev & Hnext).
    exists before, after. repeat split; try assumption.
    - rewrite Hprev. unfold len. rewrite length_drop. lia.
    - rewrite Hnext. unfold len. rewrite length_take. lia.
    - intros ->. unfold len in Hlen.
      destruct before; [rewrite Hprev; reflexivity | simpl in Hlen; lia].
    - intros Hnd x Hx Hin. rewrite Hcs in Hnd.
      apply NoDup_app in Hnd as (_ & Hba & Hnd).
      apply NoDup_app in Hnd as (_ & Hca & _).
      apply elem_of_app in Hx as [Hx|Hx].
      + rewrite Hprev in Hx. apply subseteq_drop in Hx.
        apply (Hba x Hx). apply elem_of_app. left. exact Hin.
      + rewrite Hnext in Hx. apply subseteq_take in Hx.
        apply (Hca x Hin Hx). }
  split; [exact Hgen|].
  intros _ -> b Hb.
  destruct (Hgen 0%nat b Hb)
    as (before & after & Hcs & Hlen & Hprev & Hnext & _ & Hn2 & Hfirst & _).
  split; [apply Hfirst; reflexivity|]. split; [exact Hn2|].
  exists after. split; [|exact Hnext].
  destruct (create_batches_windows cs batch_size 2 bl Hbs Hctx Hbl 0%nat b Hb)
    as (before' & after' & Hcs' & Hlen' & Hstart' & _).
  assert (before = []) as ->.
  { destruct (create_batches_lookup cs batch_size 2 Hbs) as (bl' & Hbl' & _ & Hat).
    rewrite Hbl in Hbl'. injection Hbl' as <-.
    destruct (Hat 0%nat b Hb) as [Hb0 _].
    rewrite Hb0 in Hlen. simpl in Hlen. unfold len in Hlen.
    destruct before; [reflexivity | simpl in Hlen; lia]. }
  exact Hcs.
Qed.

Lemma create_batches_context_witness :
  prev_context (batch_at [1; 2; 3; 4; 5] 2 2 0) = []
  /\ len (next_context (batch_at [1; 2; 3; 4; 5] 2 2 0)) <= 2
  /\ exists after,
       [1; 2; 3; 4; 5] = cues (batch_at [1; 2; 3; 4; 5] 2 2 0) ++ after
       /\ next_context (batch_at [1; 2; 3; 4; 5] 2 2 0) = take 2 after.
Proof.
  exact (proj2 (create_batches_context [1; 2; 3; 4; 5] 2 2 _
                  ltac:(lia) ltac:(lia) eq_refl) eq_refl eq_refl
           (batch_at [1; 2; 3; 4; 5] 2 2 0) eq_refl).
Defined.


(** * Character classes *)

Lemma is_space_spec (c : Z) :
  Py_UNICODE_ISSPACE c = true <->
  9 <= c <= 13 \/ 28 <= c <= 32 \/ c = 133 \/ c = 160 \/ c = 5760
  \/ 8192 <= c <= 8202 \/ c = 8232 \/ c = 8233 \/ c = 8239 \/ c = 8287
  \/ c = 12288.
Proof.
  unfold Py_UNICODE_ISSPACE.
  rewrite !orb_true_iff, !andb_true_iff, !Z.leb_le, !Z.eqb_eq. lia.
Qed.

Lemma not_space_spec (c : Z) :
  Py_UNICODE_ISSPACE c = false <->
  ~ (9 <= c <= 13 \/ 28 <= c <= 32 \/ c = 133 \/ c = 160 \/ c = 5760
     \/ 8192 <= c <= 8202 \/ c = 8232 \/ c = 8233 \/ c = 8239 \/ c = 8287
     \/ c = 12288).
Proof.
  rewrite <- is_space_spec. destruct (Py_UNICODE_ISSPACE c); split; congruence.
Qed.

Lemma decimal_bounds (c d : Z) :
  Py_UNICODE_TODECIMAL c = Some d -> 0 <= d < 10.
Proof.
  unfold Py_UNICODE_TODECIMAL.
  destruct (List.find _ decimal_zeros) as [z|] eqn:Hf; [|discriminate].
  intros [= <-]. apply List.find_some in Hf as [_ Hz].
  apply andb_true_iff in Hz as [H1 H2].
  apply Z.leb_le in H1. apply Z.ltb_lt in H2. lia.
Qed.

Lemma decimal_ascii (d : Z) :
  0 <= d < 10 -> Py_UNICODE_TODECIMAL (48 + d) = Some d.
Proof.
  intros Hd. unfold Py_UNICODE_TODECIMAL, decimal_zeros. cbn [List.find].
  replace ((48 <=? 48 + d) && (48 + d <? 48 + 10)) with true.
  - f_equal. lia.
  - symmetry. apply andb_true_iff.
    split; [apply Z.leb_le | apply Z.ltb_lt]; lia.
Qed.

Lemma is_decimal_ascii (d : Z) : 0 <= d < 10 -> is_decimal (48 + d) = true.
Proof. intros Hd. unfold is_decimal. rewrite decimal_ascii by assumption. reflexivity. Qed.

(** * Regular expression combinators: what a successful match tells *)

Section RegexInversion.
Context {R : Type}.
Implicit Types (k : str -> str -> option R) (x : R).

Lemma re_star_inv p s k x :
  re_star p s k = Some x ->
  exists m r, s = m ++ r /\ Forall (fun c => p c = true) m /\ k m r = Some x.
Proof.
  revert k. induction s as [|c s IH]; intros k H; simpl in H.
  - exists [], []. auto.
  - destruct (p c) eqn:Hp.
    + destruct (re_star p s (fun m r => k (c :: m) r)) as [y|] eqn:Hs.
      * injection H as <-. apply IH in Hs as (m & r & -> & Hm & Hk).
        exists (c :: m), r. auto.
      * exists [], (c :: s). auto.
    + exists [], (c :: s). auto.
Qed.

Lemma re_plus_inv p s k x :
  re_plus p s k = Some x ->
  exists m r, s = m ++ r /\ m <> [] /\ Forall (fun c => p c = true) m
              /\ k m r = Some x.
Proof.
  destruct s as [|c s]; simpl; [discriminate|].
  destruct (p c) eqn:Hp; [|discriminate].
  intros H. apply re_star_inv in H as (m & r & -> & Hm & Hk).
  exists (c :: m), r. auto.
Qed.

Lemma re_plus_lazy_inv p s k x :
  re_plus_lazy p s k = Some x ->
  exists m r, s = m ++ r /\ m <> [] /\ Forall (fun c => p c = true) m
              /\ k m r = Some x.
Proof.
  revert k. induction s as [|c s IH]; intros k H; simpl in H; [discriminate|].
  destruct (p c) eqn:Hp; [|discriminate].
  destruct (k [c] s) as [y|] eqn:Hk.
  - injection H as <-. exists [c], s. auto.
  - apply IH in H as (m & r & -> & Hne & Hm & Hk').
    exists (c :: m), r. auto.
Qed.

Lemma re_count_inv n p s k x :
  re_count n p s k = Some x ->
  exists m r, s = m ++ r /\ length m = n /\ Forall (fun c => p c = true) m
              /\ k m r = Some x.
Proof.
  revert s k. induction n as [|n IH]; intros s k H; simpl in H.
  - exists [], s. auto.
  - destruct s as [|c s]; [discriminate|].
    destruct (p c) eqn:Hp; [|discriminate].
    apply IH in H as (m & r & -> & Hl & Hm & Hk).
    exists (c :: m), r. simpl. auto.
Qed.

Lemma re_lit_inv lit s (k : str -> option R) x :
  re_lit lit s k = Some x -> exists r, s = lit ++ r /\ k r = Some x.
Proof.
  revert s. induction lit as [|a lit IH]; intros s H; simpl in H.
  - exists s. auto.
  - destruct s as [|c s]; [discriminate|].
    destruct (Z.eqb_spec c a) as [->|]; [|discriminate].
    apply IH in H as (r & -> & Hk). exists r. auto.
Qed.
End RegexInversion.

(** * [int()] on a group of digits *)

Lemma int_digits_decimal (g : str) :
  Forall (fun c => is_decimal c = true) g ->
  forall acc prev, 0 <= acc -> (g <> [] \/ prev = true) ->
    exists v, int_digits acc prev g = Some v /\ 0 <= v.
Proof.
  induction 1 as [|c g Hc Hg IH]; intros acc prev Hacc Hne; simpl.
  - destruct Hne as [Hne| ->]; [congruence|]. eauto.
  - unfold is_decimal in Hc.
    destruct (Py_UNICODE_TODECIMAL c) as [d|] eqn:Hd; [|discriminate].
    apply decimal_bounds in Hd. apply IH; [lia | auto].
Qed.

Lemma count_digits_decimal (g : str) :
  Forall (fun c => is_decimal c = true) g -> count_digits g = len g.
Proof.
  induction 1 as [|c g Hc _ IH]; [reflexivity|].
  cbn [count_digits]. rewrite Hc, IH. unfold len. cbn [length]. lia.
Qed.

Lemma count_digits_bounds (s : str) : 0 <= count_digits s <= len s.
Proof.
  induction s as [|c s IH]; unfold len in *; cbn [count_digits length]; [lia|].
  destruct (is_decimal c); lia.
Qed.

Lemma limit_short (s : str) :
  len s <= int_max_str_digits -> (int_max_str_digits <? count_digits s) = false.
Proof.
  intros Hs. pose proof (count_digits_bounds s).
  destruct (Z.ltb_spec int_max_str_digits (count_digits s)); [lia | reflexivity].
Qed.

Lemma py_int_raises (s : str) (e : exn) : py_int s = Raise e -> e = ValueError.
Proof.
  unfold py_int. destruct (match s with [] => _ | _ => _ end).
  - destruct (_ <? _); [|discriminate]. intros [= <-]. reflexivity.
  - intros [= <-]. reflexivity.
Qed.

Lemma py_int_ok_limit (s : str) (v : Z) :
  py_int s = Ok v -> count_digits s <= int_max_str_digits.
Proof.
  unfold py_int. destruct (match s with [] => _ | _ => _ end); [|discriminate].
  destruct (Z.ltb_spec int_max_str_digits (count_digits s)); [discriminate | lia].
Qed.

(** [int()] on a group matched by [\d+]: its value, unless the group is
    longer than the limit. *)
Lemma py_int_decimal_limit (g : str) :
  Forall (fun c => is_decimal c = true) g -> g <> [] ->
  exists v, 0 <= v
    /\ py_int g = if int_max_str_digits <? len g then Raise ValueError else Ok v.
Proof.
  intros Hg Hne. unfold py_int. rewrite (count_digits_decimal g Hg).
  destruct g as [|c g]; [congruence|].
  assert (Hc : is_decimal c = true) by (inversion Hg; assumption).
  destruct (Z.eqb_spec c 43) as [->|_]; [discriminate Hc|].
  destruct (Z.eqb_spec c 45) as [->|_]; [discriminate Hc|].
  destruct (int_digits_decimal (c :: g) Hg 0 false ltac:(lia) ltac:(left; congruence))
    as (v & -> & Hv).
  exists v. split; [exact Hv | reflexivity].
Qed.

Lemma py_int_decimal (g : str) :
  Forall (fun c => is_decimal c = true) g -> g <> [] ->
  len g <= int_max_str_digits ->
  exists v, py_int g = Ok v /\ 0 <= v.
Proof.
  intros Hg Hne Hlen.
  destruct (py_int_decimal_limit g Hg Hne) as (v & Hv & Hint).
  destruct (Z.ltb_spec int_max_str_digits (len g)); [lia|]. eauto.
Qed.


(** * Response parser *)

Lemma match_numbered_inv (s g1 g2 : str) :
  match_numbered s = Some (g1, g2) ->
  g1 <> [] /\ Forall (fun c => is_decimal c = true) g1 /\ g2 <> [].
Proof.
  unfold match_numbered. intros H.
  apply re_star_inv in H as (_ & s1 & _ & _ & H).
  apply re_plus_inv in H as (m1 & s2 & _ & Hne & Hdec & H).
  apply re_star_inv in H as (_ & s3 & _ & _ & H).
  destruct s3 as [|c s3]; [discriminate|].
  destruct ((c =? 46) || (c =? 58) || (c =? 41)); [|discriminate].
  apply re_star_inv in H as (_ & s4 & _ & _ & H).
  apply re_plus_inv in H as (m2 & s5 & _ & Hne2 & _ & H).
  destruct (at_end s5); [|discriminate].
  injection H as <- <-. auto.
Qed.

(** What a line gives: nothing, an entry whose number is not negative, or
    a [ValueError] when its number has more digits than [int()] takes. *)
Lemma numbered_entry_cases (line : str) :
  numbered_entry line = Ok None
  \/ (exists num text, numbered_entry line = Ok (Some (num, text)) /\ 0 <= num)
  \/ (numbered_entry line = Raise ValueError /\ over_limit line).
Proof.
  unfold numbered_entry.
  destruct (match_numbered (strip line)) as [[g1 g2]|] eqn:Hm; [|left; reflexivity].
  right. pose proof Hm as Hinv.
  apply match_numbered_inv in Hinv as (Hne & Hdec & _).
  destruct (py_int_decimal_limit g1 Hdec Hne) as (v & Hv & ->).
  destruct (Z.ltb_spec int_max_str_digits (len g1)) as [Hlong|Hshort].
  - right. split; [reflexivity|]. exists g1, g2. auto.
  - left. simpl. eauto.
Qed.

Lemma over_limit_raises (line : str) :
  over_limit line <-> numbered_entry line = Raise ValueError.
Proof.
  split.
  - intros (g1 & g2 & Hm & Hlong). unfold numbered_entry. rewrite Hm.
    pose proof Hm as Hinv. apply match_numbered_inv in Hinv as (Hne & Hdec & _).
    destruct (py_int_decimal_limit g1 Hdec Hne) as (v & Hv & ->).
    destruct (Z.ltb_spec int_max_str_digits (len g1)); [reflexivity | lia].
  - intros He. destruct (numbered_entry_cases line) as [H|[(num & text & H & _)|[_ H]]];
      [congruence | congruence | exact H].
Qed.

Lemma numbered_entry_raises (line : str) (e : exn) :
  numbered_entry line = Raise e -> e = ValueError.
Proof.
  intros He. destruct (numbered_entry_cases line) as [H|[(num & text & H & _)|[H _]]];
    congruence.
Qed.

Lemma len_app {A} (l k : list A) : len (l ++ k) = len l + len k.
Proof. unfold len. rewrite length_app. lia. Qed.

Lemma len_replicate {A} (n : nat) (x : A) : len (replicate n x) = Z.of_nat n.
Proof. unfold len. rewrite length_replicate. reflexivity. Qed.

(** Storing under a number from 1 on: the list is extended with
    placeholders up to that number and the text written at its position. *)
Lemma store_pos (t : list str) (num : Z) (text : str) :
  1 <= num ->
  store t num text
  = Ok (<[Z.to_nat (num - 1) := text]>
          (t ++ replicate (Z.to_nat (num - len t)) [])).
Proof.
  intros Hnum. unfold store. pose proof (len_nonneg t) as Ht.
  rewrite len_app, len_replicate.
  destruct (Z.ltb_spec (len t + Z.of_nat (Z.to_nat (num - 1 - len t))) num) as [Hlt|Hge].
  - f_equal.
    replace (Z.to_nat (num - len t)) with (S (Z.to_nat (num - 1 - len t))) by lia.
    rewrite replicate_S_end, app_assoc.
    set (t1 := t ++ replicate _ _).
    assert (Hl : length t1 = Z.to_nat (num - 1)).
    { unfold t1. rewrite length_app, length_replicate. unfold len in *. lia. }
    rewrite <- Hl.
    replace (length t1) with (length t1 + 0)%nat by lia.
    rewrite insert_app_r. reflexivity.
  - replace (Z.to_nat (num - 1 - len t)) with 0%nat by lia.
    replace (Z.to_nat (num - len t)) with 0%nat by lia.
    simpl. rewrite app_nil_r. unfold py_setitem.
    destruct (Z.ltb_spec (num - 1) 0); [lia|].
    destruct (Z.leb_spec 0 (num - 1)); [|lia].
    destruct (Z.ltb_spec (num - 1) (len t)); [|lia]. reflexivity.
Qed.

Lemma store_pos_length (t t' : list str) (num : Z) (text : str) :
  1 <= num -> store t num text = Ok t' ->
  len t' = Z.max (len t) num /\ t' !! Z.to_nat (num - 1) = Some text.
Proof.
  intros Hnum. rewrite store_pos by assumption. intros [= <-].
  pose proof (len_nonneg t) as Ht. split.
  - unfold len in *. rewrite length_insert, length_app, length_replicate. lia.
  - apply list_lookup_insert_eq.
    rewrite length_app, length_replicate. unfold len in *. lia.
Qed.

(** Storing under the number 0 assigns at position [-1]. *)
Lemma store_zero_empty (text : str) : store [] 0 text = Raise IndexError.
Proof. reflexivity. Qed.

Lemma collect_ok (lines : list str) :
  (forall line, line ∈ lines -> ~ over_limit line) ->
  (forall line num text,
      line ∈ lines -> numbered_entry line = Ok (Some (num, text)) -> 1 <= num) ->
  forall t, exists t', collect t lines = Ok t'.
Proof.
  induction lines as [|line lines IH]; intros Hlim Hpos t; simpl.
  - eauto.
  - assert (Hrest : forall l num text, l ∈ lines ->
              numbered_entry l = Ok (Some (num, text)) -> 1 <= num).
    { intros l num text Hl. apply Hpos. right. exact Hl. }
    assert (Hlim' : forall l, l ∈ lines -> ~ over_limit l).
    { intros l Hl. apply Hlim. right. exact Hl. }
    destruct (numbered_entry_cases line) as [->|[(num & text & He & _)|[_ Hover]]]; simpl.
    + apply IH; assumption.
    + rewrite He. simpl.
      rewrite store_pos by (eapply Hpos; [left|exact He]). simpl.
      apply IH; assumption.
    + exfalso. apply (Hlim line); [left | exact Hover].
Qed.

Lemma fit_length (t : list str) (n : Z) :
  0 <= n ->
  len (py_slice_to (t ++ replicate (Z.to_nat (n - len t)) []) n) = n.
Proof.
  intros Hn. unfold py_slice_to, py_clamp. pose proof (len_nonneg t) as Ht.
  destruct (Z.ltb_spec n 0); [lia|].
  rewrite len_app, len_replicate. unfold len in *.
  rewrite length_take, length_app, length_replicate. lia.
Qed.

Lemma collect_first_zero (pre rest : list str) (line text : str) :
  Forall (fun l => numbered_entry l = Ok None) pre ->
  numbered_entry line = Ok (Some (0, text)) ->
  collect [] (pre ++ line :: rest) = Raise IndexError.
Proof.
  induction 1 as [|l pre Hl _ IH]; intros He; simpl.
  - rewrite He. reflexivity.
  - rewrite Hl. simpl. apply IH. exact He.
Qed.

(** C3, at the input on which the code departs from it: the response
    ["0. hello"] with one expected translation makes the parser raise
    IndexError instead of returning a list of one string. *)
Theorem parse_translation_response_zero_line :
  parse_translation_response (u "0. hello") 1 = Raise IndexError.
Proof. reflexivity. Qed.

(** The example of C3 that the code does satisfy. *)
Example parse_translation_response_gap :
  parse_translation_response (u "1. foo" ++ [NL] ++ u "3. bar") 3
  = Ok [u "foo"; []; u "bar"].
Proof. reflexivity. Qed.

Lemma unquote_pair (q : Z) (mid : str) :
  q = 34 \/ q = 39 -> unquote (q :: mid ++ [q]) = mid.
Proof.
  intros Hq. unfold unquote, startswith, endswith.
  assert (Hlast : last (q :: mid ++ [q]) = Some q).
  { rewrite app_comm_cons. apply last_snoc. }
  rewrite Hlast.
  assert (Hsl : py_slice (q :: mid ++ [q]) 1 (-1) = mid).
  { unfold py_slice, py_clamp, len. simpl length.
    rewrite length_app. simpl length.
    destruct (Z.ltb_spec 1 0); [lia|]. destruct (Z.ltb_spec (-1) 0); [|lia].
    rewrite Z.min_l by lia. rewrite Z.max_l by lia. simpl drop.
    replace (Z.to_nat _) with (length mid) by lia.
    apply take_app_length. }
  rewrite Hsl. destruct Hq as [-> | ->]; reflexivity.
Qed.

(** C8: a captured text wrapped in a pair of double quotes or of single
    quotes is stored without that pair: the entry of the line carries the
    inner text, and is what the list holds at the line's position after the
    line is processed; the line [2. "hello"] yields [hello]. *)
Theorem parse_translation_response_unquotes :
  (forall line g1 g2 num q mid,
      match_numbered (strip line) = Some (g1, g2) ->
      py_int g1 = Ok num ->
      strip g2 = q :: mid ++ [q] ->
      q = 34 \/ q = 39 ->
      numbered_entry line = Ok (Some (num, mid))
      /\ (1 <= num ->
          forall t rest, exists t',
            store t num mid = Ok t'
            /\ t' !! Z.to_nat (num - 1) = Some mid
            /\ collect t (line :: rest) = collect t' rest))
  /\ numbered_entry (u "2. " ++ [34] ++ u "hello" ++ [34]) = Ok (Some (2, u "hello"))
  /\ parse_translation_response (u "2. " ++ [34] ++ u "hello" ++ [34]) 2
     = Ok [[]; u "hello"].
Proof.
  split; [|split; reflexivity].
  intros line g1 g2 num q mid Hm Hint Hg2 Hq.
  assert (He : numbered_entry line = Ok (Some (num, mid))).
  { unfold numbered_entry. rewrite Hm, Hint. simpl.
    rewrite Hg2, unquote_pair by assumption. reflexivity. }
  split; [exact He|].
  intros Hnum t rest.
  destruct (store t num mid) as [t'|e] eqn:Hs.
  - exists t'. split; [reflexivity|].
    split; [apply (store_pos_length t t' num mid Hnum Hs)|].
    simpl. rewrite He. simpl. rewrite Hs. reflexivity.
  - rewrite store_pos in Hs by assumption. discriminate.
Qed.

Lemma parse_translation_response_unquotes_witness :
  numbered_entry (u "2. 'hello'") = Ok (Some (2, u "hello")).
Proof.
  exact (proj1 (proj1 parse_translation_response_unquotes
                  (u "2. 'hello'") (u "2") (u "'hello'") 2 39 (u "hello")
                  eq_refl eq_refl eq_refl (or_intror eq_refl))).
Defined.

(** ** When the parser raises *)

Lemma first_zero_nil : ~ first_zero [].
Proof. intros (pre & line & rest & text & H & _). destruct pre; discriminate. Qed.

Lemma first_zero_skip (line : str) (lines : list str) :
  numbered_entry line = Ok None ->
  first_zero (line :: lines) <-> first_zero lines.
Proof.
  intros Hnone. split.
  - intros (pre & l & rest & text & Heq & Hpre & He).
    destruct pre as [|p pre]; cbn [app] in Heq; injection Heq as <- ->.
    + congruence.
    + exists pre, l, rest, text. inversion Hpre; auto.
  - intros (pre & l & rest & text & -> & Hpre & He).
    exists (line :: pre), l, rest, text. auto.
Qed.

Lemma first_zero_head (line : str) (lines : list str) (num : Z) (text : str) :
  numbered_entry line = Ok (Some (num, text)) ->
  first_zero (line :: lines) <-> num = 0.
Proof.
  intros He. split.
  - intros (pre & l & rest & text' & Heq & Hpre & He').
    destruct pre as [|p pre]; cbn [app] in Heq; injection Heq as <- ->.
    + congruence.
    + inversion Hpre; congruence.
  - intros ->. exists [], line, lines, text. auto.
Qed.

Lemma first_zero_head_raise (line : str) (lines : list str) (e : exn) :
  numbered_entry line = Raise e -> ~ first_zero (line :: lines).
Proof.
  intros He (pre & l & rest & text & Heq & Hpre & He').
  destruct pre as [|p pre]; cbn [app] in Heq; injection Heq as <- ->.
  - congruence.
  - inversion Hpre; congruence.
Qed.

(** Storing under the number 0 in a list that is not empty overwrites
    its last entry. *)
Lemma store_zero_last (t : list str) (text : str) :
  t <> [] ->
  store t 0 text = Ok (<[pred (length t) := text]> t).
Proof.
  intros Ht. unfold store. pose proof (len_nonneg t) as Hl.
  replace (Z.to_nat (0 - 1 - len t)) with 0%nat by lia.
  cbn [replicate]. rewrite app_nil_r.
  destruct (Z.ltb_spec (len t) 0); [lia|].
  unfold py_setitem. change (0 - 1 <? 0) with true. cbv iota.
  assert (Hpos : 0 < len t) by (destruct t; [congruence | unfold len; simpl; lia]).
  destruct (Z.leb_spec 0 (0 - 1 + len t)); [|lia].
  destruct (Z.ltb_spec (0 - 1 + len t) (len t)); [|lia].
  cbn [andb]. f_equal. f_equal. unfold len. lia.
Qed.

Lemma store_nonempty (t t' : list str) (num : Z) (text : str) :
  0 <= num -> store t num text = Ok t' -> t' <> [].
Proof.
  intros Hnum Hs. destruct (Z.eq_dec num 0) as [->|Hne].
  - destruct t as [|x t]; [discriminate Hs|].
    rewrite store_zero_last in Hs by discriminate. injection Hs as <-.
    intros H. apply (f_equal length) in H. rewrite length_insert in H. discriminate H.
  - apply store_pos_length in Hs as [Hlen _]; [|lia].
    intros ->. unfold len in Hlen. simpl in Hlen. pose proof (len_nonneg t). lia.
Qed.

(** The outcome of the loop over the lines, from a list [t] built so
    far. *)
Lemma collect_outcome (lines : list str) :
  forall t,
    match collect t lines with
    | Ok _ =>
        (forall line, line ∈ lines -> ~ over_limit line)
        /\ (t = [] -> ~ first_zero lines)
    | Raise IndexError => t = [] /\ first_zero lines
    | Raise ValueError =>
        (t = [] -> ~ first_zero lines)
        /\ exists line, line ∈ lines /\ over_limit line
    | Raise UnicodeEncodeError => False
    end.
Proof.
  induction lines as [|line lines IH]; intros t.
  - cbn [collect]. split; [intros line H; inversion H | intros _; apply first_zero_nil].
  - cbn [collect].
    destruct (numbered_entry_cases line) as [He|[(num & text & He & Hnum)|[He Hover]]];
      rewrite He; cbn [mbind res_bind].
    + (* the line does not match *)
      specialize (IH t).
      destruct (collect t lines) as [t'|[| |]].
      * destruct IH as [Hlim Hfz]. split.
        -- intros l Hl. apply elem_of_cons in Hl as [->|Hl]; [|apply Hlim; exact Hl].
           rewrite over_limit_raises. congruence.
        -- intros Ht. rewrite (first_zero_skip line lines He). apply Hfz. exact Ht.
      * destruct IH as [Hfz (l & Hl & Hover)]. split.
        -- intros Ht. rewrite (first_zero_skip line lines He). apply Hfz. exact Ht.
        -- exists l. split; [right; exact Hl | exact Hover].
      * destruct IH as [Ht Hfz]. split; [exact Ht|].
        rewrite (first_zero_skip line lines He). exact Hfz.
      * exact IH.
    + (* the line carries a number *)
      destruct (store t num text) as [t1|e] eqn:Hs; cbn [mbind res_bind].
      * pose proof (store_nonempty t t1 num text Hnum Hs) as Ht1.
        assert (Hfz : t = [] -> ~ first_zero (line :: lines)).
        { intros ->. rewrite (first_zero_head line lines num text He). intros ->.
          discriminate Hs. }
        specialize (IH t1).
        destruct (collect t1 lines) as [t'|[| |]].
        -- destruct IH as [Hlim _]. split; [|exact Hfz].
           intros l Hl. apply elem_of_cons in Hl as [->|Hl]; [|apply Hlim; exact Hl].
           rewrite over_limit_raises. congruence.
        -- destruct IH as [_ (l & Hl & Hover)]. split; [exact Hfz|].
           exists l. split; [right; exact Hl | exact Hover].
        -- destruct IH as [Hnil _]. contradiction.
        -- exact IH.
      * (* only the number 0 on the empty list makes the store raise *)
        destruct (Z.eq_dec num 0) as [->|Hne].
        -- destruct t as [|x t].
           ++ injection Hs as <-. split; [reflexivity|].
              apply (first_zero_head line lines 0 text He). reflexivity.
           ++ rewrite store_zero_last in Hs by discriminate. discriminate Hs.
        -- rewrite store_pos in Hs by lia. discriminate Hs.
    + (* the number of the line is over the limit *)
      split.
      * intros _. apply (first_zero_head_raise line lines ValueError He).
      * exists line. split; [left | exact Hover].
Qed.

(** C9: the parser is partial.  It raises IndexError exactly when the
    first line that matches carries the number 0, as on ["0. hello"]; it
    raises ValueError exactly when no IndexError comes first and some
    matching line has a number of more digits than [int()] takes; in every
    other case it returns a list of exactly [expected_count] strings.  A
    line numbered 0 that follows another matching line makes no error: it
    overwrites the last entry. *)
Theorem parse_translation_response_partial :
  (forall expected_count,
      parse_translation_response (u "0. hello") expected_count = Raise IndexError)
  /\ (forall response expected_count,
        let lines := split_on NL (strip response) in
        (parse_translation_response response expected_count = Raise IndexError
         <-> first_zero lines)
        /\ (parse_translation_response response expected_count = Raise ValueError
            <-> ~ first_zero lines /\ exists line, line ∈ lines /\ over_limit line)
        /\ (0 <= expected_count ->
            ~ first_zero lines ->
            (forall line, line ∈ lines -> ~ over_limit line) ->
            exists l, parse_translation_response response expected_count = Ok l
                      /\ len l = expected_count)
        /\ parse_translation_response response expected_count
           <> Raise UnicodeEncodeError)
  /\ parse_translation_response (u "1. a" ++ [NL] ++ u "0. c") 1 = Ok [u "c"].
Proof.
  split; [intros n; reflexivity|]. split; [|reflexivity].
  intros response n lines. unfold parse_translation_response. fold lines.
  pose proof (collect_outcome lines []) as Hout.
  destruct (collect [] lines) as [t|[| |]]; cbn [mbind res_bind].
  - destruct Hout as [Hlim Hfz]. specialize (Hfz eq_refl).
    split; [split; [discriminate | contradiction]|].
    split; [split; [discriminate|]|].
    { intros [_ (l & Hl & Hover)]. exfalso. exact (Hlim l Hl Hover). }
    split; [|discriminate].
    intros Hn _ _. eexists. split; [reflexivity|]. apply fit_length. exact Hn.
  - destruct Hout as [Hfz Hover]. specialize (Hfz eq_refl).
    split; [split; [discriminate | contradiction]|].
    split; [split; [auto | reflexivity]|].
    split; [|discriminate].
    intros _ _ Hlim. destruct Hover as (l & Hl & Hover).
    exfalso. exact (Hlim l Hl Hover).
  - destruct Hout as [_ Hfz].
    split; [split; [auto | reflexivity]|].
    split; [split; [discriminate | intros [Hn _]; contradiction]|].
    split; [|discriminate].
    intros _ Hn _. contradiction.
  - contradiction.
Qed.

Lemma parse_translation_response_partial_witness :
  first_zero (split_on NL (strip (u "  0: hello" ++ [NL] ++ u "1. world"))).
Proof.
  exact (proj1 (proj1 (proj1 (proj2 parse_translation_response_partial)
                         (u "  0: hello" ++ [NL] ++ u "1. world") 2))
           eq_refl).
Defined.

(** The precondition that every matching line carries a number from 1 on
    is neither needed nor enough for the parser to return: a line numbered
    0 after another matching line is stored, and a line whose number is
    4301 digits [1] makes [int()] raise. *)
Theorem parse_translation_response_precondition :
  numbered_entry (u "0. c") = Ok (Some (0, u "c"))
  /\ parse_translation_response (u "1. a" ++ [NL] ++ u "0. c") 1 = Ok [u "c"]
  /\ match_numbered (replicate 4301 49 ++ u ". x") = Some (replicate 4301 49, u "x")
  /\ parse_translation_response (replicate 4301 49 ++ u ". x") 1 = Raise ValueError.
Proof.
  split; [reflexivity|]. split; [reflexivity|]. split.
  - vm_compute. reflexivity.
  - vm_compute. reflexivity.
Qed.

(** C10, at the input on which the code departs from it: two lines carry
    the number 1, the last of them with the text [b], and a later line
    numbered 0 overwrites the entry at position 0. *)
Theorem parse_translation_response_duplicate_zero :
  parse_translation_response (u "1. a" ++ [NL] ++ u "1. b" ++ [NL] ++ u "0. c") 1
  = Ok [u "c"].
Proof. reflexivity. Qed.


(** * The response parser on responses numbered from 1 *)

Lemma collect_app (l1 l2 : list str) :
  forall t, collect t (l1 ++ l2) = t1 ← collect t l1; collect t1 l2.
Proof.
  induction l1 as [|line l1 IH]; intros t; [reflexivity|].
  cbn [app collect].
  destruct (numbered_entry line) as [[[num text]|]|e]; cbn [mbind res_bind];
    [|apply IH|reflexivity].
  destruct (store t num text) as [t1|e]; cbn [mbind res_bind];
    [apply IH | reflexivity].
Qed.

Lemma store_pos_other (t : list str) (num : Z) (text : str) (j : nat) :
  1 <= num -> j <> Z.to_nat (num - 1) ->
  exists t',
    store t num text = Ok t'
    /\ (length t <= length t')%nat
    /\ t' !! j
       = if decide (j < length t)%nat then t !! j
         else if decide (j < length t')%nat then Some [] else None.
Proof.
  intros Hnum Hj. rewrite store_pos by assumption. eexists. split; [reflexivity|].
  pose proof (len_nonneg t) as Ht. unfold len in *.
  rewrite length_insert, length_app, length_replicate. split; [lia|].
  rewrite list_lookup_insert_ne by congruence.
  destruct (decide (j < length t)%nat) as [Hlt|Hge].
  - apply lookup_app_l. exact Hlt.
  - rewrite lookup_app_r by lia.
    destruct (decide (j < length t + Z.to_nat (num - Z.of_nat (length t)))%nat).
    + apply lookup_replicate_2. lia.
    + apply lookup_replicate_None. lia.
Qed.

(** A position that no line of the response names keeps its content, or
    holds a placeholder if the list grew past it. *)
Lemma collect_untouched (lines : list str) (j : nat) :
  (forall line, line ∈ lines -> ~ over_limit line) ->
  (forall line num text,
      line ∈ lines -> numbered_entry line = Ok (Some (num, text)) ->
      1 <= num /\ num <> Z.of_nat j + 1) ->
  forall t, exists t',
    collect t lines = Ok t'
    /\ (length t <= length t')%nat
    /\ t' !! j
       = if decide (j < length t)%nat then t !! j
         else if decide (j < length t')%nat then Some [] else None.
Proof.
  induction lines as [|line lines IH]; intros Hlim Hlines t.
  - exists t. split; [reflexivity|]. split; [lia|].
    destruct (decide (j < length t)%nat); [reflexivity|].
    apply lookup_ge_None. lia.
  - assert (Hrest : forall l num text, l ∈ lines ->
              numbered_entry l = Ok (Some (num, text)) ->
              1 <= num /\ num <> Z.of_nat j + 1).
    { intros l num text Hl. apply Hlines. right. exact Hl. }
    assert (Hlim' : forall l, l ∈ lines -> ~ over_limit l).
    { intros l Hl. apply Hlim. right. exact Hl. }
    cbn [collect].
    destruct (numbered_entry_cases line) as [He|[(num & text & He & _)|[_ Hover]]];
      [| |exfalso; apply (Hlim line); [left | exact Hover]];
      rewrite He; cbn [mbind res_bind].
    + apply IH; assumption.
    + destruct (Hlines line num text ltac:(left) He) as [Hnum Hne].
      destruct (store_pos_other t num text j Hnum ltac:(lia))
        as (t1 & Hs & Hlen1 & Hlook1).
      rewrite Hs. cbn [mbind res_bind].
      destruct (IH Hlim' Hrest t1) as (t' & Hc & Hlen & Hlook).
      exists t'. split; [exact Hc|]. split; [lia|].
      rewrite Hlook.
      destruct (decide (j < length t1)%nat) as [H1|H1];
        destruct (decide (j < length t)%nat) as [H0|H0];
        destruct (decide (j < length t')%nat) as [H2|H2];
        try lia; try reflexivity; rewrite Hlook1;
        destruct (decide (j < length t)%nat); try lia;
        destruct (decide (j < length t1)%nat); try lia; reflexivity.
Qed.

(** What the parser returns for a response whose matching lines are all
    numbered from 1 on, with numbers that [int()] takes: a list of
    [expected_count] strings that holds, at position [k - 1], the text of
    the last line numbered [k], and the empty string at the positions that
    no line names. *)
Lemma parse_translation_response_entries (response : str) (expected_count : Z) :
  0 <= expected_count ->
  (forall line, line ∈ split_on NL (strip response) -> ~ over_limit line) ->
  (forall line num text,
      line ∈ split_on NL (strip response) ->
      numbered_entry line = Ok (Some (num, text)) -> 1 <= num) ->
  exists l,
    parse_translation_response response expected_count = Ok l
    /\ len l = expected_count
    /\ (forall before line after k text,
          split_on NL (strip response) = before ++ line :: after ->
          numbered_entry line = Ok (Some (k, text)) ->
          (forall l' text', l' ∈ after ->
             numbered_entry l' <> Ok (Some (k, text'))) ->
          k <= expected_count ->
          l !! Z.to_nat (k - 1) = Some text)
    /\ (forall j : nat,
          Z.of_nat j < expected_count ->
          (forall line text, line ∈ split_on NL (strip response) ->
             numbered_entry line <> Ok (Some (Z.of_nat j + 1, text))) ->
          l !! j = Some []).
Proof.
  intros Hn Hlim Hpos. unfold parse_translation_response.
  destruct (collect_ok _ Hlim Hpos []) as (t & Ht). rewrite Ht.
  cbn [mbind res_bind]. eexists. split; [reflexivity|].
  split; [apply fit_length; exact Hn|].
  assert (Hfit : forall (j : nat) x, Z.of_nat j < expected_count ->
            (t ++ replicate (Z.to_nat (expected_count - len t)) []) !! j = Some x ->
            py_slice_to (t ++ replicate (Z.to_nat (expected_count - len t)) [])
              expected_count !! j = Some x).
  { intros j x Hj Hx. unfold py_slice_to, py_clamp.
    destruct (Z.ltb_spec expected_count 0); [lia|].
    rewrite lookup_take_lt; [exact Hx|].
    rewrite len_app, len_replicate. pose proof (len_nonneg t). lia. }
  split.
  - intros before line after k text Hsplit He Hlater Hk.
    assert (Hk1 : 1 <= k).
    { apply (Hpos line k text); [|exact He].
      rewrite Hsplit. apply elem_of_app. right. left. }
    apply Hfit; [lia|]. apply lookup_app_l_Some.
    rewrite Hsplit in Ht, Hpos, Hlim.
    rewrite collect_app in Ht.
    destruct (collect [] before) as [t0|e]; [|discriminate Ht].
    cbn [mbind res_bind collect] in Ht. rewrite He in Ht.
    cbn [mbind res_bind] in Ht.
    destruct (store t0 k text) as [t1|e] eqn:Hs; [|discriminate Ht].
    cbn [mbind res_bind] in Ht.
    destruct (store_pos_length t0 t1 k text Hk1 Hs) as [Hlen1 Hlook1].
    destruct (collect_untouched after (Z.to_nat (k - 1))) with (t := t1)
      as (t' & Hc & Hlen & Hlook).
    { intros l' Hin. apply Hlim. apply elem_of_app. right. right. exact Hin. }
    { intros l' num text' Hin He'. split.
      - apply (Hpos l' num text'); [|exact He'].
        apply elem_of_app. right. right. exact Hin.
      - intros Heq. apply (Hlater l' text' Hin).
        rewrite He'. repeat f_equal. lia. }
    rewrite Hc in Ht. injection Ht as <-.
    rewrite Hlook. pose proof (lookup_lt_Some _ _ _ Hlook1) as Hlt.
    destruct (decide (Z.to_nat (k - 1) < length t1)%nat); [exact Hlook1 | lia].
  - intros j Hj Hnone. apply Hfit; [exact Hj|].
    destruct (collect_untouched (split_on NL (strip response)) j) with (t := @nil str)
      as (t' & Hc & _ & Hlook).
    { exact Hlim. }
    { intros line num text Hin He. split; [apply (Hpos line num text Hin He)|].
      intros ->. apply (Hnone line text Hin He). }
    rewrite Ht in Hc. injection Hc as <-.
    destruct (decide (j < length t)%nat) as [Hlt|Hge].
    + rewrite lookup_app_l by exact Hlt. rewrite Hlook.
      destruct (decide (j < length (@nil str))%nat) as [H0|_]; [simpl in H0; lia|].
      destruct (decide (j < length t)%nat); [reflexivity | lia].
    + rewrite lookup_app_r by lia. apply lookup_replicate_2.
      pose proof (len_nonneg t). unfold len in *. lia.
Qed.


(** * Retry loop and fallback *)

Lemma py_getitem_lookup {A} (l : list A) (i : nat) (x : A) :
  l !! i = Some x -> py_getitem l (Z.of_nat i) = Ok x.
Proof.
  intros Hi. pose proof (lookup_lt_Some _ _ _ Hi) as Hlt.
  unfold py_getitem, len.
  destruct (Z.ltb_spec (Z.of_nat i) 0); [lia|].
  destruct (Z.leb_spec 0 (Z.of_nat i)); [|lia].
  destruct (Z.ltb_spec (Z.of_nat i) (Z.of_nat (length l))); [|lia].
  simpl. rewrite Nat2Z.id, Hi. reflexivity.
Qed.

Lemma backoff_schedule :
  backoff_wait 1 = Ok 1 /\ backoff_wait 2 = Ok 2
  /\ forall attempt, 3 <= attempt -> backoff_wait attempt = Ok 4.
Proof.
  split; [reflexivity|]. split; [reflexivity|].
  intros a Ha. unfold backoff_wait.
  replace (Z.min (a - 1) (len RETRY_BACKOFF - 1)) with 2; [reflexivity|].
  change (len RETRY_BACKOFF) with 3. lia.
Qed.

Lemma retry_loop_first_fails (n : nat) (prompt : str) (expected_count : Z) (w : world) :
  provider_fails w ->
  retry_loop (S n) 0 prompt expected_count w
  = retry_loop n 1 prompt expected_count
      {| provider := provider w; calls := S (calls w);
         log := log w ++ [Request prompt] |}.
Proof.
  intros Hf. cbn [retry_loop]. change (0 <? 0) with false.
  unfold translate_with_chatgpt. cbv iota. rewrite Hf. reflexivity.
Qed.

Lemma retry_loop_retry_fails (n : nat) (attempt wait_time : Z) (prompt : str)
    (expected_count : Z) (w : world) :
  provider_fails w -> 0 < attempt -> backoff_wait attempt = Ok wait_time ->
  retry_loop (S n) attempt prompt expected_count w
  = retry_loop n (attempt + 1) prompt expected_count
      {| provider := provider w; calls := S (calls w);
         log := log w ++ [RetryWarning wait_time (attempt + 1);
                          Sleep wait_time; Request prompt] |}.
Proof.
  intros Hf Ha Hw. cbn [retry_loop].
  destruct (Z.ltb_spec 0 attempt); [|lia].
  rewrite Hw. cbn [mbind res_bind].
  unfold translate_with_chatgpt, emit. cbn [provider calls log].
  rewrite Hf. rewrite <- !app_assoc. reflexivity.
Qed.

Lemma retry_loop_exhausted (prompt : str) (expected_count : Z) (w : world) :
  provider_fails w ->
  retry_loop (Z.to_nat MAX_RETRIES) 0 prompt expected_count w
  = (Ok (replicate (Z.to_nat expected_count) []),
     {| provider := provider w;
        calls := calls w + 3;
        log := log w ++ [Request prompt; RetryWarning 1 2; Sleep 1;
                         Request prompt; RetryWarning 2 3; Sleep 2;
                         Request prompt; BatchError] |}).
Proof.
  intros Hf. change (Z.to_nat MAX_RETRIES) with 3%nat.
  rewrite retry_loop_first_fails by assumption.
  rewrite (retry_loop_retry_fails 1 1 1) by (try reflexivity; try lia; exact Hf).
  rewrite (retry_loop_retry_fails 0 2 2) by (try reflexivity; try lia; exact Hf).
  cbn [retry_loop provider calls log]. unfold emit. cbn [provider calls log].
  f_equal. f_equal; [lia|].
  rewrite <- !app_assoc. reflexivity.
Qed.

Lemma retry_loop_calls (n : nat) (prompt : str) (expected_count : Z) :
  forall (attempt : Z) (w : world),
    (calls (snd (retry_loop n attempt prompt expected_count w)) <= calls w + n)%nat.
Proof.
  induction n as [|n IH]; intros attempt w; cbn [retry_loop].
  - simpl. lia.
  - destruct (0 <? attempt).
    + destruct (backoff_wait attempt) as [d|e]; cbn [mbind res_bind].
      * unfold translate_with_chatgpt.
        destruct (truthy _); cbn [snd calls emit].
        -- lia.
        -- etransitivity; [apply IH|]. cbn [calls emit]. lia.
      * simpl. lia.
    + unfold translate_with_chatgpt.
      destruct (truthy _); cbn [snd calls].
      * lia.
      * etransitivity; [apply IH|]. cbn [calls]. lia.
Qed.

Lemma retry_loop_answer (n : nat) (prompt r : str) (expected_count : Z) (w : world) :
  provider w (calls w) prompt = Some r -> r <> [] ->
  retry_loop (S n) 0 prompt expected_count w
  = (parse_translation_response r expected_count,
     {| provider := provider w; calls := S (calls w);
        log := log w ++ [Request prompt] |}).
Proof.
  intros Hp Hr. cbn -[parse_translation_response]. rewrite Hp.
  destruct r; [congruence|]. reflexivity.
Qed.

Lemma keep_original_idemp (c : Cue) :
  keep_original (keep_original c) = keep_original c.
Proof. reflexivity. Qed.

Lemma apply_translations_fallback (batch : TranslationBatch nat) (m : nat) :
  forall (i : nat) (h : heap) (failed : Z),
    (i + m <= length (cues batch))%nat ->
    exists h',
      apply_translations batch (Z.of_nat i) (replicate m []) h failed
      = Ok (h', failed + Z.of_nat m)
      /\ length h' = length h
      /\ forall r, h' !! r
           = if decide (r ∈ take m (drop i (cues batch)))
             then keep_original <$> h !! r else h !! r.
Proof.
  induction m as [|m IH]; intros i h failed Hi.
  - exists h. simpl. split; [f_equal; f_equal; lia|]. split; [reflexivity|].
    intros r. destruct (decide (r ∈ [])) as [Hin|]; [inversion Hin | reflexivity].
  - destruct (lookup_lt_is_Some_2 (cues batch) i ltac:(lia)) as [r0 Hr0].
    simpl. rewrite (py_getitem_lookup _ _ _ Hr0). simpl.
    destruct (IH (S i) (alter keep_original r0 h) (failed + 1) ltac:(lia))
      as (h' & Happ & Hlen & Hlook).
    exists h'.
    replace (Z.of_nat i + 1) with (Z.of_nat (S i)) by lia.
    rewrite Happ. split; [f_equal; f_equal; lia|].
    split; [rewrite Hlen; apply length_alter|].
    intros r. rewrite Hlook, list_lookup_alter.
    rewrite (drop_S _ _ _ Hr0). simpl take.
    destruct (decide (r0 = r)) as [->|Hne].
    + destruct (decide (r ∈ r :: _)) as [_|Hn]; [|exfalso; apply Hn; left].
      destruct (decide (r ∈ _)); destruct (h !! r); reflexivity.
    + destruct (decide (r ∈ take m (drop (S i) (cues batch)))) as [Hin|Hnin];
        destruct (decide (r ∈ r0 :: take m (drop (S i) (cues batch)))) as [Hin'|Hnin'];
        try reflexivity.
      * exfalso. apply Hnin'. right. exact Hin.
      * exfalso. apply elem_of_cons in Hin' as [->|Hin']; [congruence | exact (Hnin Hin')].
Qed.

(** ** The retry loop when a later request is answered *)

Lemma retry_loop_first_none (n : nat) (prompt : str) (expected_count : Z) (w : world) :
  truthy (provider w (calls w) prompt) = false ->
  retry_loop (S n) 0 prompt expected_count w
  = retry_loop n 1 prompt expected_count
      {| provider := provider w; calls := S (calls w);
         log := log w ++ [Request prompt] |}.
Proof.
  intros Hf. cbn [retry_loop]. change (0 <? 0) with false.
  unfold translate_with_chatgpt. cbv iota. rewrite Hf. reflexivity.
Qed.

Lemma retry_loop_retry_none (n : nat) (attempt wait_time : Z) (prompt : str)
    (expected_count : Z) (w : world) :
  truthy (provider w (calls w) prompt) = false ->
  0 < attempt -> backoff_wait attempt = Ok wait_time ->
  retry_loop (S n) attempt prompt expected_count w
  = retry_loop n (attempt + 1) prompt expected_count
      {| provider := provider w; calls := S (calls w);
         log := log w ++ [RetryWarning wait_time (attempt + 1);
                          Sleep wait_time; Request prompt] |}.
Proof.
  intros Hf Ha Hw. cbn [retry_loop].
  destruct (Z.ltb_spec 0 attempt); [|lia].
  rewrite Hw. cbn [mbind res_bind].
  unfold translate_with_chatgpt, emit. cbn [provider calls log].
  rewrite Hf. rewrite <- !app_assoc. reflexivity.
Qed.

Lemma retry_loop_retry_answer (n : nat) (attempt wait_time : Z) (prompt r : str)
    (expected_count : Z) (w : world) :
  provider w (calls w) prompt = Some r -> r <> [] ->
  0 < attempt -> backoff_wait attempt = Ok wait_time ->
  retry_loop (S n) attempt prompt expected_count w
  = (parse_translation_response r expected_count,
     {| provider := provider w; calls := S (calls w);
        log := log w ++ [RetryWarning wait_time (attempt + 1);
                         Sleep wait_time; Request prompt] |}).
Proof.
  intros Hp Hr Ha Hw. cbn [retry_loop].
  destruct (Z.ltb_spec 0 attempt); [|lia].
  rewrite Hw. cbn [mbind res_bind].
  unfold translate_with_chatgpt, emit. cbn [provider calls log].
  rewrite Hp. destruct r; [congruence|]. cbn [truthy default].
  rewrite <- !app_assoc. reflexivity.
Qed.

(** The first request that is answered with text ends the retry loop,
    whatever the parser makes of the text. *)
Lemma translate_batch_answer_after (h : heap) (batch : TranslationBatch nat)
    (target_lang : str) (w : world) (k : nat) (r : str) :
  let prompt := build_translation_prompt (texts_of h batch) target_lang in
  (k < Z.to_nat MAX_RETRIES)%nat ->
  (forall j, (j < k)%nat -> truthy (provider w (calls w + j) prompt) = false) ->
  provider w (calls w + k) prompt = Some r ->
  r <> [] ->
  translate_batch_with_retry h batch target_lang w
  = (parse_translation_response r (len (cues batch)),
     {| provider := provider w;
        calls := calls w + k + 1;
        log := log w ++ take (3 * k + 1)
                 [Request prompt; RetryWarning 1 2; Sleep 1;
                  Request prompt; RetryWarning 2 3; Sleep 2;
                  Request prompt] |}).
Proof.
  intros prompt Hk Hnone Hans Hr. unfold translate_batch_with_retry.
  fold prompt. change (Z.to_nat MAX_RETRIES) with 3%nat in *.
  destruct k as [|[|[|k]]]; [| | |lia].
  - rewrite Nat.add_0_r in Hans.
    rewrite (retry_loop_answer 2 prompt r _ w Hans Hr).
    f_equal. f_equal. lia.
  - pose proof (Hnone 0%nat ltac:(lia)) as H0. rewrite Nat.add_0_r in H0.
    rewrite (retry_loop_first_none 2 prompt _ w H0).
    rewrite (retry_loop_retry_answer 1 1 1 prompt r); cbn [provider calls log];
      [|replace (S (calls w)) with (calls w + 1)%nat by lia; exact Hans
       |exact Hr|lia|reflexivity].
    rewrite <- app_assoc. f_equal. f_equal. lia.
  - pose proof (Hnone 0%nat ltac:(lia)) as H0. rewrite Nat.add_0_r in H0.
    pose proof (Hnone 1%nat ltac:(lia)) as H1.
    rewrite (retry_loop_first_none 2 prompt _ w H0).
    rewrite (retry_loop_retry_none 1 1 1 prompt); cbn [provider calls log];
      [|replace (S (calls w)) with (calls w + 1)%nat by lia; exact H1
       |lia|reflexivity].
    rewrite (retry_loop_retry_answer 0 2 2 prompt r); cbn [provider calls log];
      [|replace (S (S (calls w))) with (calls w + 2)%nat by lia; exact Hans
       |exact Hr|lia|reflexivity].
    rewrite <- !app_assoc. f_equal. f_equal. lia.
Qed.

(** ** The loop over the batches when every request fails *)

Lemma translate_step_all_fail (target_lang : str) (st : run_state)
    (batch : TranslationBatch nat) :
  provider_fails (outside st) ->
  exists st',
    translate_step target_lang st batch = Ok st'
    /\ failed_batches st' = failed_batches st + len (cues batch)
    /\ (forall r, cue_heap st' !! r
          = if decide (r ∈ cues batch)
            then keep_original <$> cue_heap st !! r else cue_heap st !! r)
    /\ calls (outside st') = (calls (outside st) + 3)%nat
    /\ provider (outside st') = provider (outside st).
Proof.
  intros Hf.
  destruct (apply_translations_fallback batch (length (cues batch)) 0
              (cue_heap st) (failed_batches st) ltac:(lia))
    as (h' & Happ & Hlen & Hlook).
  change (Z.of_nat 0) with 0 in Happ.
  rewrite drop_0, firstn_all in Hlook.
  unfold translate_step, translate_batch_with_retry.
  rewrite retry_loop_exhausted by assumption.
  unfold len. rewrite Nat2Z.id. cbn [mbind res_bind]. rewrite Happ.
  cbn [mbind res_bind]. eexists. split; [reflexivity|].
  cbn [cue_heap failed_batches outside emit calls provider].
  repeat split. exact Hlook.
Qed.

Lemma translate_loop_all_fail (target_lang : str)
    (batches : list (TranslationBatch nat)) :
  forall st,
    provider_fails (outside st) ->
    exists st',
      translate_loop target_lang st batches = Ok st'
      /\ failed_batches st' = failed_batches st + len (concat (cues <$> batches))
      /\ (forall r, cue_heap st' !! r
            = if decide (r ∈ concat (cues <$> batches))
              then keep_original <$> cue_heap st !! r else cue_heap st !! r)
      /\ calls (outside st') = (calls (outside st) + 3 * length batches)%nat.
Proof.
  induction batches as [|b bl IH]; intros st Hf.
  - exists st. cbn [translate_loop fmap list_fmap concat length].
    split; [reflexivity|]. split; [unfold len; cbn [length]; lia|].
    split; [|lia]. intros r.
    destruct (decide (r ∈ [])) as [Hin|]; [inversion Hin | reflexivity].
  - destruct (translate_step_all_fail target_lang st b Hf)
      as (st1 & Hstep & Hf1 & Hh1 & Hc1 & Hp1).
    assert (Hf' : provider_fails (outside st1)).
    { unfold provider_fails in *. rewrite Hp1. exact Hf. }
    destruct (IH st1 Hf') as (st' & Hloop & Hf2 & Hh2 & Hc2).
    exists st'. cbn [translate_loop]. rewrite Hstep. cbn [mbind res_bind].
    split; [exact Hloop|]. rewrite fmap_cons. cbn [concat].
    split; [|split].
    + rewrite Hf2, Hf1. unfold len. rewrite length_app. lia.
    + intros r. rewrite Hh2, Hh1.
      destruct (decide (r ∈ cues b)) as [Hb|Hb];
        destruct (decide (r ∈ concat (cues <$> bl))) as [Hl|Hl];
        destruct (decide (r ∈ cues b ++ concat (cues <$> bl))) as [Hbl|Hbl];
        try reflexivity;
        try (exfalso; apply Hbl; apply elem_of_app; auto; fail);
        try (exfalso; apply elem_of_app in Hbl as [?|?]; contradiction).
      destruct (cue_heap st !! r); reflexivity.
    + rewrite Hc2, Hc1. cbn [length]. lia.
Qed.

(** C4: when every request of the provider fails, a batch is requested
    exactly [MAX_RETRIES] (three) times, with delays 1 and then 2 taken from
    [RETRY_BACKOFF] (the lookup is capped at the last value, 4) before the
    second and third request; the loop then gives one empty string per
    cue, every cue of the batch gets its source text as translation and is
    counted as failed, the other cues are untouched, and the run goes on
    with the next batch: the loop over any list of batches completes, with
    every cue of every batch on its source text and counted as failed,
    after [MAX_RETRIES] requests per batch.  No run makes more than
    [MAX_RETRIES] requests for a batch, and the first request that returns
    text, be it the first, second or third, ends the retry loop whatever
    the parser makes of the text: a parse that falls short is no reason for
    another request. *)
Theorem translate_batch_fallback :
  (backoff_wait 1 = Ok 1 /\ backoff_wait 2 = Ok 2
   /\ forall attempt, 3 <= attempt -> backoff_wait attempt = Ok 4)
  /\ (forall h batch target_lang w,
        provider_fails w ->
        translate_batch_with_retry h batch target_lang w
        = (Ok (replicate (length (cues batch)) []),
           let prompt := build_translation_prompt (texts_of h batch) target_lang in
           {| provider := provider w;
              calls := calls w + Z.to_nat MAX_RETRIES;
              log := log w ++ [Request prompt; RetryWarning 1 2; Sleep 1;
                               Request prompt; RetryWarning 2 3; Sleep 2;
                               Request prompt; BatchError] |}))
  /\ (forall target_lang st batch rest,
        provider_fails (outside st) ->
        exists st',
          translate_step target_lang st batch = Ok st'
          /\ translate_loop target_lang st (batch :: rest)
             = translate_loop target_lang st' rest
          /\ failed_batches st' = failed_batches st + len (cues batch)
          /\ length (cue_heap st') = length (cue_heap st)
          /\ (forall r c, r ∈ cues batch -> cue_heap st !! r = Some c ->
                cue_heap st' !! r = Some (keep_original c)
                /\ translated_text (keep_original c) = Some (text c))
          /\ (forall r, r ∉ cues batch -> cue_heap st' !! r = cue_heap st !! r)
          /\ provider (outside st') = provider (outside st))
  /\ (forall h batch target_lang w,
        (calls (snd (translate_batch_with_retry h batch target_lang w))
         <= calls w + Z.to_nat MAX_RETRIES)%nat)
  /\ (forall h batch target_lang w r,
        provider w (calls w)
          (build_translation_prompt (texts_of h batch) target_lang) = Some r ->
        r <> [] ->
        translate_batch_with_retry h batch target_lang w
        = (parse_translation_response r (len (cues batch)),
           {| provider := provider w; calls := S (calls w);
              log := log w ++ [Request (build_translation_prompt
                                          (texts_of h batch) target_lang)] |}))
  /\ (forall h batch target_lang w (k : nat) r,
        let prompt := build_translation_prompt (texts_of h batch) target_lang in
        (k < Z.to_nat MAX_RETRIES)%nat ->
        (forall j, (j < k)%nat ->
           truthy (provider w (calls w + j) prompt) = false) ->
        provider w (calls w + k) prompt = Some r ->
        r <> [] ->
        translate_batch_with_retry h batch target_lang w
        = (parse_translation_response r (len (cues batch)),
           {| provider := provider w;
              calls := calls w + k + 1;
              log := log w ++ take (3 * k + 1)
                       [Request prompt; RetryWarning 1 2; Sleep 1;
                        Request prompt; RetryWarning 2 3; Sleep 2;
                        Request prompt] |}))
  /\ (forall target_lang batches st,
        provider_fails (outside st) ->
        exists st',
          translate_loop target_lang st batches = Ok st'
          /\ failed_batches st'
             = failed_batches st + len (concat (cues <$> batches))
          /\ (forall r, cue_heap st' !! r
                = if decide (r ∈ concat (cues <$> batches))
                  then keep_original <$> cue_heap st !! r
                  else cue_heap st !! r)
          /\ calls (outside st')
             = (calls (outside st) + Z.to_nat MAX_RETRIES * length batches)%nat).
Proof.
  split; [exact backoff_schedule|].
  assert (Hfail : forall h batch target_lang w,
        provider_fails w ->
        translate_batch_with_retry h batch target_lang w
        = (Ok (replicate (length (cues batch)) []),
           let prompt := build_translation_prompt (texts_of h batch) target_lang in
           {| provider := provider w;
              calls := calls w + Z.to_nat MAX_RETRIES;
              log := log w ++ [Request prompt; RetryWarning 1 2; Sleep 1;
                               Request prompt; RetryWarning 2 3; Sleep 2;
                               Request prompt; BatchError] |})).
  { intros h batch lang w Hf. unfold translate_batch_with_retry.
    rewrite retry_loop_exhausted by assumption.
    unfold len. rewrite Nat2Z.id. reflexivity. }
  split; [exact Hfail|]. split; [|split; [|split; [|split]]].
  - intros lang st batch rest Hf.
    destruct (apply_translations_fallback batch (length (cues batch)) 0
                (cue_heap st) (failed_batches st) ltac:(lia))
      as (h' & Happ & Hlen & Hlook).
    assert (Hstep : translate_step lang st batch
                    = Ok {| cue_heap := h';
                            failed_batches := failed_batches st + len (cues batch);
                            outside := emit (Sleep RATE_LIMIT_DELAY)
                              (snd (translate_batch_with_retry (cue_heap st) batch lang (outside st))) |}).
    { unfold translate_step. rewrite Hfail by assumption.
      cbn [mbind res_bind snd]. change (Z.of_nat 0) with 0 in Happ.
      rewrite Happ. reflexivity. }
    eexists. split; [exact Hstep|].
    split; [simpl; rewrite Hstep; reflexivity|].
    split; [reflexivity|]. split; [exact Hlen|].
    rewrite drop_0, firstn_all in Hlook. cbn [cue_heap].
    split; [|split].
    + intros r c Hin Hc. rewrite Hlook, Hc.
      destruct (decide (r ∈ cues batch)); [|contradiction].
      split; reflexivity.
    + intros r Hnin. rewrite Hlook.
      destruct (decide (r ∈ cues batch)); [contradiction | reflexivity].
    + rewrite Hfail by assumption. reflexivity.
  - intros h batch lang w. unfold translate_batch_with_retry.
    apply retry_loop_calls.
  - intros h batch lang w r Hp Hr. unfold translate_batch_with_retry.
    change (Z.to_nat MAX_RETRIES) with 3%nat.
    apply retry_loop_answer; assumption.
  - intros h batch lang w k r. apply translate_batch_answer_after.
  - intros lang batches st Hf.
    destruct (translate_loop_all_fail lang batches st Hf)
      as (st' & Hloop & Hfailed & Hheap & Hcalls).
    exists st'. split; [exact Hloop|]. split; [exact Hfailed|].
    split; [exact Hheap | exact Hcalls].
Qed.

Lemma translate_batch_fallback_witness :
  fst (translate_batch_with_retry []
         {| cues := [0%nat]; prev_context := []; next_context := [];
            start_index := 0; end_index := 0 |}
         (u "en")
         {| provider := fun _ _ => None; calls := 0; log := [] |})
  = Ok [[]].
Proof.
  exact (f_equal fst
           (proj1 (proj2 translate_batch_fallback) []
              {| cues := [0%nat]; prev_context := []; next_context := [];
                 start_index := 0; end_index := 0 |}
              (u "en")
              {| provider := fun _ _ => None; calls := 0; log := [] |}
              (fun _ _ => eq_refl))).
Defined.


(** * Stripping *)

Lemma lstrip_clean (c : Z) (s : str) :
  Py_UNICODE_ISSPACE c = false -> lstrip (c :: s) = c :: s.
Proof. intros Hc. unfold lstrip. simpl. rewrite Hc. reflexivity. Qed.

Lemma rstrip_clean (s : str) (c : Z) :
  Py_UNICODE_ISSPACE c = false -> rstrip (s ++ [c]) = s ++ [c].
Proof.
  intros Hc. unfold rstrip. rewrite rev_app_distr. simpl. rewrite Hc.
  simpl. rewrite rev_involutive. reflexivity.
Qed.

(** A string that neither starts nor ends with a space is its own
    [strip()]. *)
Lemma strip_clean (c d : Z) (s : str) :
  Py_UNICODE_ISSPACE c = false -> Py_UNICODE_ISSPACE d = false ->
  strip (c :: s ++ [d]) = c :: s ++ [d].
Proof.
  intros Hc Hd. unfold strip. rewrite lstrip_clean by assumption.
  rewrite app_comm_cons. apply rstrip_clean. assumption.
Qed.

Lemma ascii_digit_not_space (d : Z) :
  0 <= d < 10 -> Py_UNICODE_ISSPACE (48 + d) = false.
Proof. intros Hd. apply not_space_spec. lia. Qed.

(** * Decimal notation of small numbers *)

Lemma py_int_ascii2 (a b : Z) :
  0 <= a < 10 -> 0 <= b < 10 -> py_int [48 + a; 48 + b] = Ok (10 * a + b).
Proof.
  intros Ha Hb. unfold py_int.
  destruct (Z.eqb_spec (48 + a) 43); [lia|].
  destruct (Z.eqb_spec (48 + a) 45); [lia|].
  rewrite limit_short by (unfold len, int_max_str_digits; simpl; lia).
  cbn [int_digits].
  repeat (rewrite decimal_ascii by assumption; cbn [int_digits]).
  apply f_equal. lia.
Qed.

Lemma py_int_ascii3 (a b c : Z) :
  0 <= a < 10 -> 0 <= b < 10 -> 0 <= c < 10 ->
  py_int [48 + a; 48 + b; 48 + c] = Ok (100 * a + 10 * b + c).
Proof.
  intros Ha Hb Hc. unfold py_int.
  destruct (Z.eqb_spec (48 + a) 43); [lia|].
  destruct (Z.eqb_spec (48 + a) 45); [lia|].
  rewrite limit_short by (unfold len, int_max_str_digits; simpl; lia).
  cbn [int_digits].
  repeat (rewrite decimal_ascii by assumption; cbn [int_digits]).
  apply f_equal. lia.
Qed.

Lemma range_check (P : Z -> bool) (n : Z) :
  forallb P (seqZ 0 n) = true -> forall x, 0 <= x < n -> P x = true.
Proof.
  intros Hall x Hx. rewrite forallb_forall in Hall. apply Hall.
  apply list_elem_of_In, elem_of_seqZ. lia.
Qed.

Lemma format_02d (x : Z) :
  0 <= x < 100 -> format_0d 2 x = [48 + x / 10; 48 + x mod 10].
Proof.
  intros Hx.
  apply (range_check
           (fun x => bool_decide (format_0d 2 x = [48 + x / 10; 48 + x mod 10])) 100)
    in Hx; [apply bool_decide_eq_true in Hx; exact Hx|].
  vm_compute. reflexivity.
Qed.

Lemma format_03d (x : Z) :
  0 <= x < 1000 ->
  format_0d 3 x = [48 + x / 100; 48 + (x / 10) mod 10; 48 + x mod 10].
Proof.
  intros Hx.
  apply (range_check
           (fun x => bool_decide
              (format_0d 3 x = [48 + x / 100; 48 + (x / 10) mod 10; 48 + x mod 10]))
           1000)
    in Hx; [apply bool_decide_eq_true in Hx; exact Hx|].
  vm_compute. reflexivity.
Qed.

(** * Timestamps *)

(** The text [HH:MM:SS,mmm] with the given digit values and separator. *)
Lemma parse_timestamp_digits (a b c d e f g h i sep : Z) :
  0 <= a < 10 -> 0 <= b < 10 -> 0 <= c < 10 -> 0 <= d < 10 ->
  0 <= e < 10 -> 0 <= f < 10 -> 0 <= g < 10 -> 0 <= h < 10 -> 0 <= i < 10 ->
  sep = 44 \/ sep = 46 ->
  parse_timestamp
    [48 + a; 48 + b; 58; 48 + c; 48 + d; 58; 48 + e; 48 + f; sep;
     48 + g; 48 + h; 48 + i]
  = Ok (((10 * a + b) * 3600 + (10 * c + d) * 60 + (10 * e + f)) * 1000
        + (100 * g + 10 * h + i)).
Proof.
  intros Ha Hb Hc Hd He Hf Hg Hh Hi Hsep. unfold parse_timestamp.
  assert (Hrep : replace_char 46 44
            [48 + a; 48 + b; 58; 48 + c; 48 + d; 58; 48 + e; 48 + f; sep;
             48 + g; 48 + h; 48 + i]
          = [48 + a; 48 + b; 58; 48 + c; 48 + d; 58; 48 + e; 48 + f; 44;
             48 + g; 48 + h; 48 + i]).
  { unfold replace_char. cbn [fmap list_fmap].
    destruct Hsep as [-> | ->];
      repeat match goal with
             | |- context [?x =? 46] => destruct (Z.eqb_spec x 46); try lia
             end;
      reflexivity. }
  rewrite Hrep.
  assert (Hstrip : strip
            [48 + a; 48 + b; 58; 48 + c; 48 + d; 58; 48 + e; 48 + f; 44;
             48 + g; 48 + h; 48 + i]
          = [48 + a; 48 + b; 58; 48 + c; 48 + d; 58; 48 + e; 48 + f; 44;
             48 + g; 48 + h; 48 + i]).
  { apply (strip_clean (48 + a) (48 + i)
             [48 + b; 58; 48 + c; 48 + d; 58; 48 + e; 48 + f; 44; 48 + g; 48 + h]);
      apply ascii_digit_not_space; assumption. }
  rewrite Hstrip.
  unfold match_timestamp.
  cbn [re_count re_lit].
  repeat (first [rewrite is_decimal_ascii by assumption | rewrite Z.eqb_refl];
          cbn [re_count re_lit]).
  rewrite !py_int_ascii2, py_int_ascii3 by assumption.
  reflexivity.
Qed.

(** The fields of a time below 100 hours, as [format_timestamp] prints
    them. *)
Lemma format_timestamp_fields (ms : Z) :
  0 <= ms < 360000000 ->
  let hours := ms / 1000 / 3600 in
  let minutes := (ms / 1000) mod 3600 / 60 in
  let seconds := (ms / 1000) mod 60 in
  let millis := ms mod 1000 in
  format_timestamp ms
  = [48 + hours / 10; 48 + hours mod 10; 58;
     48 + minutes / 10; 48 + minutes mod 10; 58;
     48 + seconds / 10; 48 + seconds mod 10; 44;
     48 + millis / 100; 48 + (millis / 10) mod 10; 48 + millis mod 10].
Proof.
  intros Hms. cbv zeta. unfold format_timestamp.
  rewrite !format_02d, format_03d by (Z.div_mod_to_equations; lia).
  reflexivity.
Qed.

Lemma parse_format_timestamp (ms : Z) :
  0 <= ms < 360000000 -> parse_timestamp (format_timestamp ms) = Ok ms.
Proof.
  intros Hms. rewrite format_timestamp_fields by assumption. cbv zeta.
  rewrite parse_timestamp_digits
    by first [left; reflexivity | Z.div_mod_to_equations; lia].
  f_equal. Z.div_mod_to_equations. lia.
Qed.

Lemma format_parse_timestamp (a b c d e f g h i : Z) :
  0 <= a < 10 -> 0 <= b < 10 -> 0 <= c < 6 -> 0 <= d < 10 ->
  0 <= e < 6 -> 0 <= f < 10 -> 0 <= g < 10 -> 0 <= h < 10 -> 0 <= i < 10 ->
  format_timestamp
    (((10 * a + b) * 3600 + (10 * c + d) * 60 + (10 * e + f)) * 1000
     + (100 * g + 10 * h + i))
  = [48 + a; 48 + b; 58; 48 + c; 48 + d; 58; 48 + e; 48 + f; 44;
     48 + g; 48 + h; 48 + i].
Proof.
  intros Ha Hb Hc Hd He Hf Hg Hh Hi.
  rewrite format_timestamp_fields by lia. cbv zeta.
  set (ms := ((10 * a + b) * 3600 + (10 * c + d) * 60 + (10 * e + f)) * 1000
             + (100 * g + 10 * h + i)).
  assert (H1 : ms / 1000 / 3600 = 10 * a + b)
    by (subst ms; Z.div_mod_to_equations; lia).
  assert (H2 : (ms / 1000) mod 3600 / 60 = 10 * c + d)
    by (subst ms; Z.div_mod_to_equations; lia).
  assert (H3 : (ms / 1000) mod 60 = 10 * e + f)
    by (subst ms; Z.div_mod_to_equations; lia).
  assert (H4 : ms mod 1000 = 100 * g + 10 * h + i)
    by (subst ms; Z.div_mod_to_equations; lia).
  rewrite H1, H2, H3, H4.
  replace ((10 * a + b) / 10) with a by (Z.div_mod_to_equations; lia).
  replace ((10 * a + b) mod 10) with b by (Z.div_mod_to_equations; lia).
  replace ((10 * c + d) / 10) with c by (Z.div_mod_to_equations; lia).
  replace ((10 * c + d) mod 10) with d by (Z.div_mod_to_equations; lia).
  replace ((10 * e + f) / 10) with e by (Z.div_mod_to_equations; lia).
  replace ((10 * e + f) mod 10) with f by (Z.div_mod_to_equations; lia).
  replace ((100 * g + 10 * h + i) / 100) with g by (Z.div_mod_to_equations; lia).
  replace ((100 * g + 10 * h + i) / 10 mod 10) with h by (Z.div_mod_to_equations; lia).
  replace ((100 * g + 10 * h + i) mod 10) with i by (Z.div_mod_to_equations; lia).
  reflexivity.
Qed.

(** C5: [parse_timestamp] maps the text [HH:MM:SS,mmm], with a comma or
    a period before the milliseconds, to
    [((H*3600)+(M*60)+S)*1000+mmm]; [format_timestamp] is its inverse on
    the times that have such a text (those below 100 hours): parsing the
    text it prints gives the time back, and it prints back every text
    [HH:MM:SS,mmm] whose minutes and seconds are below 60;
    [00:01:02,345] and 62345, and [00:00:00,000] and 0, correspond in both
    directions. *)
Theorem timestamp_conversion :
  (forall a b c d e f g h i sep,
      0 <= a < 10 -> 0 <= b < 10 -> 0 <= c < 10 -> 0 <= d < 10 ->
      0 <= e < 10 -> 0 <= f < 10 -> 0 <= g < 10 -> 0 <= h < 10 ->
      0 <= i < 10 -> sep = 44 \/ sep = 46 ->
      parse_timestamp
        [48 + a; 48 + b; 58; 48 + c; 48 + d; 58; 48 + e; 48 + f; sep;
         48 + g; 48 + h; 48 + i]
      = Ok (((10 * a + b) * 3600 + (10 * c + d) * 60 + (10 * e + f)) * 1000
            + (100 * g + 10 * h + i)))
  /\ (forall ms, 0 <= ms < 360000000 ->
        parse_timestamp (format_timestamp ms) = Ok ms)
  /\ (forall a b c d e f g h i,
        0 <= a < 10 -> 0 <= b < 10 -> 0 <= c < 6 -> 0 <= d < 10 ->
        0 <= e < 6 -> 0 <= f < 10 -> 0 <= g < 10 -> 0 <= h < 10 ->
        0 <= i < 10 ->
        format_timestamp
          (((10 * a + b) * 3600 + (10 * c + d) * 60 + (10 * e + f)) * 1000
           + (100 * g + 10 * h + i))
        = [48 + a; 48 + b; 58; 48 + c; 48 + d; 58; 48 + e; 48 + f; 44;
           48 + g; 48 + h; 48 + i])
  /\ parse_timestamp (u "00:01:02,345") = Ok 62345
  /\ parse_timestamp (u "00:01:02.345") = Ok 62345
  /\ format_timestamp 62345 = u "00:01:02,345"
  /\ parse_timestamp (u "00:00:00,000") = Ok 0
  /\ format_timestamp 0 = u "00:00:00,000".
Proof.
  split; [exact parse_timestamp_digits|].
  split; [exact parse_format_timestamp|].
  split; [exact format_parse_timestamp|].
  repeat split; reflexivity.
Qed.

Lemma timestamp_conversion_witness :
  parse_timestamp (format_timestamp 359999999) = Ok 359999999.
Proof.
  exact (proj1 (proj2 timestamp_conversion) 359999999 ltac:(lia)).
Defined.

(** Outside that range the printed text has a wider hour field, which
    the parser does not accept. *)
Example format_timestamp_100h :
  format_timestamp 360000000 = u "100:00:00,000"
  /\ parse_timestamp (u "100:00:00,000") = Raise ValueError.
Proof. split; reflexivity. Qed.

(** Where [format_timestamp] is no inverse of [parse_timestamp].  The text
    [99:60:00,000] is read as 360000000, which is printed as
    [100:00:00,000], a text that the parser refuses; a negative time is
    printed with a sign and refused as well; the text [00:60:00,000] is
    read as 3600000, which is printed as [01:00:00,000]; and a text with
    a period is printed back with a comma. *)
Theorem timestamp_conversion_not_inverse :
  parse_timestamp (u "99:60:00,000") = Ok 360000000
  /\ format_timestamp 360000000 = u "100:00:00,000"
  /\ parse_timestamp (format_timestamp 360000000) = Raise ValueError
  /\ format_timestamp (-1) = u "-1:59:59,999"
  /\ parse_timestamp (format_timestamp (-1)) = Raise ValueError
  /\ parse_timestamp (u "00:60:00,000") = Ok 3600000
  /\ format_timestamp 3600000 = u "01:00:00,000"
  /\ parse_timestamp (u "00:01:02.345") = Ok 62345
  /\ format_timestamp 62345 = u "00:01:02,345".
Proof. repeat split; reflexivity. Qed.


(** * The loop of [parse_srt] *)

(** What one iteration adds does not depend on what was collected
    before. *)
Lemma parse_srt_step_frame (cs : list Cue) (ws : list warning) (block : str) :
  parse_srt_step (cs, ws) block
  = (cs ++ fst (parse_srt_step ([], []) block),
     ws ++ snd (parse_srt_step ([], []) block)).
Proof.
  unfold parse_srt_step.
  destruct (strip block); [simpl; rewrite !app_nil_r; reflexivity|].
  destruct (len _ <? 3); [simpl; rewrite !app_nil_r; reflexivity|].
  destruct (parse_block _) as [[c|w]|e]; simpl; rewrite ?app_nil_r; reflexivity.
Qed.

Lemma parse_srt_loop (blocks : list str) :
  forall cs ws,
    foldl parse_srt_step (cs, ws) blocks
    = (cs ++ concat ((fun b => fst (parse_srt_step ([], []) b)) <$> blocks),
       ws ++ concat ((fun b => snd (parse_srt_step ([], []) b)) <$> blocks)).
Proof.
  induction blocks as [|b blocks IH]; intros cs ws.
  - simpl. rewrite !app_nil_r. reflexivity.
  - change (foldl parse_srt_step (cs, ws) (b :: blocks))
      with (foldl parse_srt_step (parse_srt_step (cs, ws) b) blocks).
    rewrite parse_srt_step_frame, IH, fmap_cons, fmap_cons.
    cbn [concat]. rewrite <- !app_assoc. reflexivity.
Qed.

Lemma parse_srt_step_short (st : list Cue * list warning) (block : str) :
  len (split_on NL (strip block)) < 3 -> parse_srt_step st block = st.
Proof.
  intros Hshort. unfold parse_srt_step. destruct st as [cs ws].
  destruct (strip block); [reflexivity|].
  destruct (Z.ltb_spec (len (split_on NL (z :: l))) 3); [reflexivity | lia].
Qed.

Lemma split_on_nil_inv (sep : Z) (s : str) (l0 l1 : str) (rest : list str) :
  split_on sep s = l0 :: l1 :: rest -> s <> [].
Proof. intros H ->. discriminate H. Qed.

Lemma py_getitem_0 {A} (x : A) (l : list A) : py_getitem (x :: l) 0 = Ok x.
Proof. exact (py_getitem_lookup (x :: l) 0 x eq_refl). Qed.

Lemma py_getitem_1 {A} (x y : A) (l : list A) : py_getitem (x :: y :: l) 1 = Ok y.
Proof. exact (py_getitem_lookup (x :: y :: l) 1 y eq_refl). Qed.

Lemma parse_srt_step_bad_timing (cs : list Cue) (ws : list warning)
    (block l0 l1 l2 : str) (rest : list str) :
  split_on NL (strip block) = l0 :: l1 :: l2 :: rest ->
  match_timing (strip l1) = None ->
  parse_srt_step (cs, ws) block
  = (cs, ws ++ [match py_int (strip l0) with
                | Ok index => BadTimestamp index
                | Raise e => MalformedBlock e
                end]).
Proof.
  intros Hlines Htiming. unfold parse_srt_step.
  pose proof (split_on_nil_inv _ _ _ _ _ Hlines) as Hne.
  destruct (strip block) as [|c s] eqn:Hs; [congruence|].
  rewrite Hlines.
  destruct (Z.ltb_spec (len (l0 :: l1 :: l2 :: rest)) 3) as [Hlt|_].
  { unfold len in Hlt. simpl in Hlt. lia. }
  unfold parse_block.
  rewrite py_getitem_0.
  cbn [mbind res_bind].
  destruct (py_int (strip l0)) as [index|e]; cbn [mbind res_bind]; [|reflexivity].
  rewrite py_getitem_1.
  cbn [mbind res_bind]. rewrite Htiming. reflexivity.
Qed.

Lemma parse_srt_step_cue (block : str) (c : Cue) :
  c ∈ fst (parse_srt_step ([], []) block) ->
  parse_srt_step ([], []) block = ([c], [])
  /\ exists l0 rest,
       split_on NL (strip block) = l0 :: rest
       /\ py_int (strip l0) = Ok (index c).
Proof.
  unfold parse_srt_step.
  destruct (strip block) as [|z s] eqn:Hs; [intros H; inversion H|].
  destruct (len _ <? 3); [intros H; inversion H|].
  unfold parse_block.
  destruct (split_on NL (z :: s)) as [|l0 rest] eqn:Hl.
  { cbn. intros H; inversion H. }
  rewrite py_getitem_0. cbn [mbind res_bind].
  destruct (py_int (strip l0)) as [idx|e] eqn:Hint; cbn [mbind res_bind];
    [|intros H; inversion H].
  destruct (py_getitem (l0 :: rest) 1) as [l1|e]; cbn [mbind res_bind];
    [|intros H; inversion H].
  destruct (match_timing (strip l1)) as [[g1 g2]|]; [|intros H; inversion H].
  destruct (parse_timestamp g1) as [t1|e]; cbn [mbind res_bind];
    [|intros H; inversion H].
  destruct (parse_timestamp g2) as [t2|e]; cbn [mbind res_bind];
    [|intros H; inversion H].
  cbn [fst app]. intros H.
  apply list_elem_of_singleton in H. subst c.
  split; [reflexivity|]. exists l0, rest. split; [reflexivity | exact Hint].
Qed.

Lemma py_slice_from_2 {A} (a b : A) (l : list A) :
  py_slice_from (a :: b :: l) 2 = l.
Proof.
  unfold py_slice_from, py_clamp, len. cbn [length].
  destruct (Z.ltb_spec 2 0); [lia|].
  rewrite Z.min_l by lia. reflexivity.
Qed.

(** What a block of three lines or more gives: its cue when the index
    line is an integer, the timing line matches and both of its times are
    read; one warning and no cue in every other case. *)
Lemma parse_srt_step_block (cs : list Cue) (ws : list warning)
    (block l0 l1 l2 : str) (rest : list str) :
  split_on NL (strip block) = l0 :: l1 :: l2 :: rest ->
  parse_srt_step (cs, ws) block
  = match py_int (strip l0) with
    | Raise e => (cs, ws ++ [MalformedBlock e])
    | Ok index =>
        match match_timing (strip l1) with
        | None => (cs, ws ++ [BadTimestamp index])
        | Some (g1, g2) =>
            match parse_timestamp g1 with
            | Raise e => (cs, ws ++ [MalformedBlock e])
            | Ok start_time =>
                match parse_timestamp g2 with
                | Raise e => (cs, ws ++ [MalformedBlock e])
                | Ok end_time =>
                    (cs ++ [{| index := index; start_time := start_time;
                               end_time := end_time;
                               text := strip (join [NL] (l2 :: rest));
                               translated_text := None |}], ws)
                end
            end
        end
    end.
Proof.
  intros Hlines. unfold parse_srt_step.
  pose proof (split_on_nil_inv _ _ _ _ _ Hlines) as Hne.
  destruct (strip block) as [|c s] eqn:Hs; [congruence|].
  rewrite Hlines.
  destruct (Z.ltb_spec (len (l0 :: l1 :: l2 :: rest)) 3) as [Hlt|_].
  { unfold len in Hlt. simpl in Hlt. lia. }
  unfold parse_block. rewrite py_getitem_0. cbn [mbind res_bind].
  destruct (py_int (strip l0)) as [index|e]; cbn [mbind res_bind]; [|reflexivity].
  rewrite py_getitem_1. cbn [mbind res_bind].
  destruct (match_timing (strip l1)) as [[g1 g2]|]; [|reflexivity].
  destruct (parse_timestamp g1) as [t1|e]; cbn [mbind res_bind]; [|reflexivity].
  destruct (parse_timestamp g2) as [t2|e]; cbn [mbind res_bind]; [|reflexivity].
  rewrite py_slice_from_2. reflexivity.
Qed.

(** C6, as the code has it: a block of fewer than three lines is skipped
    without any warning; a block of three lines or more is skipped with
    one warning when its timing line does not match [<start> --> <end>]
    (the warning names the index), when its index line is no integer, or
    when one of the two times of a matching timing line is not of the form
    [HH:MM:SS,mmm]; it gives its cue in every other case.  Nothing stops
    the parser: every block contributes its cue, or nothing, whatever the
    other blocks are, so the result lists the parsed cues in document
    order, each with the sequence number read from its index line. *)
Theorem parse_srt_skips_malformed :
  (forall st block,
      len (split_on NL (strip block)) < 3 -> parse_srt_step st block = st)
  /\ (forall cs ws block l0 l1 l2 rest,
        split_on NL (strip block) = l0 :: l1 :: l2 :: rest ->
        match_timing (strip l1) = None ->
        parse_srt_step (cs, ws) block
        = (cs, ws ++ [match py_int (strip l0) with
                      | Ok index => BadTimestamp index
                      | Raise e => MalformedBlock e
                      end]))
  /\ (forall content,
        parse_srt content
        = concat ((fun b => fst (parse_srt_step ([], []) b)) <$> srt_blocks content)
        /\ parse_srt_warnings content
           = concat ((fun b => snd (parse_srt_step ([], []) b)) <$> srt_blocks content))
  /\ (forall block c,
        c ∈ fst (parse_srt_step ([], []) block) ->
        parse_srt_step ([], []) block = ([c], [])
        /\ exists l0 rest,
             split_on NL (strip block) = l0 :: rest
             /\ py_int (strip l0) = Ok (index c))
  /\ (forall cs ws block l0 l1 l2 rest,
        split_on NL (strip block) = l0 :: l1 :: l2 :: rest ->
        parse_srt_step (cs, ws) block
        = match py_int (strip l0) with
          | Raise e => (cs, ws ++ [MalformedBlock e])
          | Ok index =>
              match match_timing (strip l1) with
              | None => (cs, ws ++ [BadTimestamp index])
              | Some (g1, g2) =>
                  match parse_timestamp g1 with
                  | Raise e => (cs, ws ++ [MalformedBlock e])
                  | Ok start_time =>
                      match parse_timestamp g2 with
                      | Raise e => (cs, ws ++ [MalformedBlock e])
                      | Ok end_time =>
                          (cs ++ [{| index := index; start_time := start_time;
                                     end_time := end_time;
                                     text := strip (join [NL] (l2 :: rest));
                                     translated_text := None |}], ws)
                      end
                  end
              end
          end)
  /\ parse_srt_log
       (u "1" ++ [NL] ++ u "xx --> yy" ++ [NL] ++ u "one"
        ++ [NL; NL]
        ++ u "2" ++ [NL] ++ u "00:00:03,000 --> 00:00:04,000" ++ [NL] ++ u "two")
     = ([{| index := 2; start_time := 3000; end_time := 4000; text := u "two";
            translated_text := None |}],
        [MalformedBlock ValueError]).
Proof.
  split; [exact parse_srt_step_short|].
  split; [exact parse_srt_step_bad_timing|].
  split; [|split; [exact parse_srt_step_cue|]].
  { intros content. unfold parse_srt, parse_srt_warnings, parse_srt_log.
    rewrite parse_srt_loop. split; reflexivity. }
  split; [exact parse_srt_step_block | reflexivity].
Qed.

Lemma parse_srt_skips_malformed_witness :
  parse_srt_step ([], []) (u "1" ++ [NL] ++ u "00:00:00,000 --> 00:00:01,000")
  = ([], []).
Proof.
  exact (proj1 parse_srt_skips_malformed ([], [])
           (u "1" ++ [NL] ++ u "00:00:00,000 --> 00:00:01,000") eq_refl).
Defined.

(** The input that C6 as stated does not cover: a document whose only
    block has two lines is skipped, and no warning is printed. *)
Lemma parse_srt_short_block_no_warning :
  srt_blocks (u "1" ++ [NL] ++ u "00:00:00,000 --> 00:00:01,000")
  = [u "1" ++ [NL] ++ u "00:00:00,000 --> 00:00:01,000"]
  /\ len (split_on NL (strip (u "1" ++ [NL] ++ u "00:00:00,000 --> 00:00:01,000"))) = 2
  /\ parse_srt (u "1" ++ [NL] ++ u "00:00:00,000 --> 00:00:01,000") = []
  /\ parse_srt_warnings (u "1" ++ [NL] ++ u "00:00:00,000 --> 00:00:01,000") = [].
Proof. repeat split; reflexivity. Qed.

(** A block with a bad timing line, by contrast, leaves a warning, and the
    blocks around it are parsed. *)
Example parse_srt_bad_timing_example :
  parse_srt_log
    (u "1" ++ [NL] ++ u "00:00:01,000 --> 00:00:02,000" ++ [NL] ++ u "one"
     ++ [NL; NL]
     ++ u "2" ++ [NL] ++ u "00:00:03,000 -> 00:00:04,000" ++ [NL] ++ u "two"
     ++ [NL; NL]
     ++ u "7" ++ [NL] ++ u "00:00:05,000 --> 00:00:06,000" ++ [NL] ++ u "three")
  = ([ {| index := 1; start_time := 1000; end_time := 2000; text := u "one";
          translated_text := None |};
       {| index := 7; start_time := 5000; end_time := 6000; text := u "three";
          translated_text := None |} ],
     [BadTimestamp 2]).
Proof. reflexivity. Qed.


(** * [str(n)] and [int()] *)

Lemma int_digits_ascii (a d : Z) (prev : bool) (rest : str) :
  0 <= d < 10 ->
  int_digits a prev ((48 + d) :: rest) = int_digits (10 * a + d) true rest.
Proof. intros Hd. cbn [int_digits]. rewrite decimal_ascii by assumption. reflexivity. Qed.

Lemma len_snoc_pow (ds : str) (d : Z) :
  10 ^ len (ds ++ [d]) = 10 * 10 ^ len ds.
Proof.
  unfold len. rewrite length_app. simpl length.
  replace (Z.of_nat (length ds + 1)) with (Z.succ (Z.of_nat (length ds))) by lia.
  apply Z.pow_succ_r. lia.
Qed.

Lemma digits_aux_spec (fuel : nat) :
  forall (n : Z) (acc : str),
    (0 < fuel)%nat -> 0 <= n < 10 ^ Z.of_nat fuel ->
    exists ds,
      digits_aux fuel n acc = ds ++ acc
      /\ ds <> []
      /\ Forall (fun c => 48 <= c <= 57) ds
      /\ (forall a prev rest,
           int_digits a prev (ds ++ rest)
           = int_digits (a * 10 ^ len ds + n) true rest)
      /\ (forall k, 1 <= k -> n < 10 ^ k -> len ds <= k).
Proof.
  induction fuel as [|f IH]; intros n acc Hf Hn; [lia|].
  cbn [digits_aux]. cbv zeta.
  assert (Hmod : 0 <= n mod 10 < 10) by (apply Z.mod_pos_bound; lia).
  destruct (Z.eqb_spec (n / 10) 0) as [Hq|Hq].
  - exists [48 + n mod 10]. split; [reflexivity|]. split; [discriminate|].
    split; [constructor; [lia | constructor]|].
    split; [|intros k Hk _; change (len [48 + n mod 10]) with 1; lia].
    intros a prev rest. cbn [app]. rewrite int_digits_ascii by assumption.
    f_equal. change (len [48 + n mod 10]) with 1.
    Z.div_mod_to_equations. lia.
  - assert (Hn10 : 10 <= n) by (Z.div_mod_to_equations; lia).
    assert (Hf1 : (0 < f)%nat).
    { destruct f; [|lia]. change (10 ^ Z.of_nat 1) with 10 in Hn. lia. }
    assert (Hq' : 0 <= n / 10 < 10 ^ Z.of_nat f).
    { split; [Z.div_mod_to_equations; lia|].
      apply Z.div_lt_upper_bound; [lia|].
      replace (Z.of_nat (S f)) with (Z.succ (Z.of_nat f)) in Hn by lia.
      rewrite Z.pow_succ_r in Hn by lia. lia. }
    destruct (IH (n / 10) ((48 + n mod 10) :: acc) Hf1 Hq')
      as (ds & Heq & Hne & Hall & Hval & Hlen).
    exists (ds ++ [48 + n mod 10]).
    split; [rewrite Heq, <- app_assoc; reflexivity|].
    split; [destruct ds; discriminate|].
    split; [apply Forall_app; split; [exact Hall | constructor; [lia | constructor]]|].
    split.
    + intros a prev rest. rewrite <- app_assoc. cbn [app].
      rewrite Hval, int_digits_ascii by assumption. f_equal.
      rewrite len_snoc_pow.
      Z.div_mod_to_equations. nia.
    + intros k Hk Hnk.
      assert (Hk2 : 2 <= k).
      { destruct (Z.eq_dec k 1) as [->|]; [|lia].
        change (10 ^ 1) with 10 in Hnk. lia. }
      assert (Hq10 : n / 10 < 10 ^ (k - 1)).
      { apply Z.div_lt_upper_bound; [lia|].
        replace k with (Z.succ (k - 1)) in Hnk by lia.
        rewrite Z.pow_succ_r in Hnk by lia. lia. }
      specialize (Hlen (k - 1) ltac:(lia) Hq10).
      unfold len in *. rewrite length_app. cbn [length]. lia.
Qed.

Lemma digits_fuel (n : Z) :
  0 <= n -> 0 <= n < 10 ^ Z.of_nat (S (Z.to_nat (Z.log2 n))).
Proof.
  intros Hn. split; [assumption|].
  pose proof (Z.log2_nonneg n) as Hl.
  replace (Z.of_nat (S (Z.to_nat (Z.log2 n)))) with (Z.succ (Z.log2 n)) by lia.
  destruct (Z.eq_dec n 0) as [->|Hne].
  - reflexivity.
  - destruct (Z.log2_spec n ltac:(lia)) as [_ Hlt].
    eapply Z.lt_le_trans; [exact Hlt|].
    apply Z.pow_le_mono_l. lia.
Qed.

(** The digits printed for a number denote that number. *)
Lemma digits_value (n : Z) :
  0 <= n -> int_digits 0 false (digits n) = Some n.
Proof.
  intros Hn. unfold digits.
  destruct (digits_aux_spec (S (Z.to_nat (Z.log2 n))) n [] ltac:(lia)
              (digits_fuel n Hn))
    as (ds & Heq & Hne & Hall & Hval & Hlen).
  rewrite Heq, app_nil_r. specialize (Hval 0 false []).
  rewrite app_nil_r in Hval. rewrite Hval. cbn [int_digits]. apply f_equal. lia.
Qed.

Lemma digits_spec (n : Z) :
  0 <= n ->
  digits n <> []
  /\ Forall (fun c => 48 <= c <= 57) (digits n)
  /\ (n < 10 ^ int_max_str_digits -> py_int (digits n) = Ok n).
Proof.
  intros Hn. unfold digits.
  pose proof (digits_fuel n Hn) as Hfuel.
  destruct (digits_aux_spec (S (Z.to_nat (Z.log2 n))) n [] ltac:(lia) Hfuel)
    as (ds & Heq & Hne & Hall & Hval & Hlen).
  rewrite Heq, app_nil_r. split; [exact Hne|]. split; [exact Hall|].
  intros Hlimit. unfold py_int.
  rewrite limit_short
    by (apply Hlen; [unfold int_max_str_digits; lia | exact Hlimit]).
  destruct ds as [|c ds]; [congruence|].
  assert (Hc : 48 <= c <= 57) by (inversion Hall; assumption).
  destruct (Z.eqb_spec c 43); [lia|]. destruct (Z.eqb_spec c 45); [lia|].
  specialize (Hval 0 false []). rewrite app_nil_r in Hval.
  rewrite Hval. cbn [int_digits]. apply f_equal. lia.
Qed.

Lemma py_str_spec (n : Z) :
  0 <= n ->
  py_str n <> []
  /\ Forall (fun c => 48 <= c <= 57) (py_str n)
  /\ (n < 10 ^ int_max_str_digits -> py_int (py_str n) = Ok n).
Proof.
  intros Hn. unfold py_str.
  destruct (Z.ltb_spec n 0); [lia|]. apply digits_spec. assumption.
Qed.


(** * The generated document after normalisation *)

Lemma replace_crlf_cons (c : Z) (s : str) :
  c <> CR -> replace_crlf (c :: s) = c :: replace_crlf s.
Proof.
  intros Hc. destruct s as [|d s]; [reflexivity|].
  cbn [replace_crlf]. destruct (Z.eqb_spec c CR); [contradiction|]. reflexivity.
Qed.

Lemma replace_crlf_app (s rest : str) :
  CR ∉ s ->
  replace_crlf (s ++ CR :: NL :: rest) = s ++ NL :: replace_crlf rest.
Proof.
  induction s as [|c s IH]; intros Hcr.
  - reflexivity.
  - apply not_elem_of_cons in Hcr as [Hc Hs].
    cbn [app]. rewrite replace_crlf_cons by congruence.
    rewrite IH by assumption. reflexivity.
Qed.

Lemma replace_crlf_crfree (s : str) : CR ∉ s -> replace_crlf s = s.
Proof.
  induction s as [|c s IH]; intros Hcr; [reflexivity|].
  apply not_elem_of_cons in Hcr as [Hc Hs].
  rewrite replace_crlf_cons by congruence. rewrite IH by assumption. reflexivity.
Qed.

Lemma replace_char_absent (a b : Z) (s : str) : a ∉ s -> replace_char a b s = s.
Proof.
  induction s as [|c s IH]; intros Ha; [reflexivity|].
  apply not_elem_of_cons in Ha as [Hc Hs].
  unfold replace_char in *. cbn [fmap list_fmap].
  destruct (Z.eqb_spec c a); [congruence|]. f_equal. apply IH. assumption.
Qed.

Lemma replace_crlf_join (lines : list str) :
  Forall (fun l => CR ∉ l) lines ->
  replace_crlf (join [CR; NL] lines) = join [NL] lines.
Proof.
  induction 1 as [|p ps Hp Hps IH]; [reflexivity|].
  destruct ps as [|q ps].
  - cbn [join]. apply replace_crlf_crfree. assumption.
  - change (join [CR; NL] (p :: q :: ps)) with (p ++ CR :: NL :: join [CR; NL] (q :: ps)).
    rewrite replace_crlf_app by assumption. rewrite IH. reflexivity.
Qed.

Lemma join_absent (a : Z) (sep : str) (lines : list str) :
  a ∉ sep -> Forall (fun l => a ∉ l) lines -> a ∉ join sep lines.
Proof.
  intros Hsep. induction 1 as [|p ps Hp Hps IH]; [apply not_elem_of_nil|].
  destruct ps as [|q ps]; [exact Hp|].
  change (join sep (p :: q :: ps)) with (p ++ sep ++ join sep (q :: ps)).
  rewrite !elem_of_app. tauto.
Qed.

(** The characters of a printed time below 100 hours: digits, colons and
    one comma. *)
Lemma format_timestamp_chars (ms : Z) :
  0 <= ms < 360000000 ->
  length (format_timestamp ms) = 12%nat
  /\ Forall (fun c => 48 <= c <= 58 \/ c = 44) (format_timestamp ms).
Proof.
  intros Hms. rewrite format_timestamp_fields by assumption. cbv zeta.
  split; [reflexivity|].
  repeat (constructor; [Z.div_mod_to_equations; lia|]). constructor.
Qed.

Lemma ascii_digits_absent (a : Z) (s : str) :
  ~ (48 <= a <= 57) -> Forall (fun c => 48 <= c <= 57) s -> a ∉ s.
Proof.
  intros Ha Hs Hin. rewrite Forall_forall in Hs. apply Ha, Hs, Hin.
Qed.

Lemma timestamp_chars_absent (a : Z) (s : str) :
  ~ (48 <= a <= 58 \/ a = 44) -> Forall (fun c => 48 <= c <= 58 \/ c = 44) s -> a ∉ s.
Proof.
  intros Ha Hs Hin. rewrite Forall_forall in Hs. apply Ha, Hs, Hin.
Qed.

Lemma timing_line_absent (a : Z) (c : Cue) :
  0 <= start_time c < 360000000 -> 0 <= end_time c < 360000000 ->
  ~ (48 <= a <= 58 \/ a = 44) -> a <> 32 -> a <> 45 -> a <> 62 ->
  a ∉ timing_line c.
Proof.
  intros Hs He Ha H32 H45 H62. unfold timing_line.
  rewrite !elem_of_app. intros [Hin|[Hin|Hin]].
  - revert Hin. apply timestamp_chars_absent; [assumption|].
    apply format_timestamp_chars. assumption.
  - change (u " --> ") with [32; 45; 45; 62; 32] in Hin.
    repeat (apply elem_of_cons in Hin as [Hin|Hin]; [congruence|]).
    inversion Hin.
  - revert Hin. apply timestamp_chars_absent; [assumption|].
    apply format_timestamp_chars. assumption.
Qed.


(** * Blank lines and blocks *)


Lemma ends_clean_tail (c : Z) (s : str) :
  ends_clean (c :: s) -> s <> [] -> ends_clean s.
Proof.
  intros (s0 & e & Heq & He) Hne.
  destruct s0 as [|c0 s0].
  - injection Heq as _ ->. congruence.
  - injection Heq as _ ->. eauto.
Qed.

Lemma ends_clean_space_head (c : Z) (s : str) :
  ends_clean (c :: s) -> Py_UNICODE_ISSPACE c = true -> s <> [].
Proof.
  intros (s0 & e & Heq & He) Hc ->.
  destruct s0 as [|c0 [|c1 s0]]; try discriminate.
  injection Heq as ->. congruence.
Qed.

Lemma ends_clean_app (s t : str) : ends_clean t -> ends_clean (s ++ t).
Proof.
  intros (t0 & e & -> & He). exists (s ++ t0), e.
  rewrite app_assoc. auto.
Qed.

(** The rest of a match of [\s*\n]: text after the subject does not change
    the match when the subject ends with a character that is no space. *)
Lemma re_star_space_app (s tail : str) :
  forall (k : str -> str -> option str) (g : str -> option str),
    (forall m r, k m r = g r) ->
    (forall r, r <> [] -> g (r ++ tail) = (fun x => x ++ tail) <$> g r) ->
    ends_clean s ->
    re_star Py_UNICODE_ISSPACE (s ++ tail) k
    = (fun x => x ++ tail) <$> re_star Py_UNICODE_ISSPACE s k.
Proof.
  induction s as [|c s IH]; intros k g Hk Hg Hend.
  - destruct Hend as (s0 & e & Heq & _). destruct s0; discriminate.
  - cbn [app re_star].
    destruct (Py_UNICODE_ISSPACE c) eqn:Hc.
    + pose proof (ends_clean_space_head c s Hend Hc) as Hne.
      rewrite (IH (fun m r => k (c :: m) r) g)
        by (auto; eapply ends_clean_tail; eassumption).
      destruct (re_star Py_UNICODE_ISSPACE s _) as [x|]; [reflexivity|].
      cbn [fmap option_fmap option_map].
      rewrite !Hk. apply (Hg (c :: s)). discriminate.
    + rewrite !Hk. apply (Hg (c :: s)). discriminate.
Qed.

Lemma blank_at_app (s tail : str) :
  ends_clean s -> blank_at (s ++ tail) = (fun x => x ++ tail) <$> blank_at s.
Proof.
  intros Hend. destruct s as [|c s].
  - destruct Hend as (s0 & e & Heq & _). destruct s0; discriminate.
  - unfold blank_at. cbn [app re_lit].
    destruct (Z.eqb_spec c NL) as [->|Hc]; [|reflexivity].
    assert (Hne : s <> []) by (eapply ends_clean_space_head; [eassumption | reflexivity]).
    apply (re_star_space_app s tail _ (fun r => re_lit [NL] r (fun s => Some s))).
    + reflexivity.
    + intros [|d r] Hr; [congruence|]. cbn [app re_lit].
      destruct (d =? NL); reflexivity.
    + eapply ends_clean_tail; eassumption.
Qed.

Lemma find_blank_cons (c : Z) (s : str) :
  find_blank (c :: s)
  = match blank_at (c :: s) with
    | Some r => Some ([], r)
    | None =>
        match find_blank s with
        | Some (b, r) => Some (c :: b, r)
        | None => None
        end
    end.
Proof. reflexivity. Qed.

Lemma find_blank_none_tail (c : Z) (s : str) :
  find_blank (c :: s) = None -> blank_at (c :: s) = None /\ find_blank s = None.
Proof.
  rewrite find_blank_cons.
  destruct (blank_at (c :: s)); [discriminate|].
  destruct (find_blank s) as [[b r]|]; [discriminate|]. auto.
Qed.

(** A text without a blank line that ends with a character that is no
    space: the search goes on in what follows it. *)
Lemma find_blank_app (s tail : str) :
  ends_clean s -> find_blank s = None ->
  find_blank (s ++ tail)
  = match find_blank tail with
    | Some (b, r) => Some (s ++ b, r)
    | None => None
    end.
Proof.
  induction s as [|c s IH]; intros Hend Hnone.
  - destruct Hend as (s0 & e & Heq & _). destruct s0; discriminate.
  - apply find_blank_none_tail in Hnone as [Hat Hrest].
    cbn [app]. rewrite find_blank_cons.
    change (c :: s ++ tail) with ((c :: s) ++ tail).
    rewrite blank_at_app, Hat by assumption.
    cbn [fmap option_fmap option_map].
    destruct s as [|d s].
    + cbn [app]. destruct (find_blank tail) as [[b r]|]; reflexivity.
    + assert (Hend' : ends_clean (d :: s)).
      { apply (ends_clean_tail c); [exact Hend | discriminate]. }
      rewrite (IH Hend' Hrest).
      destruct (find_blank tail) as [[b r]|]; reflexivity.
Qed.

Lemma find_blank_separator (d : Z) (rest : str) :
  Py_UNICODE_ISSPACE d = false ->
  find_blank (NL :: NL :: d :: rest) = Some ([], d :: rest).
Proof.
  intros Hd. rewrite find_blank_cons. unfold blank_at.
  cbn [re_lit re_star].
  change (NL =? NL) with true. change (Py_UNICODE_ISSPACE NL) with true.
  cbv iota. rewrite Hd.
  destruct (Z.eqb_spec d NL) as [->|_]; [discriminate Hd|]. reflexivity.
Qed.

Lemma join_cons_cons (sep p q : str) (ps : list str) :
  join sep (p :: q :: ps) = p ++ sep ++ join sep (q :: ps).
Proof. reflexivity. Qed.

Lemma join_starts_clean (sep b : str) (bs : list str) :
  starts_clean b -> starts_clean (join sep (b :: bs)).
Proof.
  intros (c & s' & -> & Hc). destruct bs as [|q bs].
  - exists c, s'. auto.
  - rewrite join_cons_cons. exists c, (s' ++ sep ++ join sep (q :: bs)). auto.
Qed.

Lemma join_ends_clean (sep : str) (bs : list str) :
  Forall (fun b => ends_clean b) bs -> bs <> [] -> ends_clean (join sep bs).
Proof.
  induction 1 as [|b bs Hb Hbs IH]; intros Hne; [congruence|].
  destruct bs as [|q bs]; [exact Hb|].
  rewrite join_cons_cons, app_assoc. apply ends_clean_app, IH. discriminate.
Qed.

Lemma split_blank_fuel_join (blocks : list str) :
  Forall (fun b => starts_clean b /\ ends_clean b /\ find_blank b = None) blocks ->
  blocks <> [] ->
  forall fuel, (length blocks <= S fuel)%nat ->
    split_blank_fuel fuel (join [NL; NL] blocks) = blocks.
Proof.
  induction 1 as [|b bs (Hs & He & Hn) Hbs IH]; intros Hne fuel Hfuel; [congruence|].
  destruct bs as [|q bs].
  - cbn [join]. destruct fuel; cbn [split_blank_fuel]; [reflexivity|].
    rewrite Hn. reflexivity.
  - destruct fuel as [|f]; [simpl in Hfuel; lia|].
    rewrite join_cons_cons. cbn [split_blank_fuel].
    assert (Hq : starts_clean (join [NL; NL] (q :: bs))).
    { apply join_starts_clean. inversion Hbs as [|? ? (Hqs & _) _]. exact Hqs. }
    destruct Hq as (d & rest & Hj & Hd). rewrite Hj.
    rewrite find_blank_app by assumption.
    cbn [app]. rewrite find_blank_separator by assumption.
    rewrite app_nil_r, <- Hj. f_equal.
    apply IH; [discriminate | simpl in *; lia].
Qed.

Lemma join_length_blocks (sep : str) (blocks : list str) :
  Forall (fun b => b <> []) blocks ->
  (length blocks <= length (join sep blocks))%nat.
Proof.
  induction 1 as [|b bs Hb Hbs IH]; [simpl; lia|].
  destruct bs as [|q bs].
  - destruct b; [congruence | simpl; lia].
  - rewrite join_cons_cons, !length_app.
    destruct b; [congruence|]. simpl in *. lia.
Qed.

(** Splitting the blocks joined by blank lines gives the blocks back. *)
Lemma split_blank_join (blocks : list str) :
  Forall (fun b => starts_clean b /\ ends_clean b /\ find_blank b = None) blocks ->
  blocks <> [] ->
  split_blank (join [NL; NL] blocks) = blocks.
Proof.
  intros Hall Hne. unfold split_blank.
  apply split_blank_fuel_join; [assumption | assumption |].
  etransitivity; [apply (join_length_blocks [NL; NL])|lia].
  eapply Forall_impl; [exact Hall|].
  intros b ((c & s' & -> & _) & _). discriminate.
Qed.


(** * Strings that are their own [strip()] *)


Lemma drop_while_length (p : Z -> bool) (s : str) :
  (length (drop_while p s) <= length s)%nat.
Proof.
  induction s as [|c s IH]; simpl; [lia|]. destruct (p c); simpl; lia.
Qed.

Lemma rstrip_length (s : str) : (length (rstrip s) <= length s)%nat.
Proof.
  unfold rstrip. rewrite length_rev.
  etransitivity; [apply drop_while_length|]. rewrite length_rev. lia.
Qed.

Lemma strip_fixed_ends (s : str) :
  strip s = s -> s <> [] -> starts_clean s /\ ends_clean s.
Proof.
  intros Hfix Hne. unfold strip in Hfix.
  assert (Hl : lstrip s = s).
  { destruct s as [|c s]; [congruence|]. unfold lstrip in *. simpl in *.
    destruct (Py_UNICODE_ISSPACE c); [|reflexivity].
    pose proof (drop_while_length Py_UNICODE_ISSPACE s) as H1.
    pose proof (rstrip_length (drop_while Py_UNICODE_ISSPACE s)) as H2.
    apply (f_equal length) in Hfix. simpl in Hfix. lia. }
  rewrite Hl in Hfix. split.
  - destruct s as [|c s]; [congruence|]. exists c, s. split; [reflexivity|].
    unfold lstrip in Hl. simpl in Hl.
    destruct (Py_UNICODE_ISSPACE c); [|reflexivity].
    pose proof (drop_while_length Py_UNICODE_ISSPACE s) as H1.
    apply (f_equal length) in Hl. simpl in Hl. lia.
  - unfold rstrip in Hfix.
    destruct (rev s) as [|e t] eqn:Hrev.
    { apply (f_equal (@rev Z)) in Hrev. rewrite rev_involutive in Hrev.
      simpl in Hrev. congruence. }
    assert (Hs : s = rev t ++ [e]).
    { apply (f_equal (@rev Z)) in Hrev. rewrite rev_involutive in Hrev.
      exact Hrev. }
    exists (rev t), e. split; [exact Hs|].
    simpl in Hfix. destruct (Py_UNICODE_ISSPACE e); [|reflexivity].
    pose proof (drop_while_length Py_UNICODE_ISSPACE t) as H1.
    apply (f_equal length) in Hfix. rewrite length_rev in Hfix.
    rewrite Hs, length_app, length_rev in Hfix. simpl in Hfix. lia.
Qed.

Lemma strip_of_clean (s : str) : starts_clean s -> ends_clean s -> strip s = s.
Proof.
  intros (c & s' & -> & Hc) (s0 & e & Heq & He).
  unfold strip. rewrite lstrip_clean by assumption.
  rewrite Heq. apply rstrip_clean. assumption.
Qed.

Lemma rstrip_app_space (s : str) (x : Z) :
  Py_UNICODE_ISSPACE x = true -> rstrip (s ++ [x]) = rstrip s.
Proof.
  intros Hx. unfold rstrip. rewrite rev_app_distr. simpl. rewrite Hx. reflexivity.
Qed.

(** * Lines *)

Lemma split_on_cons (sep : Z) (s : str) :
  exists l ls, split_on sep s = l :: ls.
Proof.
  destruct s as [|c s]; simpl; [eauto|].
  destruct (c =? sep); [eauto|]. destruct (split_on sep s); eauto.
Qed.

Lemma split_on_app_sep (sep : Z) (s t : str) :
  sep ∉ s -> split_on sep (s ++ sep :: t) = s :: split_on sep t.
Proof.
  induction s as [|c s IH]; intros Hs.
  - simpl. rewrite Z.eqb_refl. reflexivity.
  - apply not_elem_of_cons in Hs as [Hc Hs]. cbn [app split_on].
    destruct (Z.eqb_spec c sep); [congruence|].
    rewrite IH by assumption. reflexivity.
Qed.

Lemma join_split_on (sep : Z) (s : str) : join [sep] (split_on sep s) = s.
Proof.
  induction s as [|c s IH]; [reflexivity|].
  cbn [split_on]. destruct (split_on_cons sep s) as (l & ls & Hsp).
  rewrite Hsp in *. destruct (Z.eqb_spec c sep) as [->|Hc].
  - rewrite join_cons_cons, IH. reflexivity.
  - destruct ls as [|q ls].
    + cbn [join] in *. rewrite IH. reflexivity.
    + rewrite join_cons_cons in *. rewrite <- IH. reflexivity.
Qed.

(** * A lazy group that has to take a whole prefix *)

Lemma re_plus_lazy_exact {R} (p : Z -> bool) (m r : str) :
  forall (k : str -> str -> option R) (x : R),
    m <> [] -> Forall (fun c => p c = true) m ->
    (forall m1 m2, m = m1 ++ m2 -> m1 <> [] -> m2 <> [] -> k m1 (m2 ++ r) = None) ->
    k m r = Some x ->
    re_plus_lazy p (m ++ r) k = Some x.
Proof.
  induction m as [|c m IH]; intros k x Hne Hp Hfail Hk; [congruence|].
  inversion Hp as [|? ? Hc Hm]; subst.
  cbn [app re_plus_lazy]. rewrite Hc.
  destruct m as [|d m].
  - cbn [app]. rewrite Hk. reflexivity.
  - rewrite (Hfail [c] (d :: m)) by (try reflexivity; discriminate).
    apply IH; [discriminate | assumption | | exact Hk].
    intros m1 m2 Heq Hm1 Hm2. apply (Hfail (c :: m1) m2); [|discriminate|assumption].
    rewrite Heq. reflexivity.
Qed.


(** * Reading back one generated block *)

#[local] Abbreviation tchar c := (48 <= c <= 58 \/ c = 44)%Z.

Lemma tchar_not_space (c : Z) : tchar c -> Py_UNICODE_ISSPACE c = false.
Proof. intros Hc. apply not_space_spec. lia. Qed.

Lemma tchar_is_dot (c : Z) : tchar c -> is_dot c = true.
Proof.
  intros Hc. unfold is_dot. destruct (Z.eqb_spec c NL) as [->|]; [|reflexivity].
  unfold NL in Hc. lia.
Qed.

Lemma clean_of_chars (P : Z -> Prop) (s : str) :
  (forall c, P c -> Py_UNICODE_ISSPACE c = false) ->
  Forall P s -> s <> [] -> starts_clean s /\ ends_clean s.
Proof.
  intros HP Hs Hne. split.
  - destruct s as [|c s]; [congruence|]. exists c, s.
    split; [reflexivity|]. apply HP. inversion Hs; assumption.
  - destruct (rev s) as [|e t] eqn:Hrev.
    { apply (f_equal (@rev Z)) in Hrev. rewrite rev_involutive in Hrev.
      simpl in Hrev. congruence. }
    apply (f_equal (@rev Z)) in Hrev. rewrite rev_involutive in Hrev.
    simpl in Hrev. exists (rev t), e. split; [exact Hrev|].
    apply HP. rewrite Forall_forall in Hs. apply Hs.
    rewrite Hrev. apply elem_of_app. right. left.
Qed.

Lemma match_timing_last (g1 F2 : str) :
  F2 <> [] -> Forall (fun c => tchar c) F2 ->
  re_plus_lazy is_dot F2
    (fun g2 s =>
       match s with
       | c :: _ => if Py_UNICODE_ISSPACE c then Some (g1, g2) else None
       | [] => Some (g1, g2)
       end)
  = Some (g1, F2).
Proof.
  intros Hne Hall. rewrite <- (app_nil_r F2) at 1.
  apply re_plus_lazy_exact.
  - exact Hne.
  - eapply Forall_impl; [exact Hall|]. intros c Hc. apply tchar_is_dot. exact Hc.
  - intros m1 m2 Heq _ Hm2. destruct m2 as [|t m2]; [congruence|].
    cbn [app]. rewrite tchar_not_space; [reflexivity|].
    rewrite Forall_forall in Hall. apply Hall.
    rewrite Heq. apply elem_of_app. right. left.
  - reflexivity.
Qed.

Lemma match_timing_generated (F1 F2 : str) :
  F1 <> [] -> F2 <> [] ->
  Forall (fun c => tchar c) F1 -> Forall (fun c => tchar c) F2 ->
  match_timing (F1 ++ u " --> " ++ F2) = Some (F1, F2).
Proof.
  intros Hne1 Hne2 Hall1 Hall2. unfold match_timing.
  change (u " --> ") with [32; 45; 45; 62; 32].
  change (u "-->") with [45; 45; 62].
  apply re_plus_lazy_exact.
  - exact Hne1.
  - eapply Forall_impl; [exact Hall1|]. intros c Hc. apply tchar_is_dot. exact Hc.
  - intros m1 m2 Heq _ Hm2. destruct m2 as [|t m2]; [congruence|].
    assert (Ht : tchar t).
    { rewrite Forall_forall in Hall1. apply Hall1.
      rewrite Heq. apply elem_of_app. right. left. }
    cbn [app re_star]. rewrite (tchar_not_space t Ht).
    cbn [re_lit]. destruct (Z.eqb_spec t 45); [lia | reflexivity].
  - destruct F2 as [|t F2']; [congruence|].
    assert (Ht : tchar t) by (inversion Hall2; assumption).
    cbn [app re_star re_lit].
    change (Py_UNICODE_ISSPACE 32) with true.
    change (Py_UNICODE_ISSPACE 45) with false.
    change (45 =? 45) with true. change (62 =? 62) with true.
    cbv iota. cbn [re_star]. rewrite (tchar_not_space t Ht).
    rewrite (match_timing_last F1 (t :: F2') Hne2 Hall2). reflexivity.
Qed.

Lemma find_blank_no_newline (s : str) : NL ∉ s -> find_blank s = None.
Proof.
  induction s as [|c s IH]; intros Hs; [reflexivity|].
  apply not_elem_of_cons in Hs as [Hc Hs].
  rewrite find_blank_cons, IH by assumption.
  unfold blank_at. cbn [re_lit].
  destruct (Z.eqb_spec c NL); [congruence | reflexivity].
Qed.

Lemma find_blank_newline_clean (t : str) :
  starts_clean t ->
  find_blank (NL :: t)
  = match find_blank t with
    | Some (b, r) => Some (NL :: b, r)
    | None => None
    end.
Proof.
  intros (c & s' & -> & Hc). rewrite find_blank_cons.
  unfold blank_at. cbn [re_lit re_star].
  change (NL =? NL) with true. cbv iota. rewrite Hc.
  destruct (Z.eqb_spec c NL) as [->|_]; [discriminate Hc | reflexivity].
Qed.

Lemma digit_chars_facts (s : str) :
  Forall (fun c => 48 <= c <= 57) s -> s <> [] ->
  starts_clean s /\ ends_clean s /\ (NL ∉ s) /\ (CR ∉ s).
Proof.
  intros Hs Hne.
  destruct (clean_of_chars (fun c => 48 <= c <= 57) s) as [H1 H2];
    [intros c Hc; apply not_space_spec; lia | assumption | assumption |].
  repeat split; try assumption;
    apply ascii_digits_absent; try assumption; unfold NL, CR; lia.
Qed.

Lemma timing_line_facts (c : Cue) :
  0 <= start_time c < 360000000 -> 0 <= end_time c < 360000000 ->
  starts_clean (timing_line c) /\ ends_clean (timing_line c)
  /\ (NL ∉ timing_line c) /\ (CR ∉ timing_line c)
  /\ match_timing (timing_line c)
     = Some (format_timestamp (start_time c), format_timestamp (end_time c)).
Proof.
  intros Hs He.
  destruct (format_timestamp_chars _ Hs) as [Hl1 Hc1].
  destruct (format_timestamp_chars _ He) as [Hl2 Hc2].
  assert (Hn1 : format_timestamp (start_time c) <> []).
  { intros H0. rewrite H0 in Hl1. discriminate. }
  assert (Hn2 : format_timestamp (end_time c) <> []).
  { intros H0. rewrite H0 in Hl2. discriminate. }
  split; [|split; [|split; [|split]]].
  - destruct (clean_of_chars _ _ tchar_not_space Hc1 Hn1) as [(d & s' & Heq & Hd) _].
    unfold timing_line. rewrite Heq. eauto.
  - destruct (clean_of_chars _ _ tchar_not_space Hc2 Hn2) as [_ Hend].
    unfold timing_line. rewrite app_assoc. apply ends_clean_app. exact Hend.
  - apply timing_line_absent; try assumption; unfold NL; lia.
  - apply timing_line_absent; try assumption; unfold CR; lia.
  - apply match_timing_generated; assumption.
Qed.

Lemma roundtrip_cue_times (c : Cue) :
  roundtrip_cue c ->
  0 <= start_time c < 360000000 /\ 0 <= end_time c < 360000000.
Proof. intros (H1 & H2 & _). lia. Qed.

(** A generated block is its own [strip()] and has no blank line. *)
Lemma generated_block_clean (i : Z) (c : Cue) :
  0 <= i -> roundtrip_cue c ->
  let block := join [NL] [py_str i; timing_line c; text c] in
  starts_clean block /\ ends_clean block /\ find_blank block = None.
Proof.
  intros Hi Hc.
  destruct (roundtrip_cue_times c Hc) as [Hs He].
  destruct Hc as (_ & _ & Hne & Hstrip & Hcr & Hblank).
  destruct (py_str_spec i Hi) as (Hpne & Hpd & _).
  destruct (digit_chars_facts _ Hpd Hpne) as (Hp1 & Hp2 & Hp3 & _).
  destruct (timing_line_facts c Hs He) as (Ht1 & Ht2 & Ht3 & _ & _).
  destruct (strip_fixed_ends _ Hstrip Hne) as [Hx1 Hx2].
  cbv zeta. cbn [join].
  split; [|split].
  - destruct Hp1 as (d & s' & -> & Hd). cbn [app]. eauto.
  - rewrite !app_assoc. apply ends_clean_app. exact Hx2.
  - rewrite find_blank_app by (try assumption; apply find_blank_no_newline; assumption).
    cbn [app].
    rewrite find_blank_newline_clean
      by (destruct Ht1 as (d & s' & -> & Hd); cbn [app]; eauto).
    rewrite find_blank_app by (try assumption; apply find_blank_no_newline; assumption).
    cbn [app]. rewrite find_blank_newline_clean by assumption.
    rewrite Hblank. reflexivity.
Qed.

Lemma parse_srt_step_clean (cs : list Cue) (ws : list warning) (block : str) :
  strip block = block -> block <> [] ->
  parse_srt_step (cs, ws) block
  = if len (split_on NL block) <? 3 then (cs, ws)
    else match parse_block (split_on NL block) with
         | Ok (Parsed c) => (cs ++ [c], ws)
         | Ok (Skipped w) => (cs, ws ++ [w])
         | Raise e => (cs, ws ++ [MalformedBlock e])
         end.
Proof.
  intros Hstrip Hne. unfold parse_srt_step. rewrite Hstrip.
  destruct block; [congruence | reflexivity].
Qed.

(** The parser reads a generated block back as the cue it was generated
    from, numbered as in the document. *)
Lemma parse_srt_step_generated (cs : list Cue) (ws : list warning) (i : Z) (c : Cue) :
  0 <= i < 10 ^ int_max_str_digits -> roundtrip_cue c ->
  parse_srt_step (cs, ws) (join [NL] [py_str i; timing_line c; text c])
  = (cs ++ [{| index := i; start_time := start_time c; end_time := end_time c;
               text := text c; translated_text := None |}], ws).
Proof.
  intros [Hi Hlimit] Hc.
  destruct (generated_block_clean i c Hi Hc) as (Hb1 & Hb2 & _).
  destruct (roundtrip_cue_times c Hc) as [Hs He].
  destruct Hc as (_ & _ & Hne & Hstrip & Hcr & Hblank).
  destruct (py_str_spec i Hi) as (Hpne & Hpd & Hint).
  specialize (Hint Hlimit).
  destruct (digit_chars_facts _ Hpd Hpne) as (Hp1 & Hp2 & Hp3 & _).
  destruct (timing_line_facts c Hs He) as (Ht1 & Ht2 & Ht3 & _ & Hmatch).
  rewrite parse_srt_step_clean;
    [| apply strip_of_clean; assumption
     | destruct Hb1 as (d & s' & -> & _); discriminate].
  cbn [join app]. rewrite split_on_app_sep by assumption.
  rewrite split_on_app_sep by assumption.
  destruct (split_on_cons NL (text c)) as (l & ls & Hsplit).
  pose proof (join_split_on NL (text c)) as Hjoin.
  rewrite Hsplit in *.
  destruct (Z.ltb_spec (len (py_str i :: timing_line c :: l :: ls)) 3) as [Hlt|_].
  { unfold len in Hlt. simpl in Hlt. lia. }
  unfold parse_block. rewrite py_getitem_0, py_getitem_1.
  cbn [mbind res_bind].
  rewrite (strip_of_clean (py_str i)) by assumption.
  rewrite Hint. cbn [mbind res_bind].
  rewrite (strip_of_clean (timing_line c)) by assumption.
  rewrite Hmatch.
  rewrite !parse_format_timestamp by assumption. cbn [mbind res_bind].
  rewrite py_slice_from_2, Hjoin, Hstrip. reflexivity.
Qed.


(** * Round trip through the generator and the parser *)


Lemma generate_lines_crfree (cues : list Cue) :
  Forall roundtrip_cue cues ->
  forall i, 0 <= i ->
    Forall (fun l => CR ∉ l) (generate_lines false i cues).
Proof.
  induction 1 as [|c cues Hc Hcues IH]; intros i Hi; [constructor|].
  cbn [generate_lines cue_lines andb app].
  destruct (roundtrip_cue_times c Hc) as [Hs He].
  destruct (py_str_spec i Hi) as (Hpne & Hpd & _).
  destruct (digit_chars_facts _ Hpd Hpne) as (_ & _ & _ & Hp).
  destruct (timing_line_facts c Hs He) as (_ & _ & _ & Ht & _).
  destruct Hc as (_ & _ & _ & _ & Hcr & _).
  repeat (constructor; [first [assumption | apply not_elem_of_nil]|]).
  apply IH. lia.
Qed.

Lemma join_generate_lines (cues : list Cue) :
  cues <> [] ->
  forall i,
    join [NL] (generate_lines false i cues)
    = join [NL; NL] (generated_blocks i cues) ++ [NL].
Proof.
  induction cues as [|c cues IH]; intros Hne i; [congruence|].
  destruct cues as [|c2 cues].
  - cbn [generate_lines cue_lines generated_blocks join andb app].
    repeat (rewrite <- app_assoc; cbn [app]). reflexivity.
  - specialize (IH ltac:(discriminate) (i + 1)).
    change (generate_lines false i (c :: c2 :: cues))
      with (py_str i :: timing_line c :: text c :: []
              :: generate_lines false (i + 1) (c2 :: cues)).
    change (generated_blocks i (c :: c2 :: cues))
      with (join [NL] [py_str i; timing_line c; text c]
              :: generated_blocks (i + 1) (c2 :: cues)).
    remember (generate_lines false (i + 1) (c2 :: cues)) as ls eqn:Hls.
    remember (generated_blocks (i + 1) (c2 :: cues)) as bs eqn:Hbs.
    destruct ls as [|l ls]; [discriminate Hls|].
    destruct bs as [|b bs]; [discriminate Hbs|].
    rewrite !join_cons_cons, IH. cbn [join].
    repeat (rewrite <- app_assoc; cbn [app]). reflexivity.
Qed.

Lemma generated_blocks_clean (cues : list Cue) :
  Forall roundtrip_cue cues ->
  forall i, 0 <= i ->
    Forall (fun b => starts_clean b /\ ends_clean b /\ find_blank b = None)
      (generated_blocks i cues).
Proof.
  induction 1 as [|c cues Hc Hcues IH]; intros i Hi; [constructor|].
  cbn [generated_blocks]. constructor.
  - apply (generated_block_clean i c Hi Hc).
  - apply IH. lia.
Qed.

Lemma parse_generated_blocks (cues : list Cue) :
  Forall roundtrip_cue cues ->
  forall i cs ws, 0 <= i -> i + len cues <= 10 ^ int_max_str_digits ->
    foldl parse_srt_step (cs, ws) (generated_blocks i cues)
    = (cs ++ renumbered i cues, ws).
Proof.
  induction 1 as [|c cues Hc Hcues IH]; intros i cs ws Hi Hlimit.
  - simpl. rewrite app_nil_r. reflexivity.
  - assert (Hlen : len (c :: cues) = 1 + len cues)
      by (unfold len; cbn [length]; lia).
    pose proof (len_nonneg cues) as Hpos.
    cbn [generated_blocks renumbered].
    change (foldl parse_srt_step (cs, ws) (?b :: ?bs))
      with (foldl parse_srt_step (parse_srt_step (cs, ws) b) bs).
    rewrite parse_srt_step_generated by (try assumption; lia).
    rewrite IH by lia. rewrite <- app_assoc. reflexivity.
Qed.

Lemma generated_document_blocks (cues : list Cue) :
  Forall roundtrip_cue cues -> cues <> [] ->
  srt_blocks (generate_srt cues false) = generated_blocks 1 cues.
Proof.
  intros Hall Hne. unfold srt_blocks, generate_srt.
  pose proof (generate_lines_crfree cues Hall 1 ltac:(lia)) as Hcr.
  rewrite replace_crlf_cons by (unfold BOM, CR; lia).
  rewrite replace_crlf_join by assumption.
  assert (Hcr' : CR ∉ BOM :: join [NL] (generate_lines false 1 cues)).
  { apply not_elem_of_cons. split; [unfold BOM, CR; lia|].
    apply join_absent; [|assumption].
    intros Hin. apply list_elem_of_singleton in Hin. discriminate. }
  rewrite replace_char_absent by assumption.
  change (BOM =? BOM) with true. cbv iota.
  rewrite join_generate_lines by assumption.
  pose proof (generated_blocks_clean cues Hall 1 ltac:(lia)) as Hclean.
  assert (Hbne : generated_blocks 1 cues <> []).
  { destruct cues; [congruence | discriminate]. }
  assert (Hstart : starts_clean (join [NL; NL] (generated_blocks 1 cues))).
  { destruct (generated_blocks 1 cues) as [|b bs]; [congruence|].
    apply join_starts_clean. inversion Hclean as [|? ? (Hb & _) _]. exact Hb. }
  assert (Hend : ends_clean (join [NL; NL] (generated_blocks 1 cues))).
  { apply join_ends_clean; [|assumption].
    eapply Forall_impl; [exact Hclean|]. intros b (_ & Hb & _). exact Hb. }
  assert (Hstrip : strip (join [NL; NL] (generated_blocks 1 cues) ++ [NL])
                   = join [NL; NL] (generated_blocks 1 cues)).
  { unfold strip. destruct Hstart as (d & s' & Heq & Hd).
    rewrite Heq. cbn [app]. rewrite lstrip_clean by assumption.
    change (d :: s' ++ [NL]) with ((d :: s') ++ [NL]). rewrite <- Heq.
    rewrite rstrip_app_space by reflexivity.
    destruct Hend as (s0 & e & Heq' & He). rewrite Heq'.
    apply rstrip_clean. assumption. }
  rewrite Hstrip. apply split_blank_join; assumption.
Qed.

Lemma parse_generated_document (cues : list Cue) :
  Forall roundtrip_cue cues -> len cues < 10 ^ int_max_str_digits ->
  parse_srt_log (generate_srt cues false) = (renumbered 1 cues, []).
Proof.
  intros Hall Hlimit. destruct cues as [|c cues]; [reflexivity|].
  unfold parse_srt_log.
  rewrite generated_document_blocks by (try assumption; discriminate).
  rewrite parse_generated_blocks by (try assumption; lia). reflexivity.
Qed.

Lemma renumbered_fields (cues : list Cue) :
  forall i,
    length (renumbered i cues) = length cues
    /\ start_time <$> renumbered i cues = start_time <$> cues
    /\ end_time <$> renumbered i cues = end_time <$> cues
    /\ text <$> renumbered i cues = text <$> cues
    /\ index <$> renumbered i cues = seqZ i (len cues).
Proof.
  induction cues as [|c cues IH]; intros i.
  - repeat split; reflexivity.
  - destruct (IH (i + 1)) as (H1 & H2 & H3 & H4 & H5).
    cbn [renumbered]. rewrite !fmap_cons. cbn [length].
    rewrite H1, H2, H3, H4, H5. repeat split; try reflexivity.
    unfold len. cbn [length].
    rewrite (seqZ_cons i) by lia. f_equal. f_equal; lia.
Qed.

(** C1, as the code has it: for cues with times from 0 to below 100 hours
    ([start_time <= end_time]) whose source text is not empty, is its own
    [strip()], and contains neither a carriage return nor a blank line,
    parsing the document generated with [use_translated = False] yields as
    many cues, in the same order, with the same start times, end times and
    source texts; they are numbered 1..N and no warning is printed.  The
    sequence numbers are within what [int()] converts: there are fewer
    than [10 ^ int_max_str_digits] cues. *)
Theorem generate_parse_roundtrip (cues : list Cue) :
  Forall roundtrip_cue cues ->
  len cues < 10 ^ int_max_str_digits ->
  parse_srt (generate_srt cues false) = renumbered 1 cues
  /\ length (parse_srt (generate_srt cues false)) = length cues
  /\ start_time <$> parse_srt (generate_srt cues false) = start_time <$> cues
  /\ end_time <$> parse_srt (generate_srt cues false) = end_time <$> cues
  /\ text <$> parse_srt (generate_srt cues false) = text <$> cues
  /\ index <$> parse_srt (generate_srt cues false) = seqZ 1 (len cues)
  /\ parse_srt_warnings (generate_srt cues false) = [].
Proof.
  intros Hall Hlimit. unfold parse_srt, parse_srt_warnings.
  rewrite parse_generated_document by assumption. cbn [fst snd].
  split; [reflexivity|].
  destruct (renumbered_fields cues 1) as (H1 & H2 & H3 & H4 & H5).
  repeat split; assumption.
Qed.

Lemma generate_parse_roundtrip_witness :
  parse_srt
    (generate_srt
       [ {| index := 7; start_time := 62345; end_time := 63000;
            text := u "hello" ++ [NL] ++ u "world"; translated_text := None |};
         {| index := 9; start_time := 70000; end_time := 359999999;
            text := u "a b"; translated_text := Some (u "X") |} ]
       false)
  = [ {| index := 1; start_time := 62345; end_time := 63000;
         text := u "hello" ++ [NL] ++ u "world"; translated_text := None |};
      {| index := 2; start_time := 70000; end_time := 359999999;
         text := u "a b"; translated_text := None |} ].
Proof.
  refine (proj1 (generate_parse_roundtrip _ _ _)).
  - repeat constructor; cbn [start_time end_time text]; try lia;
      try discriminate; try reflexivity;
      apply (bool_decide_unpack _); vm_compute; exact I.
  - apply Z.ltb_lt. vm_compute. reflexivity.
Defined.

(** Inputs that C1 as stated does not cover; each cue has times
    [0 <= start_time <= end_time] and a non-empty source text.  The text
    [" a"] comes back as ["a"]; a text with a blank line is cut at the blank
    line (the rest forms a block of its own, which is skipped); a carriage
    return comes back as a newline; an end time of 100 hours makes the block
    unreadable, so that no cue comes back. *)
Lemma generate_parse_not_identity :
  (text <$> parse_srt
              (generate_srt
                 [ {| index := 1; start_time := 0; end_time := 1000;
                      text := u " a"; translated_text := None |} ]
                 false)
   = [u "a"]
   /\ [u "a"] <> [u " a"])
  /\ (text <$> parse_srt
                 (generate_srt
                    [ {| index := 1; start_time := 0; end_time := 1000;
                         text := u "a" ++ [NL; NL] ++ u "b";
                         translated_text := None |} ]
                    false)
      = [u "a"]
      /\ [u "a"] <> [u "a" ++ [NL; NL] ++ u "b"])
  /\ (text <$> parse_srt
                 (generate_srt
                    [ {| index := 1; start_time := 0; end_time := 1000;
                         text := u "a" ++ [CR] ++ u "b";
                         translated_text := None |} ]
                    false)
      = [u "a" ++ [NL] ++ u "b"]
      /\ [u "a" ++ [NL] ++ u "b"] <> [u "a" ++ [CR] ++ u "b"])
  /\ length (parse_srt
               (generate_srt
                  [ {| index := 1; start_time := 0; end_time := 360000000;
                       text := u "a"; translated_text := None |} ]
                  false))
     <> 1%nat.
Proof.
  repeat split; try reflexivity; discriminate.
Qed.


(** * The planner at the edges of its parameters *)

Lemma create_batches_zero_size {A} (cs : list A) (context_size : Z) :
  create_batches cs 0 context_size = Raise ValueError.
Proof. reflexivity. Qed.

Lemma create_batches_negative_size {A} (cs : list A) (batch_size context_size : Z) :
  batch_size < 0 -> create_batches cs batch_size context_size = Ok [].
Proof.
  intros Hneg. unfold create_batches, py_range.
  destruct (Z.eqb_spec batch_size 0); [lia|].
  destruct (Z.ltb_spec 0 batch_size); [lia|].
  pose proof (len_nonneg cs) as Hlen.
  assert (Hn : (0 - len cs - batch_size - 1) / - batch_size <= 0).
  { apply Z.lt_succ_r. apply Z.div_lt_upper_bound; lia. }
  replace (Z.to_nat ((0 - len cs - batch_size - 1) / - batch_size)) with 0%nat by lia.
  reflexivity.
Qed.

(** A batch size of zero makes [range] raise; a negative one gives an
    empty range, hence no batch at all, whatever the cues are. *)
Theorem create_batches_degenerate_size {A} (cs : list A) (batch_size context_size : Z) :
  (batch_size = 0 -> create_batches cs batch_size context_size = Raise ValueError)
  /\ (batch_size < 0 -> create_batches cs batch_size context_size = Ok []).
Proof.
  split.
  - intros ->. apply create_batches_zero_size.
  - apply create_batches_negative_size.
Qed.

Lemma create_batches_degenerate_size_witness :
  create_batches [1; 2; 3] 0 2 = Raise ValueError
  /\ create_batches [1; 2; 3] (-1) 2 = Ok [].
Proof.
  split.
  - exact (proj1 (create_batches_degenerate_size [1; 2; 3] 0 2) eq_refl).
  - exact (proj2 (create_batches_degenerate_size [1; 2; 3] (-1) 2) eq_refl).
Defined.

(** The number of batches is the number of cues divided by the batch
    size, rounded up; the last batch ends at the last cue. *)
Theorem create_batches_count {A} (cs : list A) (batch_size context_size : Z) :
  0 < batch_size ->
  exists bl,
    create_batches cs batch_size context_size = Ok bl
    /\ len bl = (len cs + batch_size - 1) / batch_size
    /\ (forall b, last bl = Some b -> end_index b = len cs - 1).
Proof.
  intros Hbs.
  assert (Hq : 0 <= (len cs + batch_size - 1) / batch_size).
  { pose proof (len_nonneg cs). apply Z.div_pos; lia. }
  destruct (create_batches_lookup cs batch_size context_size Hbs)
    as (bl & Hbl & Hcover & Hat).
  exists bl. split; [exact Hbl|].
  assert (Hlen : len bl = (len cs + batch_size - 1) / batch_size).
  { unfold create_batches in Hbl. rewrite py_range_pos in Hbl by assumption.
    cbn [mbind res_bind] in Hbl. injection Hbl as <-.
    unfold len. rewrite !length_fmap, length_seq. unfold len in Hq.
    apply Z2Nat.id. exact Hq. }
  split; [exact Hlen|].
  intros b Hlast. rewrite last_lookup in Hlast.
  destruct (Hat _ b Hlast) as [Hb Hlt].
  assert (Hpos : (0 < length bl)%nat).
  { destruct bl; [discriminate Hlast | simpl; lia]. }
  set (k := pred (length bl)) in *. set (n := Z.to_nat batch_size) in *.
  assert (Hc : cues b = take n (drop (k * n) cs)).
  { rewrite Hb. apply batch_at_cues. assumption. }
  assert (He : end_index b = Z.of_nat k * batch_size + len (cues b) - 1).
  { rewrite Hb. reflexivity. }
  rewrite He, Hc. unfold len. rewrite length_take, length_drop.
  assert (Hcov : (length cs <= S k * n)%nat).
  { replace (S k) with (length bl) by (unfold k; lia). exact Hcover. }
  assert (Hkn : Z.of_nat k * batch_size = Z.of_nat (k * n)) by (unfold n; nia).
  rewrite Hkn. simpl in Hcov. lia.
Qed.

Lemma create_batches_count_witness :
  exists bl, create_batches [1; 2; 3; 4; 5] 2 2 = Ok bl /\ len bl = 3.
Proof.
  destruct (create_batches_count [1; 2; 3; 4; 5] 2 2 ltac:(lia))
    as (bl & Hbl & Hlen & _).
  exists bl. split; [exact Hbl | exact Hlen].
Defined.


(** * Timestamps outside the canonical texts *)

Lemma drop_while_snoc_clean (p : Z -> bool) (l : str) (c : Z) :
  p c = false -> exists l', drop_while p (l ++ [c]) = l' ++ [c].
Proof.
  intros Hc. induction l as [|d l IH]; simpl.
  - rewrite Hc. exists []. reflexivity.
  - destruct (p d); [exact IH|]. exists (d :: l). reflexivity.
Qed.

(** [rstrip] never reaches past a character that is no space. *)
Lemma rstrip_app_clean (s r : str) :
  ends_clean s -> exists r', rstrip (s ++ r) = s ++ r'.
Proof.
  intros (s0 & e & -> & He). revert s0.
  induction r as [|x r IH] using rev_ind; intros s0.
  - exists []. rewrite !app_nil_r. apply rstrip_clean. assumption.
  - destruct (Py_UNICODE_ISSPACE x) eqn:Hx.
    + rewrite app_assoc, rstrip_app_space by assumption. apply IH.
    + exists (r ++ [x]). rewrite app_assoc. apply rstrip_clean. assumption.
Qed.

Lemma strip_app_clean (s r : str) :
  starts_clean s -> ends_clean s -> exists r', strip (s ++ r) = s ++ r'.
Proof.
  intros (c & s' & Heq & Hc) Hend. unfold strip.
  assert (Hl : lstrip (s ++ r) = s ++ r).
  { rewrite Heq. cbn [app]. apply lstrip_clean. assumption. }
  rewrite Hl. apply rstrip_app_clean. assumption.
Qed.

Lemma match_timestamp_digits (a b c d e f g h i : Z) (rest : str) :
  0 <= a < 10 -> 0 <= b < 10 -> 0 <= c < 10 -> 0 <= d < 10 ->
  0 <= e < 10 -> 0 <= f < 10 -> 0 <= g < 10 -> 0 <= h < 10 -> 0 <= i < 10 ->
  match_timestamp
    ([48 + a; 48 + b; 58; 48 + c; 48 + d; 58; 48 + e; 48 + f; 44;
      48 + g; 48 + h; 48 + i] ++ rest)
  = Some ([48 + a; 48 + b], [48 + c; 48 + d], [48 + e; 48 + f],
          [48 + g; 48 + h; 48 + i]).
Proof.
  intros Ha Hb Hc Hd He Hf Hg Hh Hi. unfold match_timestamp.
  cbn [app re_count re_lit].
  repeat (first [rewrite is_decimal_ascii by assumption | rewrite Z.eqb_refl];
          cbn [re_count re_lit]).
  reflexivity.
Qed.

Lemma replace_period_digits (a b c d e f g h i sep : Z) (rest : str) :
  0 <= a < 10 -> 0 <= b < 10 -> 0 <= c < 10 -> 0 <= d < 10 ->
  0 <= e < 10 -> 0 <= f < 10 -> 0 <= g < 10 -> 0 <= h < 10 -> 0 <= i < 10 ->
  sep = 44 \/ sep = 46 ->
  replace_char 46 44
    ([48 + a; 48 + b; 58; 48 + c; 48 + d; 58; 48 + e; 48 + f; sep;
      48 + g; 48 + h; 48 + i] ++ rest)
  = [48 + a; 48 + b; 58; 48 + c; 48 + d; 58; 48 + e; 48 + f; 44;
     48 + g; 48 + h; 48 + i] ++ replace_char 46 44 rest.
Proof.
  intros Ha Hb Hc Hd He Hf Hg Hh Hi Hsep.
  unfold replace_char. rewrite fmap_app. f_equal. cbn [fmap list_fmap].
  destruct Hsep as [-> | ->];
    repeat match goal with
           | |- context [?x =? 46] => destruct (Z.eqb_spec x 46); try lia
           end;
    reflexivity.
Qed.

(** The parser reads the timestamp at the start of the text and ignores
    whatever follows it. *)
Theorem parse_timestamp_ignores_rest (a b c d e f g h i sep : Z) (rest : str) :
  0 <= a < 10 -> 0 <= b < 10 -> 0 <= c < 10 -> 0 <= d < 10 ->
  0 <= e < 10 -> 0 <= f < 10 -> 0 <= g < 10 -> 0 <= h < 10 -> 0 <= i < 10 ->
  sep = 44 \/ sep = 46 ->
  parse_timestamp
    ([48 + a; 48 + b; 58; 48 + c; 48 + d; 58; 48 + e; 48 + f; sep;
      48 + g; 48 + h; 48 + i] ++ rest)
  = Ok (((10 * a + b) * 3600 + (10 * c + d) * 60 + (10 * e + f)) * 1000
        + (100 * g + 10 * h + i)).
Proof.
  intros Ha Hb Hc Hd He Hf Hg Hh Hi Hsep. unfold parse_timestamp.
  rewrite replace_period_digits by assumption.
  destruct (strip_app_clean
              [48 + a; 48 + b; 58; 48 + c; 48 + d; 58; 48 + e; 48 + f; 44;
               48 + g; 48 + h; 48 + i] (replace_char 46 44 rest))
    as (r' & ->).
  - eexists _, _. split; [reflexivity|]. apply ascii_digit_not_space. assumption.
  - exists [48 + a; 48 + b; 58; 48 + c; 48 + d; 58; 48 + e; 48 + f; 44;
            48 + g; 48 + h], (48 + i).
    split; [reflexivity|]. apply ascii_digit_not_space. assumption.
  - rewrite match_timestamp_digits by assumption.
    rewrite !py_int_ascii2, py_int_ascii3 by assumption. reflexivity.
Qed.

Lemma parse_timestamp_ignores_rest_witness :
  parse_timestamp (u "01:02:03,004" ++ u "xyz") = Ok 3723004.
Proof.
  exact (parse_timestamp_ignores_rest 0 1 0 2 0 3 0 0 4 44 (u "xyz")
           ltac:(lia) ltac:(lia) ltac:(lia) ltac:(lia) ltac:(lia) ltac:(lia)
           ltac:(lia) ltac:(lia) ltac:(lia) (or_introl eq_refl)).
Defined.

Lemma int_digits_bound (g : str) :
  Forall (fun c => is_decimal c = true) g ->
  forall acc prev v,
    0 <= acc -> int_digits acc prev g = Some v ->
    acc * 10 ^ len g <= v < (acc + 1) * 10 ^ len g.
Proof.
  induction 1 as [|c g Hc Hg IH]; intros acc prev v Hacc Hv.
  - cbn [int_digits] in Hv. destruct prev; [|discriminate].
    injection Hv as <-. change (len (@nil Z)) with 0. lia.
  - cbn [int_digits] in Hv. unfold is_decimal in Hc.
    destruct (Py_UNICODE_TODECIMAL c) as [d|] eqn:Hd; [|discriminate].
    apply decimal_bounds in Hd.
    apply IH in Hv; [|lia].
    assert (Hpow : 10 ^ len (c :: g) = 10 * 10 ^ len g).
    { unfold len. cbn [length]. rewrite Nat2Z.inj_succ.
      apply Z.pow_succ_r. lia. }
    assert (Hp : 0 < 10 ^ len g) by (apply Z.pow_pos_nonneg; [lia | apply len_nonneg]).
    rewrite Hpow. nia.
Qed.

Lemma py_int_decimal_bound (g : str) (v : Z) :
  Forall (fun c => is_decimal c = true) g ->
  py_int g = Ok v -> 0 <= v < 10 ^ len g.
Proof.
  intros Hg Hv. unfold py_int in Hv.
  destruct g as [|c g]; [discriminate|].
  assert (Hc : is_decimal c = true) by (inversion Hg; assumption).
  destruct (Z.eqb_spec c 43) as [->|_]; [discriminate Hc|].
  destruct (Z.eqb_spec c 45) as [->|_]; [discriminate Hc|].
  destruct (int_digits 0 false (c :: g)) as [w|] eqn:Hw; [|discriminate].
  destruct (_ <? _); [discriminate|].
  injection Hv as <-.
  apply (int_digits_bound _ Hg) in Hw; lia.
Qed.

(** A time read by [parse_timestamp] is made of an hour and a minute
    and second field below 100 and a millisecond field below 1000. *)
Lemma parse_timestamp_fields (s : str) (v : Z) :
  parse_timestamp s = Ok v ->
  exists h m sec f,
    0 <= h < 100 /\ 0 <= m < 100 /\ 0 <= sec < 100 /\ 0 <= f < 1000
    /\ v = h * 3600000 + m * 60000 + sec * 1000 + f.
Proof.
  unfold parse_timestamp.
  destruct (match_timestamp _) as [[[[g1 g2] g3] g4]|] eqn:Hm; [|discriminate].
  unfold match_timestamp in Hm.
  apply re_count_inv in Hm as (m1 & r1 & _ & Hl1 & Hd1 & Hm).
  apply re_lit_inv in Hm as (r2 & _ & Hm).
  apply re_count_inv in Hm as (m2 & r3 & _ & Hl2 & Hd2 & Hm).
  apply re_lit_inv in Hm as (r4 & _ & Hm).
  apply re_count_inv in Hm as (m3 & r5 & _ & Hl3 & Hd3 & Hm).
  apply re_lit_inv in Hm as (r6 & _ & Hm).
  apply re_count_inv in Hm as (m4 & r7 & _ & Hl4 & Hd4 & Hm).
  injection Hm as <- <- <- <-.
  destruct (py_int m1) as [h|] eqn:H1; [|discriminate].
  destruct (py_int m2) as [m|] eqn:H2; [|discriminate].
  destruct (py_int m3) as [sec|] eqn:H3; [|discriminate].
  destruct (py_int m4) as [f|] eqn:H4; [|discriminate].
  cbn [mbind res_bind]. intros [= <-].
  apply (py_int_decimal_bound _ _ Hd1) in H1.
  apply (py_int_decimal_bound _ _ Hd2) in H2.
  apply (py_int_decimal_bound _ _ Hd3) in H3.
  apply (py_int_decimal_bound _ _ Hd4) in H4.
  unfold len in *. rewrite Hl1 in H1. rewrite Hl2 in H2.
  rewrite Hl3 in H3. rewrite Hl4 in H4.
  change (10 ^ Z.of_nat 2) with 100 in *. change (10 ^ Z.of_nat 3) with 1000 in *.
  exists h, m, sec, f. repeat split; lia.
Qed.

(** A time read by [parse_timestamp] lies between 0 and the value of
    [99:99:99,999]. *)
Theorem parse_timestamp_bounds (s : str) (v : Z) :
  parse_timestamp s = Ok v -> 0 <= v <= 362439999.
Proof.
  intros H. destruct (parse_timestamp_fields s v H) as (h & m & sec & f & ?).
  lia.
Qed.

Lemma parse_timestamp_bounds_witness : 0 <= 362439999 <= 362439999.
Proof.
  exact (parse_timestamp_bounds (u "99:99:99,999") 362439999 eq_refl).
Defined.

Lemma strip_head_clean (c : Z) (s : str) :
  Py_UNICODE_ISSPACE c = false -> exists s', strip (c :: s) = c :: s'.
Proof.
  intros Hc.
  destruct (strip_app_clean [c] s) as (r' & Hr).
  - exists c, []. auto.
  - exists [], c. auto.
  - exists r'. exact Hr.
Qed.

Lemma format_timestamp_negative (ms : Z) :
  ms < 0 -> parse_timestamp (format_timestamp ms) = Raise ValueError.
Proof.
  intros Hms. unfold parse_timestamp, format_timestamp, format_0d at 1.
  assert (Hh : ms / 1000 / 3600 < 0) by (Z.div_mod_to_equations; lia).
  destruct (Z.ltb_spec (ms / 1000 / 3600) 0); [|lia].
  cbn [app]. unfold replace_char. rewrite fmap_cons.
  change (45 =? 46) with false. cbv iota.
  destruct (strip_head_clean 45 ((fun c => if c =? 46 then 44 else c) <$>
              (replicate (2 - length [45] - length (digits (Z.abs (ms / 1000 / 3600)))) 48
               ++ digits (Z.abs (ms / 1000 / 3600))
               ++ [58] ++ format_0d 2 ((ms / 1000) mod 3600 / 60) ++ [58]
               ++ format_0d 2 ((ms / 1000) mod 60) ++ [44]
               ++ format_0d 3 (ms mod 1000))) eq_refl) as (s' & Hs).
  rewrite <- !app_assoc in *. cbn [app] in *.
  rewrite Hs. reflexivity.
Qed.

Lemma digits_three (n : Z) :
  100 <= n ->
  exists d1 d2 d3 rest,
    digits n = 48 + d1 :: 48 + d2 :: 48 + d3 :: rest
    /\ 0 <= d1 < 10 /\ 0 <= d2 < 10 /\ 0 <= d3 < 10.
Proof.
  intros Hn. destruct (digits_spec n ltac:(lia)) as (_ & Hall & _).
  assert (Hdec : Forall (fun c => is_decimal c = true) (digits n)).
  { eapply Forall_impl; [exact Hall|]. intros c Hc. cbv beta in Hc.
    replace c with (48 + (c - 48)) by lia. apply is_decimal_ascii. lia. }
  pose proof (int_digits_bound _ Hdec 0 false n ltac:(lia)
                (digits_value n ltac:(lia))) as Hb.
  destruct (digits n) as [|c1 [|c2 [|c3 rest]]] eqn:Hd.
  - change (10 ^ len (@nil Z)) with 1 in Hb. lia.
  - change (10 ^ len [c1]) with 10 in Hb. lia.
  - change (10 ^ len [c1; c2]) with 100 in Hb. lia.
  - inversion Hall as [|? ? H1 Hall1]; subst.
    inversion Hall1 as [|? ? H2 Hall2]; subst.
    inversion Hall2 as [|? ? H3 _]; subst.
    exists (c1 - 48), (c2 - 48), (c3 - 48), rest.
    split; [|lia]. repeat f_equal; lia.
Qed.

Lemma format_timestamp_wide (ms : Z) :
  360000000 <= ms -> parse_timestamp (format_timestamp ms) = Raise ValueError.
Proof.
  intros Hms. unfold parse_timestamp, format_timestamp, format_0d at 1.
  assert (Hh : 100 <= ms / 1000 / 3600) by (Z.div_mod_to_equations; lia).
  destruct (Z.ltb_spec (ms / 1000 / 3600) 0); [lia|].
  rewrite Z.abs_eq by lia.
  destruct (digits_three _ Hh) as (d1 & d2 & d3 & rest & Hd & H1 & H2 & H3).
  rewrite Hd. cbn [length app Nat.sub replicate].
  unfold replace_char. rewrite !fmap_cons.
  destruct (Z.eqb_spec (48 + d1) 46); [lia|].
  destruct (Z.eqb_spec (48 + d2) 46); [lia|].
  destruct (Z.eqb_spec (48 + d3) 46); [lia|].
  match goal with
  | |- context [strip (?a :: ?b :: ?c :: ?t)] =>
      destruct (strip_app_clean [a; b; c] t) as (r' & Hr)
  end.
  - eexists _, _. split; [reflexivity|]. apply ascii_digit_not_space. assumption.
  - exists [48 + d1; 48 + d2], (48 + d3).
    split; [reflexivity|]. apply ascii_digit_not_space. assumption.
  - cbn [app] in Hr. rewrite Hr. unfold match_timestamp.
    cbn [re_count re_lit]. rewrite !is_decimal_ascii by assumption.
    cbn [re_count re_lit].
    destruct (Z.eqb_spec (48 + d3) 58); [lia|]. reflexivity.
Qed.

(** Parsing a printed time gives the time back exactly when the time is
    from 0 to below 100 hours; for every other time the printed text is
    rejected. *)
Theorem parse_format_timestamp_range (ms : Z) :
  parse_timestamp (format_timestamp ms)
  = if (0 <=? ms) && (ms <? 360000000) then Ok ms else Raise ValueError.
Proof.
  destruct (Z.leb_spec 0 ms) as [H0|H0]; cbn [andb].
  - destruct (Z.ltb_spec ms 360000000) as [H1|H1].
    + apply parse_format_timestamp. lia.
    + apply format_timestamp_wide. exact H1.
  - apply format_timestamp_negative. exact H0.
Qed.


(** * What [strip()] returns *)

Lemma drop_while_head (p : Z -> bool) (s : str) :
  drop_while p s = []
  \/ exists c s', drop_while p s = c :: s' /\ p c = false.
Proof.
  induction s as [|c s IH]; simpl; [left; reflexivity|].
  destruct (p c) eqn:Hc; [exact IH|]. right. eauto.
Qed.

Lemma drop_while_suffix (p : Z -> bool) (s : str) :
  exists w, s = w ++ drop_while p s.
Proof.
  induction s as [|c s IH]; simpl; [exists []; reflexivity|].
  destruct (p c).
  - destruct IH as (w & Hw). exists (c :: w). cbn [app]. f_equal. exact Hw.
  - exists []. reflexivity.
Qed.

Lemma rstrip_prefix (t : str) : exists w, t = rstrip t ++ w.
Proof.
  unfold rstrip. destruct (drop_while_suffix Py_UNICODE_ISSPACE (rev t)) as (w & Hw).
  exists (rev w). rewrite <- rev_app_distr, <- Hw, rev_involutive. reflexivity.
Qed.

Lemma rstrip_result (t : str) : rstrip t = [] \/ ends_clean (rstrip t).
Proof.
  unfold rstrip.
  destruct (drop_while_head Py_UNICODE_ISSPACE (rev t)) as [->|(c & s' & -> & Hc)].
  - left. reflexivity.
  - right. exists (rev s'), c. auto.
Qed.

(** The result of [strip()] is empty, or starts and ends with characters
    that are no spaces. *)
Lemma strip_result (s : str) :
  strip s = [] \/ (starts_clean (strip s) /\ ends_clean (strip s)).
Proof.
  unfold strip.
  destruct (rstrip_result (lstrip s)) as [->|Hend]; [left; reflexivity|].
  right. split; [|exact Hend].
  destruct (rstrip_prefix (lstrip s)) as (w & Hw).
  destruct (drop_while_head Py_UNICODE_ISSPACE s) as [Hnil|(c & s' & Hl & Hc)].
  - unfold lstrip in *. rewrite Hnil in Hw.
    destruct (rstrip []) eqn:Hr; [|discriminate Hw].
    destruct Hend as (s0 & e & Heq & _). unfold lstrip in Heq.
    rewrite Hnil, Hr in Heq. destruct s0; discriminate.
  - unfold lstrip in *. rewrite Hl in *.
    destruct (rstrip (c :: s')) as [|d r] eqn:Hr.
    + destruct Hend as (s0 & e & Heq & _). destruct s0; discriminate.
    + injection Hw as -> _. eauto.
Qed.

Lemma strip_idempotent (s : str) : strip (strip s) = strip s.
Proof.
  destruct (strip_result s) as [->|[Hs He]]; [reflexivity|].
  apply strip_of_clean; assumption.
Qed.

Lemma strip_ends_clean_nonempty (x : str) : ends_clean x -> strip x <> [].
Proof.
  intros (s0 & e & -> & He). unfold strip, lstrip.
  destruct (drop_while_snoc_clean Py_UNICODE_ISSPACE s0 e He) as (l' & ->).
  rewrite rstrip_clean by assumption. destruct l'; discriminate.
Qed.

(** * Invariants of the parsed cues *)

Lemma ends_clean_suffix (a b : str) : ends_clean (a ++ b) -> b <> [] -> ends_clean b.
Proof.
  intros (s0 & e & Heq & He) Hb.
  destruct b as [|x b _] using rev_ind; [congruence|].
  rewrite app_assoc in Heq. apply app_inj_tail in Heq as [_ ->].
  exists b, e. auto.
Qed.

Lemma parse_srt_step_cue_fields (block : str) (c : Cue) :
  c ∈ fst (parse_srt_step ([], []) block) ->
  translated_text c = None
  /\ text c <> [] /\ strip (text c) = text c
  /\ 0 <= start_time c <= 362439999 /\ 0 <= end_time c <= 362439999.
Proof.
  unfold parse_srt_step.
  destruct (strip_result block) as [->|[_ Hend]]; [intros H; inversion H|].
  destruct (strip block) as [|z s] eqn:Hs; [intros H; inversion H|].
  destruct (Z.ltb_spec (len (split_on NL (z :: s))) 3) as [Hlt|Hlen];
    [intros H; inversion H|].
  pose proof (join_split_on NL (z :: s)) as Hjoin.
  destruct (split_on NL (z :: s)) as [|l0 [|l1 [|l2 rest]]] eqn:Hl;
    try (unfold len in Hlen; simpl in Hlen; lia).
  unfold parse_block. rewrite py_getitem_0, py_getitem_1.
  cbn [mbind res_bind].
  destruct (py_int (strip l0)) as [idx|e]; cbn [mbind res_bind];
    [|intros H; inversion H].
  destruct (match_timing (strip l1)) as [[g1 g2]|]; [|intros H; inversion H].
  destruct (parse_timestamp g1) as [t1|e] eqn:Ht1; cbn [mbind res_bind];
    [|intros H; inversion H].
  destruct (parse_timestamp g2) as [t2|e] eqn:Ht2; cbn [mbind res_bind];
    [|intros H; inversion H].
  cbn [fst app]. intros H. apply list_elem_of_singleton in H. subst c.
  cbn [translated_text text start_time end_time].
  rewrite py_slice_from_2.
  split; [reflexivity|]. split; [|split; [apply strip_idempotent|]].
  - apply strip_ends_clean_nonempty.
    rewrite !join_cons_cons in Hjoin.
    assert (Hne : join [NL] (l2 :: rest) <> []).
    { destruct rest as [|l3 rest].
      - cbn [join]. intros ->. cbn [join] in Hjoin.
        rewrite <- Hjoin in Hend.
        destruct Hend as (s0 & e & Heq & He).
        change (l0 ++ [NL] ++ l1 ++ [NL] ++ []) with (l0 ++ [NL] ++ l1 ++ [NL]) in Heq.
        rewrite !app_assoc in Heq. apply app_inj_tail in Heq as [_ <-].
        discriminate He.
      - rewrite join_cons_cons. destruct l2; discriminate. }
    rewrite <- Hjoin in Hend. rewrite !app_assoc in Hend.
    eapply ends_clean_suffix; [exact Hend | exact Hne].
  - destruct (parse_timestamp_fields _ _ Ht1) as (? & ? & ? & ? & ?).
    destruct (parse_timestamp_fields _ _ Ht2) as (? & ? & ? & ? & ?).
    split; lia.
Qed.

Lemma elem_of_concat {A} (x : A) (ls : list (list A)) :
  x ∈ concat ls -> exists l, x ∈ l /\ l ∈ ls.
Proof.
  induction ls as [|l ls IH]; cbn [concat]; [intros H; inversion H|].
  intros H. apply elem_of_app in H as [H|H].
  - exists l. split; [exact H | left].
  - destruct (IH H) as (l' & Hx & Hl'). exists l'. split; [exact Hx | right; exact Hl'].
Qed.

Lemma parse_srt_cue_block (content : str) (c : Cue) :
  c ∈ parse_srt content ->
  exists block,
    block ∈ srt_blocks content /\ c ∈ fst (parse_srt_step ([], []) block).
Proof.
  unfold parse_srt, parse_srt_log. rewrite parse_srt_loop. cbn [fst app].
  intros Hin. apply elem_of_concat in Hin as (cs & Hc & Hcs).
  apply list_elem_of_fmap in Hcs as (block & -> & Hb).
  exists block. split; [exact Hb | exact Hc].
Qed.

(** Every cue that [parse_srt] returns has no translation yet, a source
    text that is not empty and is its own [strip()], and times between 0
    and the value of [99:99:99,999]. *)
Theorem parse_srt_cue_invariants (content : str) (c : Cue) :
  c ∈ parse_srt content ->
  translated_text c = None
  /\ text c <> [] /\ strip (text c) = text c
  /\ 0 <= start_time c <= 362439999 /\ 0 <= end_time c <= 362439999.
Proof.
  intros Hin. destruct (parse_srt_cue_block content c Hin) as (block & _ & Hc).
  apply (parse_srt_step_cue_fields block c Hc).
Qed.

Lemma parse_srt_cue_invariants_witness :
  translated_text
    {| index := 7; start_time := 1000; end_time := 2000; text := u "one";
       translated_text := None |} = None
  /\ u "one" <> [] /\ strip (u "one") = u "one"
  /\ 0 <= 1000 <= 362439999 /\ 0 <= 2000 <= 362439999.
Proof.
  apply (parse_srt_cue_invariants
           (u " 7" ++ [CR; NL] ++ u "00:00:01.000 --> 00:00:02,000 X"
            ++ [CR; NL] ++ u " one ")).
  vm_compute. left.
Defined.

Lemma parse_srt_step_size (block : str) :
  (length (fst (parse_srt_step ([], []) block))
   + length (snd (parse_srt_step ([], []) block)) <= 1)%nat.
Proof.
  unfold parse_srt_step.
  destruct (strip block); [simpl; lia|].
  destruct (len _ <? 3); [simpl; lia|].
  destruct (parse_block _) as [[c|w]|e]; simpl; lia.
Qed.

(** A block gives at most one cue or one warning: the cues and the
    warnings together are never more than the blocks of the document. *)
Theorem parse_srt_block_count (content : str) :
  (length (parse_srt content) + length (parse_srt_warnings content)
   <= length (srt_blocks content))%nat.
Proof.
  unfold parse_srt, parse_srt_warnings, parse_srt_log.
  rewrite parse_srt_loop. cbn [fst snd app].
  induction (srt_blocks content) as [|b bs IH]; [simpl; lia|].
  rewrite !fmap_cons. cbn [concat length]. rewrite !length_app.
  pose proof (parse_srt_step_size b). lia.
Qed.


(** * Line endings and byte-order mark *)

Lemma replace_crlf_app_crfree (p r : str) :
  CR ∉ p -> replace_crlf (p ++ r) = p ++ replace_crlf r.
Proof.
  induction p as [|c p IH]; intros Hp; [reflexivity|].
  apply not_elem_of_cons in Hp as [Hc Hp]. cbn [app].
  rewrite replace_crlf_cons by congruence. rewrite IH by assumption. reflexivity.
Qed.

Lemma replace_crlf_cr_alone (r : str) :
  (forall r', r <> NL :: r') -> replace_crlf (CR :: r) = CR :: replace_crlf r.
Proof.
  intros Hr. destruct r as [|d r]; [reflexivity|].
  cbn [replace_crlf]. change (CR =? CR) with true. cbn [andb].
  destruct (Z.eqb_spec d NL) as [->|_]; [|reflexivity].
  exfalso. apply (Hr r). reflexivity.
Qed.

Lemma join_cr_head (q : str) (ps : list str) :
  NL ∉ q -> forall r', join [CR] (q :: ps) <> NL :: r'.
Proof.
  intros Hq r' Heq. destruct q as [|x q].
  - destruct ps as [|p ps]; [discriminate Heq|].
    rewrite join_cons_cons in Heq. discriminate Heq.
  - assert (x = NL) as ->.
    { destruct ps as [|p ps]; [|rewrite join_cons_cons in Heq];
        injection Heq as -> _; reflexivity. }
    apply Hq. left.
Qed.

Lemma replace_crlf_join_cr (lines : list str) :
  Forall (fun l => (CR ∉ l) /\ (NL ∉ l)) lines ->
  replace_crlf (join [CR] lines) = join [CR] lines.
Proof.
  induction 1 as [|p ps [Hp1 Hp2] Hps IH]; [reflexivity|].
  destruct ps as [|q ps].
  - cbn [join]. apply replace_crlf_crfree. assumption.
  - rewrite join_cons_cons. rewrite replace_crlf_app_crfree by assumption.
    cbn [app]. rewrite replace_crlf_cr_alone.
    + rewrite IH. reflexivity.
    + apply join_cr_head. inversion Hps as [|? ? [_ Hq] _]. exact Hq.
Qed.

Lemma replace_char_join_cr (lines : list str) :
  Forall (fun l => (CR ∉ l) /\ (NL ∉ l)) lines ->
  replace_char CR NL (join [CR] lines) = join [NL] lines.
Proof.
  induction 1 as [|p ps [Hp1 Hp2] Hps IH]; [reflexivity|].
  destruct ps as [|q ps].
  - cbn [join]. apply replace_char_absent. assumption.
  - rewrite !join_cons_cons. unfold replace_char in *.
    rewrite fmap_app. cbn [app fmap list_fmap]. change (CR =? CR) with true.
    cbv iota. rewrite IH. f_equal.
    apply (replace_char_absent CR NL p Hp1).
Qed.

Lemma srt_blocks_normalised (c1 c2 : str) :
  replace_char CR NL (replace_crlf c1) = replace_char CR NL (replace_crlf c2) ->
  srt_blocks c1 = srt_blocks c2.
Proof. intros H. unfold srt_blocks. rewrite H. reflexivity. Qed.

(** A document parses to the same cues and warnings whether its lines
    are ended by carriage return and newline, by a carriage return alone,
    or by a newline alone. *)
Theorem parse_srt_line_endings (lines : list str) :
  Forall (fun l => (CR ∉ l) /\ (NL ∉ l)) lines ->
  parse_srt_log (join [CR; NL] lines) = parse_srt_log (join [NL] lines)
  /\ parse_srt_log (join [CR] lines) = parse_srt_log (join [NL] lines).
Proof.
  intros Hlines.
  assert (Hcr : Forall (fun l => CR ∉ l) lines).
  { eapply Forall_impl; [exact Hlines|]. intros l [H _]. exact H. }
  assert (Hj : CR ∉ join [NL] lines).
  { apply join_absent; [|assumption].
    intros Hin. apply list_elem_of_singleton in Hin. discriminate. }
  assert (Hn : replace_char CR NL (replace_crlf (join [NL] lines)) = join [NL] lines).
  { rewrite replace_crlf_crfree by assumption.
    apply replace_char_absent. assumption. }
  unfold parse_srt_log. split; f_equal; apply srt_blocks_normalised; rewrite Hn.
  - rewrite replace_crlf_join by assumption. apply replace_char_absent. assumption.
  - rewrite replace_crlf_join_cr by assumption.
    apply replace_char_join_cr. assumption.
Qed.

Lemma parse_srt_line_endings_witness :
  parse_srt_log (join [CR; NL] [u "1"; u "00:00:01,000 --> 00:00:02,000"; u "one"])
  = parse_srt_log (join [NL] [u "1"; u "00:00:01,000 --> 00:00:02,000"; u "one"]).
Proof.
  refine (proj1 (parse_srt_line_endings
                   [u "1"; u "00:00:01,000 --> 00:00:02,000"; u "one"] _)).
  repeat constructor; apply (bool_decide_unpack _); vm_compute; exact I.
Defined.

(** One byte-order mark at the start of the document is dropped: a
    document that starts with the mark, and goes on with another
    character, parses as the document after the mark.  Only one mark is
    dropped: after a second mark the index line of the first block is no
    integer, and the block is skipped with a warning. *)
Theorem parse_srt_bom (content : str) :
  (head content <> Some BOM ->
   parse_srt_log (BOM :: content) = parse_srt_log content)
  /\ parse_srt_log
       (BOM :: BOM
        :: join [NL] [u "1"; u "00:00:01,000 --> 00:00:02,000"; u "one"])
     = ([], [MalformedBlock ValueError]).
Proof.
  split; [|reflexivity].
  intros Hhead. unfold parse_srt_log, srt_blocks.
  rewrite replace_crlf_cons by (unfold BOM, CR; lia).
  unfold replace_char at 1. rewrite fmap_cons.
  change (BOM =? CR) with false. cbv iota. change (BOM =? BOM) with true. cbv iota.
  fold (replace_char CR NL (replace_crlf content)).
  destruct content as [|c rest]; [reflexivity|].
  assert (Hc : c <> BOM) by (intros ->; apply Hhead; reflexivity).
  assert (Hnb : exists d r, replace_char CR NL (replace_crlf (c :: rest)) = d :: r
                            /\ d <> BOM).
  { destruct rest as [|d rest].
    - cbn. destruct (Z.eqb_spec c CR); eexists _, _; split; try reflexivity;
        [unfold NL, BOM; lia | exact Hc].
    - cbn [replace_crlf].
      destruct ((c =? CR) && (d =? NL)).
      + unfold replace_char. rewrite fmap_cons. change (NL =? CR) with false.
        cbv iota. eexists _, _. split; [reflexivity | unfold NL, BOM; lia].
      + unfold replace_char. rewrite fmap_cons.
        destruct (Z.eqb_spec c CR); eexists _, _; split; try reflexivity;
          [unfold NL, BOM; lia | exact Hc]. }
  destruct Hnb as (d & r & -> & Hd).
  destruct (Z.eqb_spec d BOM); [contradiction | reflexivity].
Qed.

Lemma parse_srt_bom_witness :
  parse_srt_log
    (BOM :: join [NL] [u "1"; u "00:00:01,000 --> 00:00:02,000"; u "one"])
  = ([{| index := 1; start_time := 1000; end_time := 2000; text := u "one";
         translated_text := None |}], []).
Proof.
  exact (eq_trans
           (proj1 (parse_srt_bom
                     (join [NL] [u "1"; u "00:00:01,000 --> 00:00:02,000"; u "one"]))
              ltac:(discriminate))
           eq_refl).
Defined.


(** * The merge of the translations of a batch *)

Lemma apply_translations_cons (batch : TranslationBatch nat) (i : nat) (r : nat)
    (t : str) (ts : list str) (h : heap) (failed : Z) :
  cues batch !! i = Some r ->
  apply_translations batch (Z.of_nat i) (t :: ts) h failed
  = apply_translations batch (Z.of_nat (S i)) ts (alter (merged t) r h)
      (failed + if bool_decide (t = []) then 1 else 0).
Proof.
  intros Hr. cbn [apply_translations]. rewrite (py_getitem_lookup _ _ _ Hr).
  cbn [mbind res_bind]. replace (Z.of_nat i + 1) with (Z.of_nat (S i)) by lia.
  destruct t as [|c t]; cbn [merged].
  - reflexivity.
  - rewrite bool_decide_eq_false_2 by discriminate. rewrite Z.add_0_r. reflexivity.
Qed.

Lemma apply_translations_merge_from (batch : TranslationBatch nat) :
  NoDup (cues batch) ->
  forall (ts : list str) (i : nat) (h : heap) (failed : Z),
    (i + length ts <= length (cues batch))%nat ->
    exists h',
      apply_translations batch (Z.of_nat i) ts h failed
      = Ok (h', failed + len (filter (fun t => t = []) ts))
      /\ length h' = length h
      /\ (forall (j : nat) r t,
            cues batch !! (i + j)%nat = Some r -> ts !! j = Some t ->
            h' !! r = merged t <$> h !! r)
      /\ (forall r, r ∉ take (length ts) (drop i (cues batch)) ->
            h' !! r = h !! r).
Proof.
  intros Hnd ts. induction ts as [|t ts IH]; intros i h failed Hi.
  - exists h. cbn [apply_translations]. rewrite filter_nil. unfold len.
    cbn [length]. rewrite Z.add_0_r. split; [reflexivity|].
    split; [reflexivity|]. split; [|reflexivity].
    intros j r t _ Ht. discriminate Ht.
  - cbn [length] in Hi.
    destruct (lookup_lt_is_Some_2 (cues batch) i ltac:(lia)) as [r0 Hr0].
    rewrite (apply_translations_cons batch i r0 t ts h failed Hr0).
    destruct (IH (S i) (alter (merged t) r0 h)
                (failed + if bool_decide (t = []) then 1 else 0) ltac:(lia))
      as (h' & Happ & Hlen & Hin & Hout).
    exists h'. split; [|split; [|split]].
    + assert (Hcount : len (filter (fun t : str => t = []) (t :: ts))
                       = (if bool_decide (t = []) then 1 else 0)
                         + len (filter (fun t : str => t = []) ts)).
      { rewrite filter_cons. unfold len.
        destruct (decide (t = [])) as [->|Hne].
        - rewrite bool_decide_eq_true_2 by reflexivity. cbn [length]. lia.
        - rewrite bool_decide_eq_false_2 by assumption. lia. }
      rewrite Happ, Hcount, Z.add_assoc. reflexivity.
    + rewrite Hlen. apply length_alter.
    + intros j r t' Hr Ht'. destruct j as [|j].
      * rewrite Nat.add_0_r in Hr. rewrite Hr0 in Hr. injection Hr as <-.
        injection Ht' as <-.
        rewrite Hout.
        -- rewrite list_lookup_alter. destruct (decide (r0 = r0)); [reflexivity|congruence].
        -- intros Hmem. apply elem_of_take in Hmem as (k & Hk & _).
           rewrite lookup_drop in Hk.
           pose proof (NoDup_lookup _ _ _ _ Hnd Hr0 Hk). lia.
      * cbn [lookup list_lookup] in Ht'.
        replace (i + S j)%nat with (S i + j)%nat in Hr by lia.
        rewrite (Hin j r t' Hr Ht').
        rewrite list_lookup_alter.
        destruct (decide (r0 = r)) as [->|_]; [|reflexivity].
        pose proof (NoDup_lookup _ _ _ _ Hnd Hr0 Hr). lia.
    + intros r Hr. cbn [length] in Hr.
      rewrite (drop_S _ _ _ Hr0) in Hr. cbn [take] in Hr.
      apply not_elem_of_cons in Hr as [Hne Hr].
      rewrite (Hout r Hr), list_lookup_alter.
      destruct (decide (r0 = r)); [congruence | reflexivity].
Qed.

(** The merge of the translations of a batch into its cues: the cue at
    each position gets the text received for that position, or its own
    source text when the text received is empty; each empty text is
    counted as one failure; no other cue changes. *)
Theorem apply_translations_merge (batch : TranslationBatch nat)
    (translations : list str) (h : heap) (failed : Z) :
  NoDup (cues batch) ->
  (length translations <= length (cues batch))%nat ->
  exists h',
    apply_translations batch 0 translations h failed
    = Ok (h', failed + len (filter (fun t => t = []) translations))
    /\ length h' = length h
    /\ (forall (j : nat) r t,
          cues batch !! j = Some r -> translations !! j = Some t ->
          h' !! r = merged t <$> h !! r)
    /\ (forall r, r ∉ take (length translations) (cues batch) ->
          h' !! r = h !! r).
Proof.
  intros Hnd Hlen.
  destruct (apply_translations_merge_from batch Hnd translations 0 h failed
              ltac:(lia)) as (h' & Happ & Hl & Hin & Hout).
  exists h'. split; [exact Happ|]. split; [exact Hl|]. split.
  - intros j r t. apply (Hin j r t).
  - intros r Hr. apply Hout. rewrite drop_0. exact Hr.
Qed.

Lemma apply_translations_merge_witness :
  exists h',
    apply_translations
      {| cues := [1%nat; 0%nat]; prev_context := []; next_context := [];
         start_index := 0; end_index := 1 |} 0 [u "uno"; []]
      [ {| index := 1; start_time := 0; end_time := 1; text := u "two";
           translated_text := None |};
        {| index := 2; start_time := 1; end_time := 2; text := u "one";
           translated_text := None |} ] 0
    = Ok (h', 1)
    /\ translated_text <$> h' = [Some (u "two"); Some (u "uno")].
Proof.
  destruct (apply_translations_merge
              {| cues := [1%nat; 0%nat]; prev_context := []; next_context := [];
                 start_index := 0; end_index := 1 |} [u "uno"; []]
              [ {| index := 1; start_time := 0; end_time := 1; text := u "two";
                   translated_text := None |};
                {| index := 2; start_time := 1; end_time := 2; text := u "one";
                   translated_text := None |} ] 0)
    as (h' & Happ & _).
  - apply (bool_decide_unpack _). vm_compute. exact I.
  - simpl. lia.
  - exists h'. split; [exact Happ|].
    vm_compute in Happ. injection Happ as <-. reflexivity.
Defined.

(** An empty batch slot is out of reach: more translations than cues make
    the merge raise. *)
Lemma apply_translations_excess (batch : TranslationBatch nat) (t : str)
    (h : heap) (failed : Z) (i : nat) :
  (length (cues batch) <= i)%nat ->
  apply_translations batch (Z.of_nat i) [t] h failed = Raise IndexError.
Proof.
  intros Hi. cbn [apply_translations]. unfold py_getitem.
  destruct (Z.ltb_spec (Z.of_nat i) 0) as [|_]; [lia|].
  destruct (Z.ltb_spec (Z.of_nat i) (len (cues batch))) as [Hlt|_];
    [unfold len in Hlt; lia|].
  rewrite andb_false_r. reflexivity.
Qed.


(** * The retry loop when a later request is answered *)

(** The first request that is answered with text ends the retry loop:
    after [k] requests without text ([k] below [MAX_RETRIES]) the answer
    to the next request is parsed and returned, [k + 1] requests were made,
    the delays 1 and 2 were taken before the second and third request, and
    no error is reported. *)
Theorem translate_batch_first_answer (h : heap) (batch : TranslationBatch nat)
    (target_lang : str) (w : world) (k : nat) (r : str) :
  let prompt := build_translation_prompt (texts_of h batch) target_lang in
  (k < Z.to_nat MAX_RETRIES)%nat ->
  (forall j, (j < k)%nat -> truthy (provider w (calls w + j) prompt) = false) ->
  provider w (calls w + k) prompt = Some r ->
  r <> [] ->
  translate_batch_with_retry h batch target_lang w
  = (parse_translation_response r (len (cues batch)),
     {| provider := provider w;
        calls := calls w + k + 1;
        log := log w ++ take (3 * k + 1)
                 [Request prompt; RetryWarning 1 2; Sleep 1;
                  Request prompt; RetryWarning 2 3; Sleep 2;
                  Request prompt] |}).
Proof.
  intros prompt. apply translate_batch_answer_after.
Qed.

Lemma translate_batch_first_answer_witness :
  fst (translate_batch_with_retry []
         {| cues := [0%nat]; prev_context := []; next_context := [];
            start_index := 0; end_index := 0 |}
         (u "en")
         {| provider := fun n _ => if (n <? 2)%nat then None else Some (u "1. uno");
            calls := 0; log := [] |})
  = parse_translation_response (u "1. uno") 1.
Proof.
  refine (f_equal fst
            (translate_batch_first_answer []
               {| cues := [0%nat]; prev_context := []; next_context := [];
                  start_index := 0; end_index := 0 |}
               (u "en")
               {| provider := fun n _ => if (n <? 2)%nat then None else Some (u "1. uno");
                  calls := 0; log := [] |} 2 (u "1. uno") _ _ _ _)).
  - vm_compute. lia.
  - intros [|[|j]] Hj; [reflexivity | reflexivity | lia].
  - reflexivity.
  - discriminate.
Defined.


(** * What a run never changes *)

Lemma same_source_refl (c : Cue) : same_source c c.
Proof. repeat split. Qed.

Lemma same_source_trans (a b c : Cue) :
  same_source a b -> same_source b c -> same_source a c.
Proof. unfold same_source. intros (? & ? & ? & ?) (? & ? & ? & ?). repeat split; congruence. Qed.

Lemma same_source_set_translated (v : str) (c : Cue) :
  same_source c (set_translated v c).
Proof. repeat split. Qed.

Lemma same_source_all_refl (h : heap) : Forall2 same_source h h.
Proof. induction h; constructor; [apply same_source_refl | assumption]. Qed.

Lemma same_source_alter (f : Cue -> Cue) (r : nat) (h : heap) :
  (forall c, same_source c (f c)) -> Forall2 same_source h (alter f r h).
Proof.
  intros Hf. revert r. induction h as [|c h IH]; intros r; [constructor|].
  destruct r as [|r]; cbn [alter list_alter].
  - constructor; [apply Hf | apply same_source_all_refl].
  - constructor; [apply same_source_refl | apply IH].
Qed.

Lemma same_source_all_trans (a b c : heap) :
  Forall2 same_source a b -> Forall2 same_source b c -> Forall2 same_source a c.
Proof.
  intros Hab. revert c. induction Hab as [|x y a b Hxy Hab IH]; intros c Hbc.
  - inversion Hbc. constructor.
  - inversion Hbc as [|? z ? c' Hyz Hbc']; subst. constructor.
    + eapply same_source_trans; eassumption.
    + apply IH. assumption.
Qed.

Lemma apply_translations_same_source (batch : TranslationBatch nat)
    (translations : list str) :
  forall (i : Z) (h : heap) (failed : Z) h' failed',
    apply_translations batch i translations h failed = Ok (h', failed') ->
    Forall2 same_source h h' /\ failed <= failed'.
Proof.
  induction translations as [|t ts IH]; intros i h failed h' failed' Happ.
  - injection Happ as <- <-. split; [apply same_source_all_refl | lia].
  - cbn [apply_translations] in Happ.
    destruct (py_getitem (cues batch) i) as [r|e]; [|discriminate Happ].
    cbn [mbind res_bind] in Happ. destruct t as [|c t].
    + apply IH in Happ as [Hs Hf]. split; [|lia].
      eapply same_source_all_trans; [|exact Hs].
      apply same_source_alter. intros c. apply same_source_set_translated.
    + apply IH in Happ as [Hs Hf]. split; [|lia].
      eapply same_source_all_trans; [|exact Hs].
      apply same_source_alter. intros c'. apply same_source_set_translated.
Qed.

Lemma translate_step_same_source (target_lang : str) (st st' : run_state)
    (batch : TranslationBatch nat) :
  translate_step target_lang st batch = Ok st' ->
  Forall2 same_source (cue_heap st) (cue_heap st')
  /\ failed_batches st <= failed_batches st'
  /\ (calls (outside st') <= calls (outside st) + Z.to_nat MAX_RETRIES)%nat.
Proof.
  unfold translate_step.
  pose proof (retry_loop_calls (Z.to_nat MAX_RETRIES)
                (build_translation_prompt (texts_of (cue_heap st) batch) target_lang)
                (len (cues batch)) 0 (outside st)) as Hcalls.
  unfold translate_batch_with_retry.
  destruct (retry_loop _ _ _ _ _) as [[ts|e] w]; [|discriminate].
  cbn [mbind res_bind].
  destruct (apply_translations _ _ _ _ _) as [[h f]|e] eqn:Happ; [|discriminate].
  cbn [mbind res_bind]. intros [= <-]. cbn [cue_heap failed_batches outside].
  apply apply_translations_same_source in Happ as [Hs Hf].
  split; [exact Hs|]. split; [exact Hf|]. exact Hcalls.
Qed.

Lemma translate_loop_same_source (target_lang : str)
    (batches : list (TranslationBatch nat)) :
  forall st st',
    translate_loop target_lang st batches = Ok st' ->
    Forall2 same_source (cue_heap st) (cue_heap st')
    /\ failed_batches st <= failed_batches st'
    /\ (calls (outside st')
        <= calls (outside st) + Z.to_nat MAX_RETRIES * length batches)%nat.
Proof.
  induction batches as [|b bl IH]; intros st st' Hloop.
  - injection Hloop as <-. split; [apply same_source_all_refl|]. split; lia.
  - cbn [translate_loop] in Hloop.
    destruct (translate_step target_lang st b) as [st1|e] eqn:Hstep;
      [|discriminate Hloop].
    cbn [mbind res_bind] in Hloop.
    apply translate_step_same_source in Hstep as (Hs1 & Hf1 & Hc1).
    apply IH in Hloop as (Hs2 & Hf2 & Hc2).
    split; [eapply same_source_all_trans; eassumption|].
    split; [lia|]. cbn [length]. lia.
Qed.

(** Whatever the provider answers, a run that completes writes the
    generated document of cues that agree with the parsed cues, one for
    one, in number, times and source text; every cue is counted, the
    count of translated cues is at most that number, and at most
    [MAX_RETRIES] requests per batch were made. *)
Theorem translate_keeps_source (content target_lang : str)
    (batch_size context_size : Z) (w : world) (o : outcome) :
  translate content target_lang batch_size context_size w = Ok (Some o) ->
  exists cues' batches,
    output_content o = generate_srt cues' true
    /\ Forall2 same_source (parse_srt content) cues'
    /\ total_cues o = len (parse_srt content)
    /\ 0 <= translated_count o <= total_cues o
    /\ 0 <= failed_count o
    /\ create_batches (seq 0 (length (parse_srt content))) batch_size context_size
       = Ok batches
    /\ (calls (final_world o)
        <= calls w + Z.to_nat MAX_RETRIES * length batches)%nat.
Proof.
  unfold translate. destruct (parse_srt content) as [|c0 cs] eqn:Hcues;
    [discriminate|].
  destruct (create_batches _ batch_size context_size) as [bl|e] eqn:Hbl;
    [|discriminate].
  cbn [mbind res_bind].
  destruct (translate_loop _ _ bl) as [st|e] eqn:Hloop; [|discriminate].
  cbn [mbind res_bind]. cbv zeta.
  destruct (write_text _) as [written|e]; [|discriminate].
  cbn [mbind res_bind]. intros [= <-].
  apply translate_loop_same_source in Hloop as (Hs & Hf & Hc).
  cbn [cue_heap failed_batches outside] in Hs, Hf, Hc.
  exists (cue_heap st), bl.
  cbn [output_content total_cues translated_count failed_count final_world].
  split; [reflexivity|]. split; [exact Hs|].
  split; [unfold len; f_equal; symmetry; eapply Forall2_length; exact Hs|].
  split; [|split; [exact Hf|split; [reflexivity | exact Hc]]].
  unfold len. pose proof (length_filter (fun c => is_translated c = true) (cue_heap st)).
  lia.
Qed.

Lemma translate_keeps_source_witness :
  exists o cues',
    translate (join [NL] [u "1"; u "00:00:01,000 --> 00:00:02,000"; u "one"])
      (u "es") 30 2
      {| provider := fun _ _ => Some (u "1. uno"); calls := 0; log := [] |}
    = Ok (Some o)
    /\ output_content o = generate_srt cues' true
    /\ Forall2 same_source
         (parse_srt (join [NL] [u "1"; u "00:00:01,000 --> 00:00:02,000"; u "one"]))
         cues'.
Proof.
  assert (H : exists o,
             translate (join [NL] [u "1"; u "00:00:01,000 --> 00:00:02,000"; u "one"])
               (u "es") 30 2
               {| provider := fun _ _ => Some (u "1. uno"); calls := 0; log := [] |}
             = Ok (Some o)).
  { vm_compute. eexists. reflexivity. }
  destruct H as [o H].
  destruct (translate_keeps_source _ _ _ _ _ _ H) as (cues' & bl & Hout & Hs & _).
  exists o, cues'. split; [exact H|]. split; [exact Hout | exact Hs].
Defined.


(** * The characters of the parsed cues and of the generated document *)

Section Characters.
Variable Q : Z -> Prop.
Hypothesis Q_NL : Q NL.

Lemma drop_while_chars (p : Z -> bool) (s : str) :
  Forall Q s -> Forall Q (drop_while p s).
Proof.
  induction 1 as [|c s Hc Hs IH]; cbn [drop_while]; [constructor|].
  destruct (p c); [exact IH | constructor; assumption].
Qed.

Lemma strip_chars (s : str) : Forall Q s -> Forall Q (strip s).
Proof.
  intros Hs. unfold strip, rstrip, lstrip.
  apply Forall_rev, drop_while_chars, Forall_rev, drop_while_chars, Hs.
Qed.

Lemma replace_char_chars (a : Z) (s : str) :
  Forall Q s -> Forall Q (replace_char a NL s).
Proof.
  intros Hs. unfold replace_char. apply Forall_fmap.
  eapply Forall_impl; [exact Hs|]. intros c Hc. cbn.
  destruct (c =? a); assumption.
Qed.

Lemma replace_crlf_chars (s : str) :
  Forall Q s ->
  Forall Q (replace_crlf s) /\ forall c, Q c -> Forall Q (replace_crlf (c :: s)).
Proof.
  induction 1 as [|d s Hd Hs [IHa IHb]].
  - split; [constructor|]. intros c Hc. cbn. constructor; [exact Hc | constructor].
  - split; [apply IHb; exact Hd|].
    intros c Hc. cbn [replace_crlf].
    destruct ((c =? CR) && (d =? NL)).
    + constructor; [exact Q_NL | exact IHa].
    + constructor; [exact Hc | apply IHb; exact Hd].
Qed.

Lemma blank_at_chars (s r : str) :
  blank_at s = Some r -> Forall Q s -> Forall Q r.
Proof.
  unfold blank_at. intros H Hs.
  apply re_lit_inv in H as (r1 & -> & H).
  apply re_star_inv in H as (m & r2 & -> & _ & H).
  apply re_lit_inv in H as (r3 & -> & H). injection H as <-.
  rewrite !Forall_app in Hs. tauto.
Qed.

Lemma find_blank_chars (s : str) :
  forall b r, find_blank s = Some (b, r) -> Forall Q s -> Forall Q b /\ Forall Q r.
Proof.
  induction s as [|c s IH]; intros b r H Hs.
  - cbn in H. discriminate H.
  - rewrite find_blank_cons in H.
    destruct (blank_at (c :: s)) as [r0|] eqn:Hb.
    + injection H as <- <-. split; [constructor|].
      eapply blank_at_chars; eassumption.
    + destruct (find_blank s) as [[b0 r0]|] eqn:Hf; [|discriminate H].
      injection H as <- <-. inversion Hs as [|? ? Hc Hs']; subst.
      destruct (IH b0 r0 eq_refl Hs') as [H1 H2].
      split; [constructor; assumption | exact H2].
Qed.

Lemma split_blank_fuel_chars (fuel : nat) :
  forall s, Forall Q s -> Forall (Forall Q) (split_blank_fuel fuel s).
Proof.
  induction fuel as [|f IH]; intros s Hs; cbn [split_blank_fuel].
  - repeat constructor. exact Hs.
  - destruct (find_blank s) as [[b r]|] eqn:Hf.
    + destruct (find_blank_chars s b r Hf Hs) as [Hb Hr].
      constructor; [exact Hb | apply IH; exact Hr].
    + repeat constructor. exact Hs.
Qed.

Lemma split_on_chars (sep : Z) (s : str) :
  Forall Q s -> Forall (Forall Q) (split_on sep s).
Proof.
  induction 1 as [|c s Hc Hs IH]; cbn [split_on]; [repeat constructor|].
  destruct (c =? sep); [constructor; [constructor | exact IH]|].
  destruct (split_on sep s) as [|h t].
  - repeat constructor. exact Hc.
  - inversion IH; subst. constructor; [constructor; assumption | assumption].
Qed.

Lemma join_chars (sep : str) (parts : list str) :
  Forall Q sep -> Forall (Forall Q) parts -> Forall Q (join sep parts).
Proof.
  intros Hsep. induction 1 as [|p ps Hp Hps IH]; [constructor|].
  destruct ps as [|q ps]; [exact Hp|].
  rewrite join_cons_cons. rewrite !Forall_app. auto.
Qed.

Lemma srt_blocks_chars (content : str) :
  Forall Q content -> Forall (Forall Q) (srt_blocks content).
Proof.
  intros Hc. unfold srt_blocks, split_blank.
  apply split_blank_fuel_chars, strip_chars.
  pose proof (replace_char_chars CR _ (proj1 (replace_crlf_chars content Hc))) as Hn.
  destruct (replace_char CR NL (replace_crlf content)) as [|c r]; [constructor|].
  destruct (c =? BOM); [inversion Hn; assumption | exact Hn].
Qed.

Lemma parse_srt_step_chars (block : str) (c : Cue) :
  c ∈ fst (parse_srt_step ([], []) block) -> Forall Q block -> Forall Q (text c).
Proof.
  intros Hin Hb. unfold parse_srt_step in Hin.
  pose proof (split_on_chars NL _ (strip_chars block Hb)) as Hlines.
  destruct (strip block) as [|z s]; [inversion Hin|].
  destruct (Z.ltb_spec (len (split_on NL (z :: s))) 3) as [Hlt|Hlen];
    [inversion Hin|].
  destruct (split_on NL (z :: s)) as [|l0 [|l1 [|l2 rest]]];
    try (unfold len in Hlen; simpl in Hlen; lia).
  unfold parse_block in Hin.
  rewrite py_getitem_0, py_getitem_1 in Hin. cbn [mbind res_bind] in Hin.
  destruct (py_int (strip l0)) as [idx|e]; cbn [mbind res_bind] in Hin;
    [|inversion Hin].
  destruct (match_timing (strip l1)) as [[g1 g2]|]; [|inversion Hin].
  destruct (parse_timestamp g1) as [t1|e]; cbn [mbind res_bind] in Hin;
    [|inversion Hin].
  destruct (parse_timestamp g2) as [t2|e]; cbn [mbind res_bind] in Hin;
    [|inversion Hin].
  cbn [fst app] in Hin. apply list_elem_of_singleton in Hin. subst c.
  cbn [text]. rewrite py_slice_from_2.
  apply strip_chars, join_chars; [repeat constructor; exact Q_NL|].
  inversion Hlines as [|? ? _ H1]; subst. inversion H1; subst. assumption.
Qed.

(** The text of a parsed cue is made of characters of the document and of
    newlines. *)
Lemma parse_srt_chars (content : str) (c : Cue) :
  Forall Q content -> c ∈ parse_srt content -> Forall Q (text c).
Proof.
  intros Hc Hin.
  destruct (parse_srt_cue_block content c Hin) as (block & Hb & Hstep).
  apply (parse_srt_step_chars block c Hstep).
  pose proof (srt_blocks_chars content Hc) as Hall.
  rewrite Forall_forall in Hall. apply Hall. exact Hb.
Qed.
End Characters.

(** ** What the generator writes besides the texts *)

Lemma digits_ascii (n : Z) : Forall (fun c => 0 <= c < 128) (digits (Z.abs n)).
Proof.
  destruct (digits_spec (Z.abs n) ltac:(lia)) as (_ & Hall & _).
  eapply Forall_impl; [exact Hall|]. intros c Hc. cbv beta in Hc. lia.
Qed.

Lemma format_0d_ascii (width : nat) (n : Z) :
  Forall (fun c => 0 <= c < 128) (format_0d width n).
Proof.
  unfold format_0d. rewrite !Forall_app. split; [|split].
  - destruct (n <? 0); repeat constructor; lia.
  - apply Forall_replicate. lia.
  - apply digits_ascii.
Qed.

Lemma py_str_ascii (n : Z) : Forall (fun c => 0 <= c < 128) (py_str n).
Proof.
  unfold py_str. destruct (Z.ltb_spec n 0).
  - constructor; [lia|]. replace (- n) with (Z.abs n) by lia. apply digits_ascii.
  - replace n with (Z.abs n) at 1 by lia. apply digits_ascii.
Qed.

Lemma timing_line_ascii (c : Cue) : Forall (fun x => 0 <= x < 128) (timing_line c).
Proof.
  unfold timing_line, format_timestamp. cbv zeta.
  change (u " --> ") with [32; 45; 45; 62; 32].
  rewrite !Forall_app.
  repeat split; try apply format_0d_ascii; repeat constructor; lia.
Qed.

Lemma ascii_utf8 (s : str) : Forall (fun c => 0 <= c < 128) s -> utf8_text s.
Proof.
  intros Hs. eapply Forall_impl; [exact Hs|]. intros c Hc. cbv beta in Hc.
  unfold utf8_encodable.
  destruct (Z.leb_spec 55296 c); [lia | reflexivity].
Qed.

(** The generated document can be encoded when the texts it shows can. *)
Lemma generate_lines_utf8 (use_translated : bool) (cues : list Cue) :
  Forall (fun c => utf8_text (text c)
                   /\ forall t, translated_text c = Some t -> utf8_text t) cues ->
  forall i, Forall utf8_text (generate_lines use_translated i cues).
Proof.
  induction 1 as [|c cues [Htext Htr] _ IH]; intros i; [constructor|].
  cbn [generate_lines cue_lines app].
  constructor; [apply ascii_utf8, py_str_ascii|].
  constructor; [apply ascii_utf8, timing_line_ascii|].
  constructor.
  - destruct (use_translated && truthy (translated_text c)); [|exact Htext].
    destruct (translated_text c) as [t|]; [apply Htr; reflexivity | constructor].
  - constructor; [constructor | apply IH].
Qed.

Lemma generate_srt_utf8 (use_translated : bool) (cues : list Cue) :
  Forall (fun c => utf8_text (text c)
                   /\ forall t, translated_text c = Some t -> utf8_text t) cues ->
  utf8_text (generate_srt cues use_translated).
Proof.
  intros Hall. unfold generate_srt. constructor; [reflexivity|].
  apply join_chars; [repeat constructor | apply generate_lines_utf8; exact Hall].
Qed.

Lemma write_text_utf8 (data : str) :
  utf8_text data -> write_text data = Ok (len data).
Proof.
  intros Hd. unfold write_text.
  replace (forallb utf8_encodable data) with true; [reflexivity|].
  symmetry. apply forallb_forall. intros c Hc.
  unfold utf8_text in Hd. rewrite Forall_forall in Hd.
  apply Hd. apply list_elem_of_In. exact Hc.
Qed.

Lemma write_text_cases (data : str) :
  write_text data
  = if forallb utf8_encodable data then Ok (len data) else Raise UnicodeEncodeError.
Proof. reflexivity. Qed.

(** The cues parsed from a text without surrogates have none. *)
Lemma parse_srt_utf8 (content : str) :
  utf8_text content ->
  Forall (fun c => utf8_text (text c)
                   /\ forall t, translated_text c = Some t -> utf8_text t)
    (parse_srt content).
Proof.
  intros Hc. apply Forall_forall. intros c Hin. split.
  - apply (parse_srt_chars (fun x => utf8_encodable x = true) eq_refl content c Hc Hin).
  - intros t Ht.
    destruct (parse_srt_cue_block content c Hin) as (block & _ & Hb).
    destruct (parse_srt_step_cue_fields block c Hb) as (Hnone & _). congruence.
Qed.


(** * The batches of a run *)

Lemma create_batches_cover {A} (cs : list A) (batch_size context_size : Z) :
  0 < batch_size ->
  exists bl,
    create_batches cs batch_size context_size = Ok bl
    /\ concat (cues <$> bl) = cs
    /\ length bl = Z.to_nat ((len cs + batch_size - 1) / batch_size)
    /\ forall b, head bl = Some b ->
         cues b = take (Z.to_nat batch_size) cs /\ cs <> [].
Proof.
  intros Hbs.
  destruct (create_batches_lookup cs batch_size context_size Hbs)
    as (bl & Hbl & Hcover & Hat).
  exists bl. split; [exact Hbl|].
  set (b := Z.to_nat batch_size) in *.
  split; [|split].
  - transitivity (concat ((fun k => take b (drop (k * b) cs)) <$> seq 0 (length bl))).
    + f_equal. apply list_eq. intros k.
      rewrite !list_lookup_fmap.
      destruct (bl !! k) as [x|] eqn:Hk; simpl.
      * rewrite lookup_seq_lt by (eapply lookup_lt_Some; eassumption).
        simpl. f_equal. destruct (Hat k x Hk) as [-> _].
        apply batch_at_cues. assumption.
      * rewrite lookup_seq_ge by (apply lookup_ge_None; assumption).
        reflexivity.
    + apply concat_chunks; [lia | assumption].
  - unfold create_batches in Hbl. rewrite py_range_pos in Hbl by assumption.
    cbn [mbind res_bind] in Hbl. injection Hbl as <-.
    rewrite !length_fmap, length_seq. reflexivity.
  - intros x Hx. destruct bl as [|y bl]; [discriminate Hx|].
    injection Hx as ->. destruct (Hat 0%nat x eq_refl) as [-> Hlt].
    split.
    + rewrite (batch_at_cues cs batch_size context_size 0 Hbs). reflexivity.
    + intros ->. simpl in Hlt. lia.
Qed.

(** * A run in which every request fails *)

Lemma cue_lines_keep_original (i : Z) (c : Cue) :
  cue_lines true i (keep_original c) = cue_lines false i c.
Proof. unfold cue_lines. cbn. destruct (text c); reflexivity. Qed.

Lemma generate_lines_keep_original (cs : list Cue) :
  forall i, generate_lines true i (keep_original <$> cs) = generate_lines false i cs.
Proof.
  induction cs as [|c cs IH]; intros i; [reflexivity|].
  rewrite fmap_cons. cbn [generate_lines].
  rewrite cue_lines_keep_original, IH. reflexivity.
Qed.

Lemma generate_lines_untranslated (cs : list Cue) :
  Forall (fun c => translated_text c = None) cs ->
  forall i, generate_lines true i cs = generate_lines false i cs.
Proof.
  induction 1 as [|c cs Hc _ IH]; intros i; [reflexivity|].
  cbn [generate_lines]. rewrite IH. f_equal.
  unfold cue_lines. rewrite Hc. reflexivity.
Qed.

Lemma filter_none {A} (P : A -> Prop) `{forall x, Decision (P x)} (l : list A) :
  Forall (fun x => ~ P x) l -> filter P l = [].
Proof.
  induction 1 as [|x l Hx _ IH]; [reflexivity|].
  rewrite filter_cons. destruct (decide (P x)); [contradiction | exact IH].
Qed.

Lemma is_translated_keep_original (c : Cue) : is_translated (keep_original c) = false.
Proof.
  unfold is_translated. cbn [keep_original set_translated translated_text text].
  rewrite bool_decide_eq_true_2 by reflexivity. apply andb_false_r.
Qed.

Lemma parse_srt_untranslated (content : str) :
  Forall (fun c => translated_text c = None) (parse_srt content).
Proof.
  apply Forall_forall. intros c Hc.
  destruct (parse_srt_cue_block content c Hc) as (block & _ & Hb).
  apply (parse_srt_step_cue_fields block c Hb).
Qed.

Lemma utf8_text_forallb (s : str) :
  forallb utf8_encodable s = true -> utf8_text s.
Proof.
  intros H. apply Forall_forall. intros c Hc.
  rewrite forallb_forall in H. apply H. apply list_elem_of_In. exact Hc.
Qed.

Lemma keep_original_utf8 (cs : list Cue) :
  Forall (fun c => utf8_text (text c)
                   /\ forall t, translated_text c = Some t -> utf8_text t) cs ->
  Forall (fun c => utf8_text (text c)
                   /\ forall t, translated_text c = Some t -> utf8_text t)
    (keep_original <$> cs).
Proof.
  intros Hall. apply Forall_fmap. eapply Forall_impl; [exact Hall|].
  intros c [Htext _]. cbn. split; [exact Htext|].
  intros t [= <-]. exact Htext.
Qed.

(** When every request fails, a run with a positive batch size goes on to
    the end: the document it writes is that of the parsed cues with their
    source texts, no cue is counted as translated and every cue as failed,
    and [MAX_RETRIES] requests were made for each batch.  The run
    completes unless that document cannot be encoded, which makes the
    writing raise; it can be encoded whenever the content holds no
    surrogate, as is the case of a text read from a file. *)
Theorem translate_all_requests_fail (content target_lang : str)
    (batch_size context_size : Z) (w : world) :
  provider_fails w -> 0 < batch_size -> parse_srt content <> [] ->
  exists o,
    output_content o = generate_srt (parse_srt content) false
    /\ total_cues o = len (parse_srt content)
    /\ translated_count o = 0
    /\ failed_count o = len (parse_srt content)
    /\ calls (final_world o)
       = (calls w + 3 * Z.to_nat ((len (parse_srt content) + batch_size - 1)
                                  / batch_size))%nat
    /\ translate content target_lang batch_size context_size w
       = (if forallb utf8_encodable (output_content o) then Ok (Some o)
          else Raise UnicodeEncodeError)
    /\ (utf8_text content ->
        translate content target_lang batch_size context_size w = Ok (Some o)).
Proof.
  intros Hf Hbs Hne. pose proof (parse_srt_utf8 content) as Hutf.
  unfold translate.
  destruct (parse_srt content) as [|c0 cs0] eqn:Hcues; [congruence|].
  set (cs := c0 :: cs0) in *.
  destruct (create_batches_cover (seq 0 (length cs)) batch_size context_size Hbs)
    as (bl & Hbl & Hcat & Hn & _).
  rewrite Hbl. cbn [mbind res_bind].
  destruct (translate_loop_all_fail target_lang bl
              {| cue_heap := cs; failed_batches := 0; outside := w |} Hf)
    as (st & Hloop & Hfail & Hheap & Hcalls).
  rewrite Hloop. cbn [mbind res_bind]. cbv zeta.
  cbn [cue_heap failed_batches outside] in Hfail, Hheap, Hcalls.
  assert (Hh : cue_heap st = keep_original <$> cs).
  { apply list_eq. intros r. rewrite Hheap, Hcat, list_lookup_fmap.
    destruct (decide (r ∈ seq 0 (length cs))) as [_|Hout]; [reflexivity|].
    rewrite elem_of_seq in Hout.
    rewrite (proj2 (lookup_ge_None cs r)) by lia. reflexivity. }
  exists {| output_content := generate_srt (cue_heap st) true;
            total_cues := len (cue_heap st);
            translated_count :=
              len (filter (fun c => is_translated c = true) (cue_heap st));
            failed_count := failed_batches st;
            final_world := outside st |}.
  cbn [output_content total_cues translated_count failed_count final_world].
  rewrite Hh. split; [|split; [|split; [|split; [|split; [|split]]]]].
  - unfold generate_srt. rewrite generate_lines_keep_original. reflexivity.
  - unfold len. rewrite length_fmap. reflexivity.
  - rewrite filter_none; [reflexivity|].
    apply Forall_fmap, Forall_forall. intros c _. cbn.
    rewrite is_translated_keep_original. discriminate.
  - rewrite Hfail, Hcat. unfold len. rewrite length_seq. lia.
  - rewrite Hcalls, Hn. unfold len. rewrite length_seq. reflexivity.
  - rewrite write_text_cases.
    destruct (forallb utf8_encodable _); reflexivity.
  - intros Hc. rewrite write_text_utf8; [reflexivity|].
    apply generate_srt_utf8, keep_original_utf8, Hutf, Hc.
Qed.

Lemma translate_all_requests_fail_witness :
  exists o,
    translate (join [NL] [u "1"; u "00:00:01,000 --> 00:00:02,000"; u "one"])
      (u "es") 30 2 {| provider := fun _ _ => None; calls := 0; log := [] |}
    = Ok (Some o)
    /\ failed_count o = 1 /\ calls (final_world o) = 3%nat.
Proof.
  destruct (translate_all_requests_fail
              (join [NL] [u "1"; u "00:00:01,000 --> 00:00:02,000"; u "one"])
              (u "es") 30 2 {| provider := fun _ _ => None; calls := 0; log := [] |})
    as (o & _ & _ & _ & Hfail & Hcalls & _ & Ho).
  - intros n p. reflexivity.
  - lia.
  - vm_compute. discriminate.
  - exists o. split; [|split; [exact Hfail | exact Hcalls]].
    apply Ho. apply utf8_text_forallb. vm_compute. reflexivity.
Defined.

(** * A run that the response parser aborts *)

(** An exception of the response parser is caught nowhere: when the
    answer to the first request makes [parse_translation_response] raise,
    the run raises the same exception and produces no outcome. *)
Theorem translate_parser_exception (content target_lang : str)
    (batch_size context_size : Z) (w : world) (r : str) (e : exn) :
  0 < batch_size -> parse_srt content <> [] ->
  (forall prompt, provider w (calls w) prompt = Some r) -> r <> [] ->
  parse_translation_response r
    (Z.min batch_size (len (parse_srt content))) = Raise e ->
  translate content target_lang batch_size context_size w = Raise e.
Proof.
  intros Hbs Hne Hp Hr Hraise. unfold translate.
  destruct (parse_srt content) as [|c0 cs0] eqn:Hcues; [congruence|].
  set (cs := c0 :: cs0) in *.
  destruct (create_batches_cover (seq 0 (length cs)) batch_size context_size Hbs)
    as (bl & Hbl & Hcat & Hn & Hhead).
  rewrite Hbl. cbn [mbind res_bind].
  destruct bl as [|b bl].
  { cbn in Hcat. discriminate Hcat. }
  destruct (Hhead b eq_refl) as [Hb _].
  cbn [translate_loop]. unfold translate_step at 1.
  unfold translate_batch_with_retry. cbn [cue_heap outside].
  change (Z.to_nat MAX_RETRIES) with 3%nat.
  rewrite (retry_loop_answer 2 _ r _ w (Hp _) Hr).
  replace (len (cues b)) with (Z.min batch_size (len cs)).
  - rewrite Hraise. reflexivity.
  - unfold len. rewrite Hb, length_take, length_seq. lia.
Qed.

Lemma translate_parser_exception_witness :
  translate (join [NL] [u "1"; u "00:00:01,000 --> 00:00:02,000"; u "one"])
    (u "es") 30 2
    {| provider := fun _ _ => Some (u "0. uno"); calls := 0; log := [] |}
  = Raise IndexError.
Proof.
  apply (translate_parser_exception _ _ _ _ _ (u "0. uno")).
  - lia.
  - vm_compute. discriminate.
  - intros p. reflexivity.
  - discriminate.
  - vm_compute. reflexivity.
Defined.

(** * A run with a batch size that is not positive *)

(** With a batch size of zero the run raises [ValueError]; with a
    negative one it plans no batch and makes no request, and goes on to
    the end: it writes the parsed cues with their source texts and counts
    no cue as translated and none as failed.  It completes unless that
    document cannot be encoded; it can be whenever the content holds no
    surrogate. *)
Theorem translate_degenerate_batch_size (content target_lang : str)
    (batch_size context_size : Z) (w : world) :
  parse_srt content <> [] ->
  let o := {| output_content := generate_srt (parse_srt content) false;
              total_cues := len (parse_srt content);
              translated_count := 0;
              failed_count := 0;
              final_world := w |} in
  (batch_size = 0 ->
   translate content target_lang batch_size context_size w = Raise ValueError)
  /\ (batch_size < 0 ->
      translate content target_lang batch_size context_size w
      = (if forallb utf8_encodable (output_content o) then Ok (Some o)
         else Raise UnicodeEncodeError))
  /\ (batch_size < 0 -> utf8_text content ->
      translate content target_lang batch_size context_size w = Ok (Some o)).
Proof.
  intros Hne o. pose proof (parse_srt_untranslated content) as Hnone.
  pose proof (parse_srt_utf8 content) as Hutf.
  assert (Hneg : batch_size < 0 ->
            translate content target_lang batch_size context_size w
            = (if forallb utf8_encodable (output_content o) then Ok (Some o)
               else Raise UnicodeEncodeError)).
  { intros Hneg. subst o. unfold translate.
    destruct (parse_srt content) as [|c0 cs0] eqn:Hcues; [congruence|].
    set (cs := c0 :: cs0) in *.
    rewrite create_batches_negative_size by assumption.
    cbn [mbind res_bind translate_loop cue_heap failed_batches outside].
    cbv zeta. cbn [output_content].
    assert (Hgen : generate_srt cs true = generate_srt cs false).
    { unfold generate_srt. rewrite generate_lines_untranslated by assumption.
      reflexivity. }
    rewrite Hgen, write_text_cases.
    destruct (forallb utf8_encodable (generate_srt cs false)); [|reflexivity].
    cbn [mbind res_bind]. f_equal. f_equal. f_equal.
    rewrite filter_none; [reflexivity|].
    eapply Forall_impl; [exact Hnone|]. intros c Hc. cbn in *.
    unfold is_translated. rewrite Hc. discriminate. }
  split; [|split; [exact Hneg|]].
  - intros ->. unfold translate.
    destruct (parse_srt content) as [|c0 cs0] eqn:Hcues; [congruence|].
    rewrite create_batches_zero_size. reflexivity.
  - intros Hlt Hc. rewrite (Hneg Hlt).
    replace (forallb utf8_encodable (output_content o)) with true; [reflexivity|].
    symmetry. apply forallb_forall. intros x Hx.
    assert (Hall : utf8_text (output_content o)).
    { subst o. cbn [output_content]. apply generate_srt_utf8, Hutf, Hc. }
    unfold utf8_text in Hall. rewrite Forall_forall in Hall.
    apply Hall, list_elem_of_In, Hx.
Qed.

Lemma translate_degenerate_batch_size_witness :
  translate (join [NL] [u "1"; u "00:00:01,000 --> 00:00:02,000"; u "one"])
    (u "es") (-5) 2 {| provider := fun _ _ => None; calls := 0; log := [] |}
  = Ok (Some {| output_content :=
                  generate_srt
                    (parse_srt (join [NL] [u "1"; u "00:00:01,000 --> 00:00:02,000";
                                           u "one"])) false;
                total_cues := 1; translated_count := 0; failed_count := 0;
                final_world := {| provider := fun _ _ => None; calls := 0;
                                  log := [] |} |}).
Proof.
  refine (proj2 (proj2 (translate_degenerate_batch_size
                          (join [NL] [u "1"; u "00:00:01,000 --> 00:00:02,000"; u "one"])
                          (u "es") (-5) 2
                          {| provider := fun _ _ => None; calls := 0; log := [] |} _))
            _ _).
  - vm_compute. discriminate.
  - lia.
  - apply utf8_text_forallb. vm_compute. reflexivity.
Defined.


(** * Greedy repetition, forwards *)

Lemma re_star_none {R} (p : Z -> bool) (r : str) (k : str -> str -> option R) :
  (forall c r', r = c :: r' -> p c = false) -> re_star p r k = k [] r.
Proof.
  destruct r as [|c r']; intros H; [reflexivity|].
  cbn [re_star]. rewrite (H c r' eq_refl). reflexivity.
Qed.

Lemma re_star_all {R} (p : Z -> bool) (m r : str) :
  forall (k : str -> str -> option R) (x : R),
    Forall (fun c => p c = true) m ->
    (forall c r', r = c :: r' -> p c = false) ->
    k m r = Some x ->
    re_star p (m ++ r) k = Some x.
Proof.
  induction m as [|c m IH]; intros k x Hm Hr Hk.
  - cbn [app]. rewrite re_star_none by assumption. exact Hk.
  - inversion Hm as [|? ? Hc Hm']; subst. cbn [app re_star]. rewrite Hc.
    rewrite (IH (fun m r => k (c :: m) r) x Hm' Hr Hk). reflexivity.
Qed.

Lemma re_star_all_end {R} (p : Z -> bool) (m : str)
    (k : str -> str -> option R) (x : R) :
  Forall (fun c => p c = true) m -> k m [] = Some x -> re_star p m k = Some x.
Proof.
  intros Hm Hk. rewrite <- (app_nil_r m) at 1.
  apply re_star_all; [assumption | discriminate | assumption].
Qed.

(** * A numbered line read back *)

Lemma ascii_digit_char (c : Z) :
  48 <= c <= 57 ->
  is_decimal c = true /\ Py_UNICODE_ISSPACE c = false /\ c <> NL.
Proof.
  intros Hc. replace c with (48 + (c - 48)) by lia.
  split; [apply is_decimal_ascii; lia|].
  split; [apply ascii_digit_not_space; lia | unfold NL; lia].
Qed.

Lemma match_numbered_line (ds t : str) :
  ds <> [] -> Forall (fun c => 48 <= c <= 57) ds ->
  t <> [] -> starts_clean t -> NL ∉ t ->
  match_numbered (ds ++ u ". " ++ t) = Some (ds, t).
Proof.
  intros Hds Hdig Ht (c & t' & -> & Hc) Hnl.
  destruct ds as [|d ds]; [congruence|].
  inversion Hdig as [|? ? Hd Hdig']; subst.
  destruct (ascii_digit_char d Hd) as (Hd1 & Hd2 & _).
  change (u ". ") with [46; 32]. cbn [app].
  unfold match_numbered. rewrite re_star_none
    by (intros ? ? [= <- _]; exact Hd2).
  unfold re_plus. rewrite Hd1.
  apply (re_star_all is_decimal ds (46 :: 32 :: c :: t')).
  - eapply Forall_impl; [exact Hdig'|]. intros x Hx. apply ascii_digit_char. exact Hx.
  - intros ? ? [= <- _]. reflexivity.
  - rewrite re_star_none by (intros ? ? [= <- _]; reflexivity).
    change ((46 =? 46) || (46 =? 58) || (46 =? 41)) with true. cbv iota.
    apply (re_star_all Py_UNICODE_ISSPACE [32] (c :: t')).
    + repeat constructor.
    + intros ? ? [= <- _]. exact Hc.
    + apply not_elem_of_cons in Hnl as [Hcn Hnl].
      unfold re_plus.
      assert (Hdot : forall x, x <> NL -> is_dot x = true).
      { intros x Hx. unfold is_dot. destruct (Z.eqb_spec x NL); [contradiction | reflexivity]. }
      rewrite (Hdot c) by congruence.
      apply re_star_all_end; [|reflexivity].
      apply Forall_forall. intros x Hx. apply Hdot. intros ->. contradiction.
Qed.

Lemma plain_text_ends (t : str) : plain_text t -> starts_clean t /\ ends_clean t.
Proof. intros (Hne & Hs & _). apply strip_fixed_ends; assumption. Qed.

Lemma numbered_line_clean (i : Z) (t : str) :
  0 <= i -> plain_text t ->
  starts_clean (py_str i ++ u ". " ++ t)
  /\ ends_clean (py_str i ++ u ". " ++ t)
  /\ NL ∉ py_str i ++ u ". " ++ t.
Proof.
  intros Hi Ht. destruct (plain_text_ends t Ht) as [_ Hend].
  destruct Ht as (_ & _ & Hnl & _).
  destruct (py_str_spec i Hi) as (Hne & Hdig & _).
  split; [|split].
  - destruct (py_str i) as [|d ds]; [congruence|].
    inversion Hdig as [|? ? Hd _]; subst.
    exists d, (ds ++ u ". " ++ t). split; [reflexivity|].
    apply ascii_digit_char. exact Hd.
  - apply ends_clean_app, ends_clean_app. exact Hend.
  - rewrite !not_elem_of_app. split; [|split; [|exact Hnl]].
    + intros Hin. rewrite Forall_forall in Hdig.
      specialize (Hdig NL Hin). unfold NL in Hdig. lia.
    + intros Hin. change (u ". ") with [46; 32] in Hin.
      apply elem_of_cons in Hin as [Hin|Hin]; [discriminate Hin|].
      apply list_elem_of_singleton in Hin. discriminate Hin.
Qed.

Lemma numbered_line_entry (i : Z) (t : str) :
  0 <= i < 10 ^ int_max_str_digits -> plain_text t ->
  numbered_entry (py_str i ++ u ". " ++ t) = Ok (Some (i, t)).
Proof.
  intros [Hi Hlimit] Ht. destruct (numbered_line_clean i t Hi Ht) as (Hs & He & _).
  destruct (plain_text_ends t Ht) as [Hts _].
  destruct (py_str_spec i Hi) as (Hne & Hdig & Hint).
  destruct Ht as (Htne & Hstrip & Hnl & Hq).
  unfold numbered_entry. rewrite (strip_of_clean _ Hs He).
  rewrite (match_numbered_line _ _ Hne Hdig Htne Hts Hnl).
  rewrite (Hint Hlimit). cbn [mbind res_bind]. rewrite Hstrip, Hq. reflexivity.
Qed.

Lemma store_next (acc : list str) (i : Z) (t : str) :
  len acc = i - 1 -> store acc i t = Ok (acc ++ [t]).
Proof.
  intros Hlen. unfold store.
  replace (Z.to_nat (i - 1 - len acc)) with 0%nat by lia.
  cbn [replicate]. rewrite app_nil_r.
  destruct (Z.ltb_spec (len acc) i); [reflexivity | lia].
Qed.

Lemma collect_numbered_lines (ts : list str) :
  Forall plain_text ts ->
  forall (i : Z) (acc : list str),
    1 <= i -> i + len ts <= 10 ^ int_max_str_digits -> len acc = i - 1 ->
    collect acc (numbered_lines i ts) = Ok (acc ++ ts).
Proof.
  induction 1 as [|t ts Ht _ IH]; intros i acc Hi Hlimit Hlen.
  - cbn. rewrite app_nil_r. reflexivity.
  - assert (Hl : len (t :: ts) = 1 + len ts) by (unfold len; cbn [length]; lia).
    pose proof (len_nonneg ts) as Hpos.
    cbn [numbered_lines collect].
    rewrite (numbered_line_entry i t ltac:(lia) Ht). cbn [mbind res_bind].
    rewrite (store_next acc i t Hlen). cbn [mbind res_bind].
    rewrite (IH (i + 1) (acc ++ [t])).
    + rewrite <- app_assoc. reflexivity.
    + lia.
    + lia.
    + rewrite len_app. unfold len at 2. cbn [length]. lia.
Qed.

Lemma split_on_absent (sep : Z) (s : str) : sep ∉ s -> split_on sep s = [s].
Proof.
  induction s as [|c s IH]; intros Hs; [reflexivity|].
  apply not_elem_of_cons in Hs as [Hc Hs]. cbn [split_on].
  destruct (Z.eqb_spec c sep); [congruence|]. rewrite (IH Hs). reflexivity.
Qed.

Lemma split_on_join (sep : Z) (lines : list str) :
  lines <> [] -> Forall (fun l => sep ∉ l) lines ->
  split_on sep (join [sep] lines) = lines.
Proof.
  intros Hne Hall. induction Hall as [|l ls Hl Hls IH]; [congruence|].
  destruct ls as [|l2 ls].
  - cbn [join]. apply split_on_absent. exact Hl.
  - rewrite join_cons_cons. cbn [app].
    rewrite (split_on_app_sep sep l _ Hl). rewrite IH by discriminate. reflexivity.
Qed.

Lemma numbered_lines_clean (ts : list str) :
  Forall plain_text ts ->
  forall i, 0 <= i ->
    Forall (fun l => starts_clean l /\ ends_clean l /\ NL ∉ l) (numbered_lines i ts).
Proof.
  induction 1 as [|t ts Ht _ IH]; intros i Hi; [constructor|].
  cbn [numbered_lines]. constructor.
  - apply numbered_line_clean; assumption.
  - apply IH. lia.
Qed.

Lemma collect_response_lines (texts : list str) :
  Forall plain_text texts -> len texts < 10 ^ int_max_str_digits ->
  collect [] (split_on NL (strip (join [NL] (numbered_lines 1 texts)))) = Ok texts.
Proof.
  intros Hall Hlimit. destruct texts as [|t ts]; [reflexivity|].
  pose proof (numbered_lines_clean _ Hall 1 ltac:(lia)) as Hclean.
  set (lines := numbered_lines 1 (t :: ts)) in *.
  assert (Hne : lines <> []) by discriminate.
  rewrite strip_of_clean.
  - rewrite split_on_join.
    + subst lines.
      rewrite (collect_numbered_lines _ Hall 1 []) by (try reflexivity; lia).
      reflexivity.
    + exact Hne.
    + eapply Forall_impl; [exact Hclean|]. intros l (_ & _ & Hl). exact Hl.
  - subst lines. cbn [numbered_lines]. apply join_starts_clean.
    inversion Hclean as [|? ? (Hs & _) _]; subst. exact Hs.
  - apply join_ends_clean; [|exact Hne].
    eapply Forall_impl; [exact Hclean|]. intros l (_ & He & _). exact He.
Qed.

Lemma py_slice_to_exact (ts : list str) :
  py_slice_to (ts ++ replicate (Z.to_nat (len ts - len ts)) []) (len ts) = ts.
Proof.
  replace (Z.to_nat (len ts - len ts)) with 0%nat by lia.
  cbn [replicate]. rewrite app_nil_r.
  unfold py_slice_to, py_clamp. pose proof (len_nonneg ts).
  destruct (Z.ltb_spec (len ts) 0); [lia|].
  rewrite Z.min_id. unfold len. rewrite Nat2Z.id, firstn_all. reflexivity.
Qed.

(** An answer in the format that the prompt asks for is read back in
    full: the lines [1. t1], [2. t2], ... of plain texts, joined by
    newlines, parse to the list of these texts.  The line numbers are
    within what [int()] converts: there are fewer than
    [10 ^ int_max_str_digits] texts. *)
Theorem parse_numbered_lines_roundtrip (texts : list str) :
  Forall plain_text texts ->
  len texts < 10 ^ int_max_str_digits ->
  parse_translation_response (join [NL] (numbered_lines 1 texts)) (len texts)
  = Ok texts.
Proof.
  intros Hall Hlimit. unfold parse_translation_response.
  rewrite (collect_response_lines texts Hall Hlimit). cbn [mbind res_bind].
  rewrite py_slice_to_exact. reflexivity.
Qed.

Lemma parse_numbered_lines_roundtrip_witness :
  parse_translation_response
    (join [NL] (numbered_lines 1 [u "uno dos"; u "tres"])) 2
  = Ok [u "uno dos"; u "tres"].
Proof.
  apply (parse_numbered_lines_roundtrip [u "uno dos"; u "tres"]).
  - repeat constructor; try discriminate; try reflexivity;
      apply (bool_decide_unpack _); vm_compute; exact I.
  - apply Z.ltb_lt. vm_compute. reflexivity.
Defined.


(** * A run whose requests are all answered in the format asked for *)

Lemma numbered_answer_nonempty (chunk : list str) :
  chunk <> [] -> Forall plain_text chunk ->
  join [NL] (numbered_lines 1 chunk) <> [].
Proof.
  intros Hne Hall. destruct chunk as [|t ts]; [congruence|].
  pose proof (numbered_lines_clean _ Hall 1 ltac:(lia)) as Hclean.
  change (numbered_lines 1 (t :: ts))
    with ((py_str 1 ++ u ". " ++ t) :: numbered_lines (1 + 1) ts) in *.
  apply Forall_inv in Hclean as (Hs & _).
  destruct (join_starts_clean [NL] _ (numbered_lines (1 + 1) ts) Hs)
    as (c & s' & Heq & _).
  rewrite Heq. discriminate.
Qed.

Lemma filter_empty_plain (chunk : list str) :
  Forall plain_text chunk -> filter (fun t : str => t = []) chunk = [].
Proof.
  intros Hall. apply filter_none.
  eapply Forall_impl; [exact Hall|]. intros t (Hne & _). exact Hne.
Qed.

Lemma translate_step_answered (target_lang : str) (st : run_state)
    (batch : TranslationBatch nat) (chunk : list str) :
  NoDup (cues batch) -> length chunk = length (cues batch) ->
  chunk <> [] -> Forall plain_text chunk ->
  len chunk < 10 ^ int_max_str_digits ->
  (forall prompt,
      provider (outside st) (calls (outside st)) prompt
      = Some (join [NL] (numbered_lines 1 chunk))) ->
  exists st',
    translate_step target_lang st batch = Ok st'
    /\ failed_batches st' = failed_batches st
    /\ provider (outside st') = provider (outside st)
    /\ calls (outside st') = S (calls (outside st))
    /\ length (cue_heap st') = length (cue_heap st)
    /\ (forall (j : nat) r t,
          cues batch !! j = Some r -> chunk !! j = Some t ->
          cue_heap st' !! r = set_translated t <$> cue_heap st !! r)
    /\ (forall r, r ∉ cues batch -> cue_heap st' !! r = cue_heap st !! r).
Proof.
  intros Hnd Hlen Hne Hall Hlimit Hp.
  destruct (apply_translations_merge_from batch Hnd chunk 0 (cue_heap st)
              (failed_batches st) ltac:(lia))
    as (h' & Happ & Hl & Hin & Hout).
  change (Z.of_nat 0) with 0 in Happ.
  rewrite filter_empty_plain in Happ by assumption.
  unfold translate_step, translate_batch_with_retry.
  change (Z.to_nat MAX_RETRIES) with 3%nat.
  rewrite (retry_loop_answer 2 _ _ _ (outside st) (Hp _)
             (numbered_answer_nonempty chunk Hne Hall)).
  replace (len (cues batch)) with (len chunk) by (unfold len; lia).
  unfold parse_translation_response.
  rewrite (collect_response_lines chunk Hall Hlimit). cbn [mbind res_bind].
  rewrite py_slice_to_exact, Happ. cbn [mbind res_bind].
  eexists. split; [reflexivity|].
  cbn [cue_heap failed_batches outside emit provider calls].
  split; [unfold len; cbn [length]; lia|].
  split; [reflexivity|]. split; [reflexivity|]. split; [exact Hl|]. split.
  - intros j r t Hr Ht. rewrite (Hin j r t Hr Ht).
    destruct t as [|c t]; [|reflexivity].
    rewrite Forall_forall in Hall.
    destruct (Hall [] (list_elem_of_lookup_2 _ _ _ Ht)) as (Hnil & _). congruence.
  - intros r Hr. apply Hout. rewrite drop_0, Hlen, firstn_all. exact Hr.
Qed.

Section Answered.
Variables (target_lang : str) (w : world) (b : nat) (cues0 : heap) (ts : list str).
Hypothesis Hb : (0 < b)%nat.
Hypothesis Hts : length ts = length cues0.
Hypothesis Hplain : Forall plain_text ts.
Hypothesis Hlimit : len ts < 10 ^ int_max_str_digits.

Lemma chunk_facts (a : nat) :
  (a < length cues0)%nat ->
  let chunk := take b (drop a ts) in
  length chunk = length (take b (drop a (seq 0 (length cues0))))
  /\ chunk <> [] /\ Forall plain_text chunk
  /\ len chunk < 10 ^ int_max_str_digits.
Proof.
  intros Ha chunk. subst chunk. split; [|split; [|split]].
  - rewrite !length_take, !length_drop, length_seq. lia.
  - intros Hnil. apply (f_equal length) in Hnil.
    rewrite length_take, length_drop in Hnil. simpl in Hnil. lia.
  - apply Forall_take, Forall_drop. exact Hplain.
  - unfold len in *. rewrite length_take, length_drop. lia.
Qed.

Lemma translate_loop_answered (rest : list (TranslationBatch nat)) :
  forall (a : nat) (st : run_state),
    (forall (i : nat) bx, rest !! i = Some bx ->
        cues bx = take b (drop (a + i * b) (seq 0 (length cues0)))
        /\ (a + i * b < length cues0)%nat) ->
    (forall (i : nat) prompt, (i < length rest)%nat ->
        provider (outside st) (calls (outside st) + i) prompt
        = Some (join [NL] (numbered_lines 1 (take b (drop (a + i * b) ts))))) ->
    length (cue_heap st) = length cues0 ->
    (forall r, (a <= r)%nat -> cue_heap st !! r = cues0 !! r) ->
    exists st',
      translate_loop target_lang st rest = Ok st'
      /\ failed_batches st' = failed_batches st
      /\ calls (outside st') = (calls (outside st) + length rest)%nat
      /\ length (cue_heap st') = length cues0
      /\ (forall r, (r < a)%nat -> cue_heap st' !! r = cue_heap st !! r)
      /\ (forall r t c, (a <= r < a + length rest * b)%nat ->
            ts !! r = Some t -> cues0 !! r = Some c ->
            cue_heap st' !! r = Some (set_translated t c)).
Proof.
  induction rest as [|bx rest IH]; intros a st Hbatches Hprov Hlen Hfresh.
  - exists st. cbn [translate_loop length]. split; [reflexivity|].
    split; [reflexivity|]. split; [lia|]. split; [exact Hlen|].
    split; [reflexivity|]. intros r t c Hr. lia.
  - destruct (Hbatches 0%nat bx eq_refl) as [Hcues Ha].
    cbn [Nat.mul] in Hcues, Ha. rewrite Nat.add_0_r in Hcues, Ha.
    destruct (chunk_facts a Ha) as (Hclen & Hcne & Hcall & Hclim).
    rewrite <- Hcues in Hclen.
    assert (Hnd : NoDup (cues bx)).
    { rewrite Hcues, drop_seq, take_seq. apply NoDup_seq. }
    assert (Hmem : forall r, r ∈ cues bx <-> (a <= r < a + b /\ r < length cues0)%nat).
    { intros r. rewrite Hcues, drop_seq, take_seq, elem_of_seq. lia. }
    destruct (translate_step_answered target_lang st bx (take b (drop a ts))
                Hnd Hclen Hcne Hcall Hclim)
      as (st1 & Hstep & Hf1 & Hp1 & Hc1 & Hl1 & Hin1 & Hout1).
    { intros prompt. specialize (Hprov 0%nat prompt ltac:(cbn [length]; lia)).
      cbn [Nat.mul] in Hprov. rewrite !Nat.add_0_r in Hprov. exact Hprov. }
    destruct (IH (a + b)%nat st1) as (st' & Hloop & Hf2 & Hc2 & Hl2 & Hold & Hnew).
    + intros i by_ Hi. destruct (Hbatches (S i) by_ Hi) as [Hc Hlt].
      replace (a + b + i * b)%nat with (a + S i * b)%nat by (simpl; lia).
      split; assumption.
    + intros i prompt Hi. rewrite Hp1, Hc1.
      replace (S (calls (outside st)) + i)%nat
        with (calls (outside st) + S i)%nat by lia.
      rewrite (Hprov (S i) prompt ltac:(cbn [length]; lia)).
      replace (a + b + i * b)%nat with (a + S i * b)%nat by (simpl; lia).
      reflexivity.
    + rewrite Hl1. exact Hlen.
    + intros r Hr. rewrite Hout1; [apply Hfresh; lia|].
      rewrite Hmem. lia.
    + exists st'. cbn [translate_loop]. rewrite Hstep. cbn [mbind res_bind].
      split; [exact Hloop|]. split; [congruence|].
      split; [rewrite Hc2, Hc1; cbn [length]; lia|]. split; [exact Hl2|]. split.
      * intros r Hr. rewrite Hold by lia. apply Hout1. rewrite Hmem. lia.
      * intros r t c Hr Ht Hc. cbn [length] in Hr.
        assert (Hrn : (r < length cues0)%nat) by (eapply lookup_lt_Some; exact Hc).
        destruct (Nat.lt_ge_cases r (a + b)) as [Hin|Hafter].
        -- rewrite Hold by exact Hin.
           assert (Hr1 : cues bx !! (r - a)%nat = Some r).
           { rewrite Hcues, drop_seq, take_seq. apply lookup_seq. lia. }
           assert (Ht1 : take b (drop a ts) !! (r - a)%nat = Some t).
           { rewrite lookup_take. destruct (decide (r - a < b)%nat); [|lia].
             rewrite lookup_drop. replace (a + (r - a))%nat with r by lia. exact Ht. }
           rewrite (Hin1 _ _ _ Hr1 Ht1), Hfresh by lia. rewrite Hc. reflexivity.
        -- apply Hnew; [|assumption|assumption].
           replace (a + S (length rest) * b)%nat
             with (a + b + length rest * b)%nat in Hr by (simpl; lia).
           lia.
Qed.
End Answered.

Lemma is_translated_set (t : str) (c : Cue) :
  t <> [] -> (is_translated (set_translated t c) = true <-> t <> text c).
Proof.
  intros Ht. unfold is_translated.
  cbn [set_translated translated_text text].
  destruct t as [|x t]; [congruence|]. cbn [truthy andb].
  destruct (decide (Some (x :: t) = Some (text c))) as [Heq|Hneq].
  - rewrite bool_decide_eq_true_2 by assumption. cbn [negb].
    split; [discriminate|]. intros H. exfalso. apply H. congruence.
  - rewrite bool_decide_eq_false_2 by assumption. cbn [negb].
    split; [|reflexivity]. intros _ H. apply Hneq. congruence.
Qed.

Lemma count_translated (ts : list str) :
  Forall plain_text ts ->
  forall cs : list Cue,
    length (filter (fun c => is_translated c = true) (zip_with set_translated ts cs))
    = length (filter (fun p : str * Cue => fst p <> text (snd p)) (zip ts cs)).
Proof.
  induction 1 as [|t ts Ht _ IH]; intros cs; [reflexivity|].
  destruct cs as [|c cs]; [reflexivity|].
  cbn [zip_with]. rewrite !filter_cons. cbn [fst snd].
  destruct Ht as (Hne & _). pose proof (is_translated_set t c Hne) as Hiff.
  destruct (decide (is_translated (set_translated t c) = true)) as [Hy|Hn];
    destruct (decide (t <> text c)) as [Hd|Hs]; cbn [length];
    rewrite ?(IH cs); try reflexivity.
  - exfalso. apply Hs. apply Hiff. exact Hy.
  - exfalso. apply Hn. apply Hiff. exact Hd.
Qed.

Lemma set_translated_utf8 (ts : list str) :
  Forall utf8_text ts ->
  forall cs : list Cue,
    Forall (fun c => utf8_text (text c)
                     /\ forall t, translated_text c = Some t -> utf8_text t) cs ->
    Forall (fun c => utf8_text (text c)
                     /\ forall t, translated_text c = Some t -> utf8_text t)
      (zip_with set_translated ts cs).
Proof.
  induction 1 as [|t ts Ht _ IH]; intros cs Hcs; [constructor|].
  destruct Hcs as [|c cs [Hc _] Hcs]; [constructor|].
  cbn [zip_with]. constructor; [|apply IH; exact Hcs].
  cbn. split; [exact Hc|]. intros t' [= <-]. exact Ht.
Qed.

(** When every batch is answered, at its first request, by the numbered
    lines of plain translations, the run goes on to the end with one
    request per batch and no failure: the document it writes is that of
    the parsed cues with these translations, and the cues counted as
    translated are those whose translation differs from the source text.
    The run completes unless that document cannot be encoded, which makes
    the writing raise; it can be encoded whenever neither the content nor
    a translation holds a surrogate. *)
Theorem translate_numbered_answers (content target_lang : str)
    (batch_size context_size : Z) (w : world) (translations : list str) :
  0 < batch_size -> parse_srt content <> [] ->
  length translations = length (parse_srt content) ->
  len translations < 10 ^ int_max_str_digits ->
  Forall plain_text translations ->
  (forall (k : nat) prompt,
      (k * Z.to_nat batch_size < length translations)%nat ->
      provider w (calls w + k) prompt
      = Some (join [NL]
                (numbered_lines 1
                   (take (Z.to_nat batch_size)
                      (drop (k * Z.to_nat batch_size) translations))))) ->
  exists o,
    output_content o
    = generate_srt (zip_with set_translated translations (parse_srt content)) true
    /\ total_cues o = len (parse_srt content)
    /\ translated_count o
       = len (filter (fun p : str * Cue => fst p <> text (snd p))
                (zip translations (parse_srt content)))
    /\ failed_count o = 0
    /\ calls (final_world o)
       = (calls w + Z.to_nat ((len (parse_srt content) + batch_size - 1)
                              / batch_size))%nat
    /\ translate content target_lang batch_size context_size w
       = (if forallb utf8_encodable (output_content o) then Ok (Some o)
          else Raise UnicodeEncodeError)
    /\ (utf8_text content -> Forall utf8_text translations ->
        translate content target_lang batch_size context_size w = Ok (Some o)).
Proof.
  intros Hbs Hne Hlen Hlimit Hplain Hprov.
  pose proof (parse_srt_utf8 content) as Hutf. unfold translate.
  destruct (parse_srt content) as [|c0 cs0] eqn:Hcues; [congruence|].
  set (cs := c0 :: cs0) in *. set (b := Z.to_nat batch_size) in *.
  destruct (create_batches_lookup (seq 0 (length cs)) batch_size context_size Hbs)
    as (bl & Hbl & Hcover & Hat).
  destruct (create_batches_cover (seq 0 (length cs)) batch_size context_size Hbs)
    as (bl' & Hbl' & _ & Hn & _).
  rewrite Hbl in Hbl'. injection Hbl' as <-.
  rewrite length_seq in Hcover. fold b in Hcover.
  rewrite Hbl. cbn [mbind res_bind].
  destruct (translate_loop_answered target_lang b cs translations
              ltac:(lia) Hlen Hplain Hlimit bl 0
              {| cue_heap := cs; failed_batches := 0; outside := w |})
    as (st & Hloop & Hfail & Hcalls & Hl & _ & Hnew).
  - intros i bx Hi. destruct (Hat i bx Hi) as [-> Hlt].
    rewrite length_seq in Hlt. fold b in Hlt. cbn [Nat.add].
    split; [|exact Hlt].
    rewrite (batch_at_cues _ batch_size context_size i Hbs). reflexivity.
  - intros i prompt Hi. cbn [outside Nat.add].
    apply Hprov. fold b.
    destruct (lookup_lt_is_Some_2 bl i Hi) as [bx Hbx].
    destruct (Hat i bx Hbx) as [_ Hlt]. rewrite length_seq in Hlt.
    fold b in Hlt. lia.
  - reflexivity.
  - reflexivity.
  - rewrite Hloop. cbn [mbind res_bind]. cbv zeta.
    cbn [cue_heap failed_batches outside] in Hfail, Hcalls, Hl, Hnew.
    assert (Hh : cue_heap st = zip_with set_translated translations cs).
    { apply list_eq. intros r. rewrite lookup_zip_with.
      destruct (translations !! r) as [t|] eqn:Ht; cbn [mbind option_bind].
      - destruct (cs !! r) as [c|] eqn:Hc; cbn [mbind option_bind].
        + apply (Hnew r t c); [|exact Ht | exact Hc].
          apply lookup_lt_Some in Hc. lia.
        + apply lookup_ge_None. rewrite Hl. apply lookup_ge_None. exact Hc.
      - apply lookup_ge_None. rewrite Hl, <- Hlen. apply lookup_ge_None. exact Ht. }
    exists {| output_content := generate_srt (cue_heap st) true;
              total_cues := len (cue_heap st);
              translated_count :=
                len (filter (fun c => is_translated c = true) (cue_heap st));
              failed_count := failed_batches st;
              final_world := outside st |}.
    cbn [output_content total_cues translated_count failed_count final_world].
    split; [rewrite Hh; reflexivity|].
    split; [unfold len; rewrite Hl; reflexivity|].
    split; [rewrite Hh; unfold len; rewrite count_translated by assumption;
            reflexivity|].
    split; [exact Hfail|].
    split; [rewrite Hcalls, Hn; unfold len; rewrite length_seq; reflexivity|].
    split.
    + rewrite write_text_cases.
      destruct (forallb utf8_encodable _); reflexivity.
    + intros Hc Hts. rewrite write_text_utf8; [reflexivity|].
      rewrite Hh. apply generate_srt_utf8, set_translated_utf8; [exact Hts|].
      apply Hutf, Hc.
Qed.

Lemma translate_numbered_answers_witness :
  exists o,
    translate (join [NL] [u "1"; u "00:00:01,000 --> 00:00:02,000"; u "one"])
      (u "es") 30 2
      {| provider := fun _ _ => Some (u "1. uno"); calls := 0; log := [] |}
    = Ok (Some o)
    /\ translated_count o = 1
    /\ failed_count o = 0 /\ calls (final_world o) = 1%nat.
Proof.
  destruct (translate_numbered_answers
              (join [NL] [u "1"; u "00:00:01,000 --> 00:00:02,000"; u "one"])
              (u "es") 30 2
              {| provider := fun _ _ => Some (u "1. uno"); calls := 0; log := [] |}
              [u "uno"])
    as (o & _ & _ & Htr & Hfail & Hcalls & _ & Ho).
  - lia.
  - vm_compute. discriminate.
  - vm_compute. reflexivity.
  - apply Z.ltb_lt. vm_compute. reflexivity.
  - repeat constructor; try discriminate; try reflexivity.
    apply (bool_decide_unpack _). vm_compute. exact I.
  - intros [|k] prompt Hk; [reflexivity|].
    exfalso. vm_compute in Hk. lia.
  - exists o. split; [|split; [|split; [exact Hfail | exact Hcalls]]].
    + apply Ho.
      * apply utf8_text_forallb. vm_compute. reflexivity.
      * repeat constructor.
    + rewrite Htr. vm_compute. reflexivity.
Defined.

(** A translation that holds a lone surrogate, which a decoded JSON answer
    can hold, is plain text for the parser and is merged; the run then
    raises when it writes the document. *)
Example translate_surrogate_answer :
  plain_text [55296]
  /\ translate (join [NL] [u "1"; u "00:00:01,000 --> 00:00:02,000"; u "one"])
       (u "es") 30 2
       {| provider := fun _ _ => Some (u "1. " ++ [55296]); calls := 0; log := [] |}
     = Raise UnicodeEncodeError.
Proof.
  split; [|vm_compute; reflexivity].
  repeat split; try discriminate; try reflexivity.
  apply (bool_decide_unpack _). vm_compute. exact I.
Qed.
